(** * mvforge: the Beat Grid Engine of the renderer process

    A shallow embedding of the renderer script (grid maths, word alignment,
    tempo application and detection fall-back, footage tracker, JSON export)
    together with the properties stated for it.

    Numbers.  The script is embedded at two levels.  In the first a
    JavaScript Number is an exact rational [Q]: [+ - * /] are the field
    operations, [Math.floor] and [Math.round] are taken from [Qfloor], [%]
    is the truncated remainder.  This level carries the properties that
    rounding does not decide: what a handler writes and leaves alone, the
    order of events, the shape of the stored sequence.

    The module [Engine] is the second level: the same functions with every
    arithmetic operation rounded as binary64 rounds it ([Binary64.fl]:
    to the nearest number of the format, ties to the even one, subnormal
    numbers included) and with text as UTF-16 code units.  Properties that
    rounding decides (which grid point a time snaps to, how many beats fit
    a song, when the clips fill it) are stated on [Engine].  [NaN] and the
    infinities are outside both levels; wherever the source would divide
    by zero the statements carry the hypothesis that excludes it.  [null]
    is modelled by [None].

    Rendering ([drawWaveform], [drawTimeline], [renderLyricsGrid],
    [updateGridStats], [renderClipList]) only writes to the canvas and the
    DOM and never to [state]; of the DOM only the status text is kept.

    Collaborators (audio decoding, the tempo detector, the media probe,
    [path.basename]) are section variables.  An [async] handler is run as
    one step: the session is single-threaded and no other event is taken
    to arrive while a handler awaits. *)

From Stdlib Require Import ZArith QArith Qround Qabs Qminmax Qpower Lqa Lia.
From Stdlib Require Import List String Ascii Bool.
From Stdlib Require Floats.
Import ListNotations.

Local Open Scope Q_scope.

(** ** Number primitives *)

Module JS.

(** [Math.floor(x)] *)
Definition Math_floor (x : Q) : Q := inject_Z (Qfloor x).

(** [Math.round(x)]: the nearest integer, a tie going towards +infinity. *)
Definition Math_round (x : Q) : Q := inject_Z (Qfloor (x + (1 # 2))).

(** [Math.max(a, b)] and [Math.min(a, b)] *)
Definition Math_max (a b : Q) : Q := if Qle_bool a b then b else a.
Definition Math_min (a b : Q) : Q := if Qle_bool a b then a else b.

(** Strict and weak comparison as booleans. *)
Definition ltb (a b : Q) : bool := negb (Qle_bool b a).
Definition leb (a b : Q) : bool := Qle_bool a b.

(** Truncation towards zero, the integer quotient behind [%]. *)
Definition trunc (x : Q) : Z := if Qle_bool 0 x then Qfloor x else Qceiling x.

(** [a % b]: the remainder with the sign of the dividend. *)
Definition rem (a b : Q) : Q := a - b * inject_Z (trunc (a / b)).

(** [x.toFixed(f)], for [f] fraction digits.  The numeral [d.ddd] is
    represented by the integer [n] with value [n / 10^f]; the sign is taken
    off first and of two equally near [n] the larger is taken.  From 10^21
    on [toFixed] prints the number itself ([ToString]). *)
Inductive numeral : Type :=
| Fixed (f : positive) (n : Z)
| Plain (x : Q).

Definition pow10 (f : positive) : positive := Pos.pow 10 f.

Definition toFixed (f : positive) (x : Q) : numeral :=
  if Qle_bool (inject_Z (10 ^ 21)) (Qabs x) then Plain x
  else if ltb x 0
       then Fixed f (- Qfloor (- x * inject_Z (Zpos (pow10 f)) + (1 # 2)))
       else Fixed f (Qfloor (x * inject_Z (Zpos (pow10 f)) + (1 # 2))).

(** [parseFloat] of such a numeral. *)
Definition parseFloat (s : numeral) : Q :=
  match s with
  | Fixed f n => n # pow10 f
  | Plain x => x
  end.

(** [a ?? b] *)
Definition nullish {A} (a : option A) (b : option A) : option A :=
  match a with Some _ => a | None => b end.

(** [v || d] on a nullable number: [null] and [0] are falsy. *)
Definition truthy (v : option Q) : bool :=
  match v with Some x => negb (Qeq_bool x 0) | None => false end.

Definition or_default (v : option Q) (d : Q) : Q :=
  match v with Some x => if Qeq_bool x 0 then d else x | None => d end.

End JS.

(** ** Data model *)

(** The rhythmic class stored in the [type] field of a grid entry. *)
Inductive beat : Type := downbeat | half | quarter | offbeat.

Record Grid : Type := mkGrid {
  eighth_note    : Q;
  quarter_note   : Q;
  half_note      : Q;
  downbeat_whole : Q;
}.

(** ** Grid Math *)

Definition calcGrid (bpm : Q) : Grid :=
  let q := 60 / bpm in
  {| eighth_note    := q / 2;
     quarter_note   := q;
     half_note      := q * 2;
     downbeat_whole := q * 4 |}.

Definition snapToGrid (t eighth : Q) : Q :=
  JS.Math_round (t / eighth) * eighth.

Definition eps : Q := 1 # 10000.

Definition near (v mod_ : Q) : bool :=
  let r := JS.rem (JS.rem v mod_ + mod_) mod_ in
  JS.ltb r eps || JS.ltb (mod_ - r) eps.

Definition classifyBeat (snapped : Q) (grid : Grid) : beat :=
  let q := quarter_note grid in
  let h := half_note grid in
  let db := downbeat_whole grid in
  if near snapped db then downbeat
  else if near snapped h then half
  else if near snapped q then quarter
  else offbeat.

(** ** Session state *)

Record AudioBuffer : Type := mkAudioBuffer {
  buffer_duration : Q;
  channelData     : list Q;
}.

(** A word as the transcription collaborator (or a re-tempo) hands it over:
    [{word, start}] or [{word, raw_start}]. *)
Module W.
Record t : Type := mk {
  word      : string;
  start     : option Q;
  raw_start : option Q;
}.
End W.

(** One aligned word of [state.lyricsGrid]. *)
Record GridEntry : Type := mkEntry {
  word          : string;
  raw_start     : Q;
  snapped_start : Q;
  type          : beat;
}.

Module Clip.
Record t : Type := mk {
  name     : string;
  path     : string;
  duration : Q;
}.
End Clip.

Record State : Type := mkState {
  filePath    : option string;
  audioBuffer : option AudioBuffer;
  bpm         : option Q;
  duration    : option Q;
  grid        : option Grid;
  lyricsGrid  : list GridEntry;
  pythonCmd   : option string;
  clips       : list Clip.t;
  (* el.statusText, [None] while the status bar is hidden *)
  statusText  : option string;
}.

Definition set_filePath v s :=
  mkState v (audioBuffer s) (bpm s) (duration s) (grid s) (lyricsGrid s)
          (pythonCmd s) (clips s) (statusText s).
Definition set_audioBuffer v s :=
  mkState (filePath s) v (bpm s) (duration s) (grid s) (lyricsGrid s)
          (pythonCmd s) (clips s) (statusText s).
Definition set_bpm v s :=
  mkState (filePath s) (audioBuffer s) v (duration s) (grid s) (lyricsGrid s)
          (pythonCmd s) (clips s) (statusText s).
Definition set_duration v s :=
  mkState (filePath s) (audioBuffer s) (bpm s) v (grid s) (lyricsGrid s)
          (pythonCmd s) (clips s) (statusText s).
Definition set_grid v s :=
  mkState (filePath s) (audioBuffer s) (bpm s) (duration s) v (lyricsGrid s)
          (pythonCmd s) (clips s) (statusText s).
Definition set_lyricsGrid v s :=
  mkState (filePath s) (audioBuffer s) (bpm s) (duration s) (grid s) v
          (pythonCmd s) (clips s) (statusText s).
Definition set_clips v s :=
  mkState (filePath s) (audioBuffer s) (bpm s) (duration s) (grid s)
          (lyricsGrid s) (pythonCmd s) v (statusText s).
Definition set_statusText v s :=
  mkState (filePath s) (audioBuffer s) (bpm s) (duration s) (grid s)
          (lyricsGrid s) (pythonCmd s) (clips s) v.

(** ** Statements that read and write [state], and may throw *)

Definition M (A : Type) : Type := State -> (string + A) * State.

Definition ret {A} (a : A) : M A := fun s => (inr a, s).

Definition bind {A B} (m : M A) (k : A -> M B) : M B :=
  fun s => match m s with
           | (inr a, s') => k a s'
           | (inl e, s') => (inl e, s')
           end.

Definition throw {A} (msg : string) : M A := fun s => (inl msg, s).

(** [try { m } catch (err) { h err.message }] *)
Definition try_catch {A} (m : M A) (h : string -> M A) : M A :=
  fun s => match m s with
           | (inr a, s') => (inr a, s')
           | (inl e, s') => h e s'
           end.

Definition get : M State := fun s => (inr s, s).
Definition modify (f : State -> State) : M unit := fun s => (inr tt, f s).

(** The state a statement leaves behind, whether it returned or threw. *)
Definition exec {A} (m : M A) (s : State) : State := snd (m s).

Declare Scope js_scope.
Delimit Scope js_scope with js.
Notation "x <- m ;; k" := (bind m (fun x => k))
  (at level 61, m at next level, right associativity) : js_scope.
Notation "m ;; k" := (bind m (fun _ => k))
  (at level 61, right associativity) : js_scope.
Local Open Scope js_scope.

(** [setStatus(msg)]: a falsy message ([null], the empty string) hides the bar. *)
Definition setStatus (msg : option string) : M unit :=
  match msg with
  | Some (String c r) => modify (set_statusText (Some (String c r)))
  | _ => modify (set_statusText None)
  end.

(** Rounding to four decimals, [parseFloat(x.toFixed(4))]. *)
Definition round4 (x : Q) : Q := JS.parseFloat (JS.toFixed 4 x).

(** ** Text utilities *)

(** The white space of [\s] and [trim()] among the code units a [string]
    holds: TAB, LF, VT, FF, CR, SPACE and NBSP. *)
Definition is_space (c : ascii) : bool :=
  let n := nat_of_ascii c in
  ((9 <=? n) && (n <=? 13) || (n =? 32) || (n =? 160))%nat.

Fixpoint trimStart (s : string) : string :=
  match s with
  | String c r => if is_space c then trimStart r else s
  | EmptyString => EmptyString
  end.

(** Drops the white space at the end: a character stays when it is not a
    space or something is left after it. *)
Fixpoint trimEnd (s : string) : string :=
  match s with
  | String c r =>
      match trimEnd r with
      | EmptyString => if is_space c then EmptyString else String c EmptyString
      | r' => String c r'
      end
  | EmptyString => EmptyString
  end.

Definition trim (s : string) : string := trimEnd (trimStart s).

(** [s.split(/\s+/)]: [cur] is the piece being read, in reverse; [in_ws]
    tells that the last character read was white space. *)
Fixpoint rev_string (acc s : string) : string :=
  match s with
  | String c r => rev_string (String c acc) r
  | EmptyString => acc
  end.

Fixpoint split_go (in_ws : bool) (cur : string) (s : string) : list string :=
  match s with
  | EmptyString => [rev_string EmptyString cur]
  | String c r =>
      if is_space c
      then if in_ws then split_go true cur r
           else rev_string EmptyString cur :: split_go true EmptyString r
      else split_go false (String c cur) r
  end.

Definition split_ws (s : string) : list string := split_go false EmptyString s.

(** [Boolean(s)] on a string. *)
Definition nonempty (s : string) : bool :=
  match s with EmptyString => false | String _ _ => true end.

(** [l.map((x, i) => f x i)] *)
Fixpoint mapi_from {A B} (i : nat) (f : A -> nat -> B) (l : list A) : list B :=
  match l with
  | [] => []
  | x :: r => f x i :: mapi_from (S i) f r
  end.

Definition mapi {A B} (f : A -> nat -> B) (l : list A) : list B :=
  mapi_from 0 f l.

Definition of_nat (n : nat) : Q := inject_Z (Z.of_nat n).

(** ** Word alignment *)

(** The callback of [words.map] in [processWords].  [rawOf] is
    [parseFloat(w.start ?? w.raw_start ?? 0)]: [parseFloat] leaves a number
    as it is. *)
Definition rawOf (w : W.t) : Q :=
  match JS.nullish (W.start w) (W.raw_start w) with
  | Some x => x
  | None => 0
  end.

Definition toEntry (grid : Grid) (w : W.t) : GridEntry :=
  let raw := rawOf w in
  let snapped := snapToGrid raw (eighth_note grid) in
  {| word          := W.word w;
     raw_start     := JS.parseFloat (JS.toFixed 4 raw);
     snapped_start := JS.parseFloat (JS.toFixed 4 snapped);
     type          := classifyBeat snapped grid |}.

(** Reading [grid.eighth_note] off a [null] grid throws, in the callback: an
    empty [words] never gets there. *)
Definition processWords (words : list W.t) : M unit :=
  s <- get ;;
  match words, grid s with
  | [], _ => modify (set_lyricsGrid [])
  | _ :: _, None => throw "TypeError: grid is null"
  | _ :: _, Some g => modify (set_lyricsGrid (map (toEntry g) words))
  end.

Definition tokens (text : string) : list string :=
  filter nonempty (split_ws (trim text)).

Definition totalBeats (duration quarter : Q) : Q :=
  JS.Math_floor (duration / quarter).

Definition stepOf (duration quarter : Q) (n : nat) : Q :=
  JS.Math_max 1 (JS.Math_floor (totalBeats duration quarter / of_nat n)).

(** The argument [distributeManualLyrics] passes to [processWords]. *)
Definition manualWords (words : list string) (duration quarter : Q) : list W.t :=
  let step := stepOf duration quarter (List.length words) in
  mapi (fun word i => W.mk word (Some (of_nat i * step * quarter)) None) words.

Definition distributeManualLyrics (text : string) : M unit :=
  let words := tokens text in
  s <- get ;;
  match grid s with
  | None => throw "TypeError: grid is null"
  | Some g =>
      let duration := match duration s with Some d => d | None => 0 end in
      processWords (manualWords words duration (quarter_note g))
  end.

(** ** BPM apply *)

(** [(e) => ({ word: e.word, start: e.raw_start })] *)
Definition reword (e : GridEntry) : W.t :=
  W.mk (word e) (Some (raw_start e)) None.

Definition applyBPM (bpm : option Q) : M unit :=
  match bpm with
  | None => ret tt
  | Some b =>
      if negb (JS.truthy bpm) || JS.leb b 0 then ret tt
      else
        modify (set_bpm (Some b)) ;;
        modify (set_grid (Some (calcGrid b))) ;;
        s <- get ;;
        if (0 <? List.length (lyricsGrid s))%nat
        then processWords (map reword (lyricsGrid s))
        else ret tt
  end.

(** ** Footage tracker *)

(** What [updateFootageTracker] computes before it writes to the DOM. *)
Record Footage : Type := mkFootage {
  songDur    : Q;
  totalClip  : Q;
  rawPct     : Q;
  displayPct : Q;
  remaining  : Q;
  done       : bool;
  over       : bool;
}.

Definition footage (s : State) : Footage :=
  let songDur   := JS.or_default (duration s) 0 in
  let totalClip := fold_left (fun s c => s + Clip.duration c) (clips s) 0 in
  let rawPct    := if JS.ltb 0 songDur then (totalClip / songDur) * 100 else 0 in
  let displayPct := JS.Math_min rawPct 100 in
  let remaining := JS.Math_max (songDur - totalClip) 0 in
  let done      := JS.leb 100 rawPct in
  let over      := JS.ltb 100 rawPct in
  mkFootage songDur totalClip rawPct displayPct remaining done over.

(** [fmtSec(sec)]: minutes, and seconds padded to two digits by the view. *)
Definition fmtSec (sec : Q) : Q * Q :=
  (JS.Math_floor (sec / 60), JS.Math_floor (JS.rem sec 60)).

Inductive remaining_text : Type :=
| Full
| Left (t : Q * Q)
| Dash.

(** The writes of [updateFootageTracker]: the fill bar's width in percent
    and its class, the percent label and its class, and the three figures. *)
Record FootageView : Type := mkFootageView {
  footageFill_width      : Q;
  footageFill_class      : string;
  footagePct_text        : Q;
  footagePct_class       : string;
  footageAdded_text      : Q * Q;
  footageTotal_text      : option (Q * Q);
  footageRemaining_text  : remaining_text;
  footageRemaining_class : string;
}.

Definition updateFootageTracker (s : State) : FootageView :=
  let f := footage s in
  {| footageFill_width := displayPct f;
     footageFill_class :=
       ("footage-fill" ++ (if over f then " over" else if done f then " done" else ""))%string;
     footagePct_text := JS.Math_round (rawPct f);
     footagePct_class :=
       ("footage-pct" ++ (if over f then " over" else if done f then " done" else ""))%string;
     footageAdded_text := fmtSec (totalClip f);
     footageTotal_text :=
       if JS.ltb 0 (songDur f) then Some (fmtSec (songDur f)) else None;
     footageRemaining_text :=
       if done f then Full
       else if JS.ltb 0 (songDur f) then Left (fmtSec (remaining f)) else Dash;
     footageRemaining_class :=
       if done f then "footage-remaining done"%string
       else "footage-remaining"%string |}.

Definition removeClip (index : nat) : M unit :=
  modify (fun s =>
            set_clips (firstn index (clips s) ++ skipn (S index) (clips s)) s).

Definition clearClips : M unit := modify (set_clips []).

(** ** Export *)

Record GridIntervals : Type := mkGridIntervals {
  gi_quarter_note   : Q;
  gi_eighth_note    : Q;
  gi_half_note      : Q;
  gi_downbeat_whole : Q;
}.

Record Metadata : Type := mkMetadata {
  track            : string;
  md_bpm           : Q;
  duration_seconds : Q;
  grid_intervals   : GridIntervals;
}.

(** The object [buildJSON] hands to [JSON.stringify]. *)
Record Export : Type := mkExport {
  metadata    : Metadata;
  lyrics_grid : list GridEntry;
}.

Definition num (v : option Q) : Q := match v with Some x => x | None => 0 end.

Section Collaborators.

(** Reading and decoding the audio file; [inl] is the exception's message. *)
Variable decodeAudioData : string -> string + AudioBuffer.
(** [new MusicTempo(channelData).tempo], or the exception it throws. *)
Variable MusicTempo : list Q -> string + Q.
(** [getMediaDuration]: [None] for [null]. *)
Variable getMediaDuration : string -> option Q.
(** [path.basename] *)
Variable basename : string -> string.

Definition loadAudioFile (filePath : string) : M AudioBuffer :=
  setStatus (Some "Loading audio..."%string) ;;
  match decodeAudioData filePath with
  | inl e => throw e
  | inr audioBuffer =>
      modify (set_audioBuffer (Some audioBuffer)) ;;
      modify (set_duration (Some (buffer_duration audioBuffer))) ;;
      modify (set_filePath (Some filePath)) ;;
      ret audioBuffer
  end.

Definition detectBPM (audioBuffer : AudioBuffer) : M (option Q) :=
  setStatus (Some "Detecting BPM..."%string) ;;
  match MusicTempo (channelData audioBuffer) with
  | inr bpm =>
      if JS.leb 40 bpm && JS.leb bpm 280
      then ret (Some (JS.Math_round (bpm * 10) / 10))
      else ret None
  | inl _ => ret None
  end.

Definition handleFile (filePath : option string) : M unit :=
  match filePath with
  | Some (String c r) =>
      try_catch
        (audioBuffer <- loadAudioFile (String c r) ;;
         detected <- detectBPM audioBuffer ;;
         applyBPM (Some (JS.or_default detected 120)) ;;
         setStatus None ;;
         if negb (JS.truthy detected)
         then setStatus (Some "BPM detection failed — enter BPM manually"%string)
         else ret tt)
        (fun msg => setStatus (Some ("Error: " ++ msg)%string))
  | _ => ret tt
  end.

(** The click handler of [el.redetectBtn]. *)
Definition redetectClick : M unit :=
  s <- get ;;
  match audioBuffer s with
  | None => ret tt
  | Some ab =>
      bpm <- detectBPM ab ;;
      (if JS.truthy bpm then applyBPM bpm else ret tt) ;;
      setStatus None
  end.

(** What the [transcribe] call resolves to.  The progress messages shown
    while it runs are overwritten by the status set at its end. *)
Inductive transcription : Type :=
| TranscribeFailed (error : string)
| TranscribeOk (words : list W.t).

Definition handleTranscribe (result : transcription) : M unit :=
  s <- get ;;
  match filePath s, pythonCmd s with
  | Some (String _ _), Some (String _ _) =>
      setStatus (Some "Loading Whisper model..."%string) ;;
      match result with
      | TranscribeFailed error =>
          setStatus (Some ("Transcription failed: " ++ error)%string)
      | TranscribeOk words =>
          setStatus None ;;
          processWords words
      end
  | _, _ => ret tt
  end.

(** The click handler of [el.manualApplyBtn]. *)
Definition manualApplyClick (lyricsInput : string) : M unit :=
  let text := trim lyricsInput in
  if nonempty text then distributeManualLyrics text else ret tt.

Definition resetApp : M unit :=
  modify (fun s => mkState None None None None None [] (pythonCmd s) []
                           (statusText s)) ;;
  setStatus None.

Definition addClips (filePaths : list string) : M unit :=
  modify (fun s =>
    fold_left
      (fun s fp =>
         let dur := getMediaDuration fp in
         if JS.truthy dur && JS.ltb 0 (num dur)
         then set_clips (clips s ++ [Clip.mk (basename fp) fp (num dur)]) s
         else s)
      filePaths s).

Definition buildJSON : M Export :=
  s <- get ;;
  match filePath s, grid s with
  | Some fp, Some g =>
      ret {| metadata :=
               {| track := basename fp;
                  md_bpm := JS.Math_round (num (bpm s) * 100) / 100;
                  duration_seconds := JS.Math_round (num (duration s) * 100) / 100;
                  grid_intervals :=
                    {| gi_quarter_note   := JS.parseFloat (JS.toFixed 6 (quarter_note g));
                       gi_eighth_note    := JS.parseFloat (JS.toFixed 6 (eighth_note g));
                       gi_half_note      := JS.parseFloat (JS.toFixed 6 (half_note g));
                       gi_downbeat_whole := JS.parseFloat (JS.toFixed 6 (downbeat_whole g)) |} |};
             lyrics_grid := lyricsGrid s |}
  | _, _ => throw "TypeError"
  end.

(** ** The session as a state machine *)

(** What the user and the collaborators can do to the session. *)
Inductive action : Type :=
| OpenFile (filePath : option string)
| EnterBPM (value : option Q)
| Redetect
| Transcribe (result : transcription)
| ApplyManual (lyricsInput : string)
| ResetApp
| AddClips (filePaths : list string)
| RemoveClip (index : nat)
| ClearClips.

Definition dispatch (a : action) : M unit :=
  match a with
  | OpenFile fp => handleFile fp
  | EnterBPM v => applyBPM v
  | Redetect => redetectClick
  | Transcribe r => handleTranscribe r
  | ApplyManual t => manualApplyClick t
  | ResetApp => resetApp
  | AddClips fps => addClips fps
  | RemoveClip i => removeClip i
  | ClearClips => clearClips
  end.

(** The state at start-up, once [initPython] has answered. *)
Definition initial (python : option string) : State :=
  mkState None None None None None [] python [] None.

Definition run (acts : list action) (s : State) : State :=
  fold_left (fun s a => exec (dispatch a) s) acts s.

(** What is taken for granted of the words a transcription returns. *)
Variable valid : W.t -> Prop.

Definition admissible (a : action) : Prop :=
  match a with
  | Transcribe (TranscribeOk words) => Forall valid words
  | _ => True
  end.

(** The states the session can be in: an event handler that throws leaves
    the state as it was at the throw, and the next event finds it so. *)
Inductive reachable (python : option string) : State -> Prop :=
| reach_initial : reachable python (initial python)
| reach_step (s : State) (a : action) :
    reachable python s -> admissible a ->
    reachable python (exec (dispatch a) s).

End Collaborators.



(** An entry whose two times are unchanged by rounding to four decimals. *)
Definition rounded (entry : GridEntry) : Prop :=
  raw_start entry = round4 (raw_start entry) /\
  snapped_start entry = round4 (snapped_start entry).

(** ** Canvas: pixel-per-beat layout *)

(** Pixels per quarter note at 1x zoom. *)
Definition PX_PER_BEAT : Q := 30.

(** [Math.ceil(x)] *)
Definition Math_ceil (x : Q) : Q := inject_Z (Qceiling x).

Definition canvasWidth (s : State) : Q :=
  if negb (JS.truthy (bpm s)) || negb (JS.truthy (duration s)) then 800
  else Math_ceil ((num (duration s) / (60 / num (bpm s))) * PX_PER_BEAT) + 60.

(** ** Canvas: waveform *)






(** ** Export: LRC *)

(** One line [[mm:ss.cc] word]: the minutes, the seconds as [toFixed(2)]
    prints them, and the word. *)
Record LrcLine : Type := mkLrcLine {
  lrc_minutes : Q;
  lrc_seconds : JS.numeral;
  lrc_word    : string;
}.

Definition buildLRC (s : State) : list LrcLine :=
  map (fun e =>
         let t := snapped_start e in
         let m := JS.Math_floor (t / 60) in
         let s := JS.rem t 60 in
         mkLrcLine m (JS.toFixed 2 s) (word e))
      (lyricsGrid s).

(** ** The specification's membership test

    Written from the specification's words, to compare [near] with: a time
    [v] is a member of interval family [m] when [v mod m], the residue of
    [v] in [0, m), is within [eps] of [0] or of [m]. *)



(** The sum of the clip durations, as the specification writes it. *)
Definition clip_sum (cs : list Clip.t) : Q :=
  fold_right (fun c acc => Clip.duration c + acc) 0 cs.

(** A session with a song of [d] seconds and the clips [cs]. *)
Definition session_with (d : option Q) (cs : list Clip.t) : State :=
  mkState None None None d None [] None cs None.

Definition clip_of (d : Q) : Clip.t := Clip.mk "clip.mp4" "/footage/clip.mp4" d.

(** A session with a song of [d] seconds loaded at tempo [b]. *)
Definition session_at (b d : Q) : State :=
  mkState (Some "song.mp3"%string) None (Some b) (Some d) (Some (calcGrid b))
          [] None [] None.

(** ** Auxiliary descriptions used by the proofs *)

(** The session re-aligned to the tempo [b]: what [applyBPM] leaves when [b]
    passes its guard. *)
Definition retempo (b : Q) (s : State) : State :=
  set_lyricsGrid (map (toEntry (calcGrid b)) (map reword (lyricsGrid s)))
    (set_grid (Some (calcGrid b)) (set_bpm (Some b) s)).

(** What [detectBPM] returns for the collaborator's answer [r]. *)
Definition detected (r : string + Q) : option Q :=
  match r with
  | inr bpm =>
      if JS.leb 40 bpm && JS.leb bpm 280
      then Some (JS.Math_round (bpm * 10) / 10)
      else None
  | inl _ => None
  end.

(** The text [handleFile] leaves in the status bar once the file is decoded. *)
Definition load_status (r : string + Q) : option string :=
  if JS.truthy (detected r) then None
  else Some "BPM detection failed — enter BPM manually"%string.

(** What one event does to the tempo, the grid and the entries. *)
Inductive effect (valid : W.t -> Prop) (s s' : State) : Prop :=
| eff_keep :
    bpm s' = bpm s -> grid s' = grid s -> lyricsGrid s' = lyricsGrid s ->
    effect valid s s'
| eff_clear :
    bpm s' = bpm s -> grid s' = grid s -> lyricsGrid s' = [] ->
    effect valid s s'
| eff_reset :
    bpm s' = None -> grid s' = None -> lyricsGrid s' = [] ->
    effect valid s s'
| eff_retempo (b : Q) :
    0 < b -> bpm s' = Some b -> grid s' = Some (calcGrid b) ->
    lyricsGrid s' = map (toEntry (calcGrid b)) (map reword (lyricsGrid s)) ->
    effect valid s s'
| eff_words (g : Grid) (ws : list W.t) :
    bpm s' = bpm s -> grid s = Some g -> grid s' = Some g ->
    lyricsGrid s' = map (toEntry g) ws ->
    Forall valid ws \/
    (exists words d, ws = manualWords words d (quarter_note g)) ->
    effect valid s s'.

(** Tempo, grid and entries agree: either no tempo has been applied yet and
    there is no entry, or the grid is that of the positive tempo and every
    entry was made on it by [processWords], from a word satisfying [P]. *)
Definition aligned (P : W.t -> Prop) (s : State) : Prop :=
  (exists b ws,
      0 < b /\ bpm s = Some b /\ grid s = Some (calcGrid b) /\
      Forall P ws /\ lyricsGrid s = map (toEntry (calcGrid b)) ws)
  \/ (bpm s = None /\ grid s = None /\ lyricsGrid s = []).

(** ** Collaborators for the worked examples *)

(** Every file decodes to [d] seconds of silence. *)
Definition demo_decode (d : Q) (filePath : string) : string + AudioBuffer :=
  inr (mkAudioBuffer d []).

(** The tempo detection answers [r] whatever the samples. *)
Definition demo_tempo (r : string + Q) (samples : list Q) : string + Q := r.

Definition demo_duration (filePath : string) : option Q := Some 30.

Definition demo_basename (filePath : string) : string := filePath.

(** The session after the events [acts], with a song of [d] seconds, the
    detection answering [r] and Python found. *)
Definition demo_run (d : Q) (r : string + Q) (acts : list action) : State :=
  run (demo_decode d) (demo_tempo r) demo_duration demo_basename acts
      (initial (Some "python3"%string)).

Definition demo_reachable (d : Q) (r : string + Q) (valid : W.t -> Prop)
    (s : State) : Prop :=
  reachable (demo_decode d) (demo_tempo r) demo_duration demo_basename valid
            (Some "python3"%string) s.

(** ** The loaded track and the clips

    Either no track is loaded, or the path, the decoded buffer and the
    duration are those of one decoded file and a tempo has been applied. *)
Definition loaded_ok (decodeAudioData : string -> string + AudioBuffer)
    (s : State) : Prop :=
  (filePath s = None /\ audioBuffer s = None /\ duration s = None) \/
  (exists c rest ab b,
      filePath s = Some (String c rest) /\ audioBuffer s = Some ab /\
      duration s = Some (buffer_duration ab) /\
      decodeAudioData (String c rest) = inr ab /\ bpm s = Some b).

Definition session_ok (decodeAudioData : string -> string + AudioBuffer)
    (python : option string) (s : State) : Prop :=
  pythonCmd s = python /\ loaded_ok decodeAudioData s /\
  Forall (fun c => 0 < Clip.duration c) (clips s).

(** [s'] differs from [s] at most in the tempo, the grid, the entries and
    the status, and has a tempo if [s] has one. *)
Definition frame_eq (s s' : State) : Prop :=
  filePath s' = filePath s /\ audioBuffer s' = audioBuffer s /\
  duration s' = duration s /\ pythonCmd s' = pythonCmd s /\
  clips s' = clips s /\
  (forall b, bpm s = Some b -> exists b', bpm s' = Some b').

(** * Binary64 numbers *)

(** A finite binary64 number is [m * 2^e] with [|m| < 2^53] and
    [e >= -1074].  [fl x] is the number of the format nearest to the
    rational [x], the one with an even [m] when two are equally near: the
    rounding of IEEE 754 that [+], [-], [*] and [/] apply to their exact
    result.  Overflow is not modelled: the results are taken to be finite. *)

Module Binary64.

(** The least exponent: 2^-1074 is the least positive number. *)
Definition emin : Z := -1074.

Definition pow2 (e : Z) : Q := 2 ^ e.

(** The binade of [x <> 0]: [2^e <= |x| < 2^(e+1)]. *)
Definition ilog2 (x : Q) : Z :=
  let e := (Z.log2 (Z.abs (Qnum x)) - Z.log2 (Zpos (Qden x)))%Z in
  if Qle_bool (pow2 e) (Qabs x) then e else (e - 1)%Z.

(** The exponent of the last place of [x]: 53 digits, none below [emin]. *)
Definition fexp (x : Q) : Z := Z.max (ilog2 x - 52) emin.

(** The nearest integer, the even one in a tie. *)
Definition rne (y : Q) : Z :=
  let f := Qfloor y in
  match Qcompare (y - inject_Z f) (1 # 2) with
  | Lt => f
  | Gt => (f + 1)%Z
  | Eq => if Z.even f then f else (f + 1)%Z
  end.

Definition fl (x : Q) : Q :=
  Qred (inject_Z (rne (x / pow2 (fexp x))) * pow2 (fexp x)).

(** [x + y], [x - y], [x * y] and [x / y] of JavaScript. *)
Definition add (x y : Q) : Q := fl (x + y).
Definition sub (x y : Q) : Q := fl (x - y).
Definition mul (x y : Q) : Q := fl (x * y).
Definition div (x y : Q) : Q := fl (x / y).

(** Half the gap between 1 and the next number, and half the least
    positive number. *)
Definition u : Q := pow2 (-53).
Definition eta : Q := pow2 (-1075).

(** The numbers of the format: [m * 2^e] with [|m| < 2^53] and
    [e >= -1074].  (The largest exponent is left out: the model is of
    finite results.) *)
Definition format (x : Q) : Prop :=
  exists m e : Z, (Z.abs m < 2 ^ 53)%Z /\ (emin <= e)%Z /\ x == inject_Z m * pow2 e.

End Binary64.

(** * The engine on binary64 numbers and UTF-16 text

    The functions of the renderer once more, as the interpreter runs them.
    [Math.round], [Math.floor], [%] and [toFixed] are exact on the numbers
    they are given; [parseFloat] rounds the numeral it reads.  A function
    that can throw returns the error or the new state. *)

Module Engine.

(** A JavaScript string: its UTF-16 code units. *)
Definition text : Type := list Z.

(** The code units of a string of ASCII characters. *)
Fixpoint utf16 (s : string) : text :=
  match s with
  | EmptyString => []
  | String c r => Z.of_nat (nat_of_ascii c) :: utf16 r
  end.

(** ** Grid Math *)

Definition calcGrid (bpm : Q) : Grid :=
  let q := Binary64.div 60 bpm in
  {| eighth_note    := Binary64.div q 2;
     quarter_note   := q;
     half_note      := Binary64.mul q 2;
     downbeat_whole := Binary64.mul q 4 |}.

Definition snapToGrid (t eighth : Q) : Q :=
  Binary64.mul (JS.Math_round (Binary64.div t eighth)) eighth.

Definition eps : Q := Binary64.fl (1 # 10000).

Definition near (v mod_ : Q) : bool :=
  let r := JS.rem (Binary64.add (JS.rem v mod_) mod_) mod_ in
  JS.ltb r eps || JS.ltb (Binary64.sub mod_ r) eps.

Definition classifyBeat (snapped : Q) (grid : Grid) : beat :=
  let q := quarter_note grid in
  let h := half_note grid in
  let db := downbeat_whole grid in
  if near snapped db then downbeat
  else if near snapped h then half
  else if near snapped q then quarter
  else offbeat.

(** ** Session state *)

Record Word : Type := mkWord {
  w_word      : text;
  w_start     : option Q;
  w_raw_start : option Q;
}.

Record GridEntry : Type := mkEntry {
  word          : text;
  raw_start     : Q;
  snapped_start : Q;
  type          : beat;
}.

Record State : Type := mkState {
  filePath    : option string;
  audioBuffer : option AudioBuffer;
  bpm         : option Q;
  duration    : option Q;
  grid        : option Grid;
  lyricsGrid  : list GridEntry;
  pythonCmd   : option string;
  clips       : list Clip.t;
  (* el.statusText, [None] while the status bar is hidden *)
  statusText  : option string;
}.

Definition set_tempo (b : Q) (g : Grid) (s : State) : State :=
  mkState (filePath s) (audioBuffer s) (Some b) (duration s) (Some g)
          (lyricsGrid s) (pythonCmd s) (clips s) (statusText s).

Definition set_lyricsGrid (v : list GridEntry) (s : State) : State :=
  mkState (filePath s) (audioBuffer s) (bpm s) (duration s) (grid s) v
          (pythonCmd s) (clips s) (statusText s).

Definition set_statusText (v : option string) (s : State) : State :=
  mkState (filePath s) (audioBuffer s) (bpm s) (duration s) (grid s)
          (lyricsGrid s) (pythonCmd s) (clips s) v.

(** [setStatus(msg)]: a falsy message ([null], the empty string) hides the bar. *)
Definition setStatus (msg : option string) (s : State) : State :=
  match msg with
  | Some (String c r) => set_statusText (Some (String c r)) s
  | _ => set_statusText None s
  end.

(** ** Word alignment *)

(** [parseFloat] of a numeral [toFixed] printed: the nearest number. *)
Definition parseFloat (s : JS.numeral) : Q := Binary64.fl (JS.parseFloat s).

Definition round4 (x : Q) : Q := parseFloat (JS.toFixed 4 x).

Definition rawOf (w : Word) : Q :=
  match JS.nullish (w_start w) (w_raw_start w) with
  | Some x => x
  | None => 0
  end.

Definition toEntry (grid : Grid) (w : Word) : GridEntry :=
  let raw := rawOf w in
  let snapped := snapToGrid raw (eighth_note grid) in
  {| word          := w_word w;
     raw_start     := parseFloat (JS.toFixed 4 raw);
     snapped_start := parseFloat (JS.toFixed 4 snapped);
     type          := classifyBeat snapped grid |}.

(** Returns the new state, or the error thrown. *)
Definition processWords (words : list Word) (s : State) : string + State :=
  match words, grid s with
  | [], _ => inr (set_lyricsGrid [] s)
  | _ :: _, None => inl "TypeError: grid is null"%string
  | _ :: _, Some g => inr (set_lyricsGrid (map (toEntry g) words) s)
  end.

(** ** Manual lyrics *)

(** White space of [\s] and of [trim()]: TAB, LF, VT, FF, CR, SPACE, NBSP,
    U+1680, U+2000 to U+200A, U+2028, U+2029, U+202F, U+205F, U+3000 and
    U+FEFF. *)
Definition is_space (c : Z) : bool :=
  ((9 <=? c) && (c <=? 13) || (c =? 32) || (c =? 160) || (c =? 5760)
   || (8192 <=? c) && (c <=? 8202) || (c =? 8232) || (c =? 8233)
   || (c =? 8239) || (c =? 8287) || (c =? 12288) || (c =? 65279))%Z.

Fixpoint trimStart (s : text) : text :=
  match s with
  | c :: r => if is_space c then trimStart r else s
  | [] => []
  end.

Definition trimEnd (s : text) : text := rev (trimStart (rev s)).

Definition trim (s : text) : text := trimEnd (trimStart s).

(** [s.split(/\s+/)]: [cur] is the piece being read, in reverse; [in_ws]
    tells that the last code unit read was white space. *)
Fixpoint split_go (in_ws : bool) (cur : text) (s : text) : list text :=
  match s with
  | [] => [rev cur]
  | c :: r =>
      if is_space c
      then if in_ws then split_go true cur r
           else rev cur :: split_go true [] r
      else split_go false (c :: cur) r
  end.

Definition split_ws (s : text) : list text := split_go false [] s.

(** [Boolean(s)] on a string. *)
Definition nonempty (s : text) : bool :=
  match s with [] => false | _ :: _ => true end.

Definition tokens (t : text) : list text :=
  filter nonempty (split_ws (trim t)).

Definition totalBeats (duration quarter : Q) : Q :=
  JS.Math_floor (Binary64.div duration quarter).

Definition stepOf (duration quarter : Q) (n : nat) : Q :=
  JS.Math_max 1 (JS.Math_floor (Binary64.div (totalBeats duration quarter) (of_nat n))).

Definition manualWords (words : list text) (duration quarter : Q) : list Word :=
  let step := stepOf duration quarter (List.length words) in
  mapi (fun word i =>
          mkWord word
                 (Some (Binary64.mul (Binary64.mul (of_nat i) step) quarter))
                 None)
       words.

Definition distributeManualLyrics (t : text) (s : State) : string + State :=
  let words := tokens t in
  match grid s with
  | None => inl "TypeError: grid is null"%string
  | Some g => processWords (manualWords words (num (duration s)) (quarter_note g)) s
  end.

(** ** Transcription *)

(** What the [transcribe] call resolves to: [{ok: false, error}] or
    [{ok: true, data: {words}}]. *)
Inductive transcription : Type :=
| TranscribeFailed (error : string)
| TranscribeOk (words : list Word).

Definition handleTranscribe (result : transcription) (s : State) : string + State :=
  match filePath s, pythonCmd s with
  | Some (String _ _), Some (String _ _) =>
      let s1 := setStatus (Some "Loading Whisper model..."%string) s in
      match result with
      | TranscribeFailed error =>
          inr (setStatus (Some ("Transcription failed: " ++ error)%string) s1)
      | TranscribeOk words => processWords words (setStatus None s1)
      end
  | _, _ => inr s
  end.

(** ** BPM apply *)

Definition reword (e : GridEntry) : Word :=
  mkWord (word e) (Some (raw_start e)) None.

Definition applyBPM (bpm : option Q) (s : State) : string + State :=
  match bpm with
  | None => inr s
  | Some b =>
      if negb (JS.truthy bpm) || JS.leb b 0 then inr s
      else
        let s1 := set_tempo b (calcGrid b) s in
        if (0 <? List.length (lyricsGrid s1))%nat
        then processWords (map reword (lyricsGrid s1)) s1
        else inr s1
  end.

(** ** Footage tracker *)

Definition footage (s : State) : Footage :=
  let songDur   := JS.or_default (duration s) 0 in
  let totalClip :=
    fold_left (fun acc c => Binary64.add acc (Clip.duration c)) (clips s) 0 in
  let rawPct    :=
    if JS.ltb 0 songDur
    then Binary64.mul (Binary64.div totalClip songDur) 100 else 0 in
  let displayPct := JS.Math_min rawPct 100 in
  let remaining := JS.Math_max (Binary64.sub songDur totalClip) 0 in
  let done      := JS.leb 100 rawPct in
  let over      := JS.ltb 100 rawPct in
  mkFootage songDur totalClip rawPct displayPct remaining done over.

Definition fmtSec (sec : Q) : Q * Q :=
  (JS.Math_floor (Binary64.div sec 60), JS.Math_floor (JS.rem sec 60)).

Definition updateFootageTracker (s : State) : FootageView :=
  let f := footage s in
  {| footageFill_width := displayPct f;
     footageFill_class :=
       ("footage-fill" ++ (if over f then " over" else if done f then " done" else ""))%string;
     footagePct_text := JS.Math_round (rawPct f);
     footagePct_class :=
       ("footage-pct" ++ (if over f then " over" else if done f then " done" else ""))%string;
     footageAdded_text := fmtSec (totalClip f);
     footageTotal_text :=
       if JS.ltb 0 (songDur f) then Some (fmtSec (songDur f)) else None;
     footageRemaining_text :=
       if done f then Full
       else if JS.ltb 0 (songDur f) then Left (fmtSec (remaining f)) else Dash;
     footageRemaining_class :=
       if done f then "footage-remaining done"%string
       else "footage-remaining"%string |}.

(** ** Export *)

Record Export : Type := mkExport {
  metadata    : Metadata;
  lyrics_grid : list GridEntry;
}.

Definition buildJSON (basename : string -> string) (s : State) : string + Export :=
  match filePath s, grid s with
  | Some fp, Some g =>
      inr {| metadata :=
               {| track := basename fp;
                  md_bpm :=
                    Binary64.div (JS.Math_round (Binary64.mul (num (bpm s)) 100)) 100;
                  duration_seconds :=
                    Binary64.div (JS.Math_round (Binary64.mul (num (duration s)) 100)) 100;
                  grid_intervals :=
                    {| gi_quarter_note   := parseFloat (JS.toFixed 6 (quarter_note g));
                       gi_eighth_note    := parseFloat (JS.toFixed 6 (eighth_note g));
                       gi_half_note      := parseFloat (JS.toFixed 6 (half_note g));
                       gi_downbeat_whole := parseFloat (JS.toFixed 6 (downbeat_whole g)) |} |};
             lyrics_grid := lyricsGrid s |}
  | _, _ => inl "TypeError"%string
  end.

(** ** Sessions for the worked cases *)

(** A song of [d] seconds loaded at tempo [b], with the entries [l]. *)
Definition session_at (b d : Q) (l : list GridEntry) : State :=
  mkState (Some "song.mp3"%string) None (Some b) (Some d) (Some (calcGrid b))
          l None [] None.

(** A song of [d] seconds, if any, and the clips [cs]. *)
Definition session_with (d : option Q) (cs : list Clip.t) : State :=
  mkState None None None d None [] None cs None.

(** ** Canvas geometry *)

Definition canvasWidth (s : State) : Q :=
  if negb (JS.truthy (bpm s)) || negb (JS.truthy (duration s)) then 800
  else Binary64.add
         (Math_ceil (Binary64.mul
                       (Binary64.div (num (duration s))
                                     (Binary64.div 60 (num (bpm s))))
                       PX_PER_BEAT))
         60.

(** [timeToX(t)].  It is called from [drawTimeline] only, past the guard
    that returns unless a tempo and a duration are set, so the division is
    by a number other than 0. *)
Definition timeToX (s : State) (t : Q) : Q :=
  Binary64.mul (Binary64.div t (num (duration s))) (canvasWidth s).

(** ** Grid statistics *)

(** [cuts(iv)] of [updateGridStats]: the count shown beside an interval. *)
Definition cuts (duration iv : Q) : Q :=
  JS.Math_floor (Binary64.div duration iv).

(** The texts [updateGridStats] writes: each interval with four decimals
    and its number of cuts (the digit grouping of [toLocaleString] is left
    to the view). *)
Record GridStats : Type := mkGridStats {
  statDownbeat      : JS.numeral;
  statDownbeatCount : Q;
  statHalf          : JS.numeral;
  statHalfCount     : Q;
  statQuarter       : JS.numeral;
  statQuarterCount  : Q;
  statOffbeat       : JS.numeral;
  statOffbeatCount  : Q;
}.

Definition updateGridStats (s : State) : option GridStats :=
  if negb (JS.truthy (bpm s)) || negb (JS.truthy (duration s)) then None
  else match grid s with
       | None => None
       | Some grid =>
           let duration := num (duration s) in
           Some {| statDownbeat      := JS.toFixed 4 (downbeat_whole grid);
                   statDownbeatCount := cuts duration (downbeat_whole grid);
                   statHalf          := JS.toFixed 4 (half_note grid);
                   statHalfCount     := cuts duration (half_note grid);
                   statQuarter       := JS.toFixed 4 (quarter_note grid);
                   statQuarterCount  := cuts duration (quarter_note grid);
                   statOffbeat       := JS.toFixed 4 (eighth_note grid);
                   statOffbeatCount  := cuts duration (eighth_note grid) |}
       end.

End Engine.


(** ** Auxiliary descriptions for the engine *)

(** The clip durations added from the left, each sum rounded. *)
Definition sum64 (cs : list Clip.t) : Q :=
  fold_left (fun acc c => Binary64.add acc (Clip.duration c)) cs 0.


(** ** The primitive binary64 numbers, to compare with *)

Module Hardware.

(** The value of a finite primitive float. *)
Definition to_Q (f : PrimFloat.float) : option Q :=
  match FloatOps.Prim2SF f with
  | SpecFloat.S754_zero _ => Some 0
  | SpecFloat.S754_finite s m e =>
      Some (Qred ((if s then -1 else 1) * inject_Z (Zpos m) * Binary64.pow2 e))
  | _ => None
  end.

(** The primitive float of an integer below 2^53 (no rounding). *)
Definition of_Z (z : Z) : PrimFloat.float :=
  if (z <? 0)%Z
  then PrimFloat.opp (PrimFloat.of_uint63 (Uint63.of_Z (- z)))
  else PrimFloat.of_uint63 (Uint63.of_Z z).

End Hardware.

(** What is left of a text once every white-space code unit is taken out. *)
Definition strip (t : Engine.text) : Engine.text :=
  filter (fun c => negb (Engine.is_space c)) t.

(** The maximal runs of code units other than white space, read left to
    right with the run under way kept in reverse: a second reading of
    [Engine.tokens], used to prove how it splits. *)
Fixpoint runs (cur s : Engine.text) : list Engine.text :=
  match s with
  | [] => if Engine.nonempty cur then [rev cur] else []
  | c :: r =>
      if Engine.is_space c
      then if Engine.nonempty cur then rev cur :: runs [] r else runs [] r
      else runs (c :: cur) r
  end.

(** * Properties *)

(** ** Integers among the rationals *)

Lemma inject_Z_succ (z : Z) : inject_Z (z + 1) == inject_Z z + 1.
Proof. rewrite inject_Z_plus. reflexivity. Qed.

Lemma floor_bounds (x : Q) :
  inject_Z (Qfloor x) <= x /\ x < inject_Z (Qfloor x) + 1.
Proof.
  split; [apply Qfloor_le|].
  rewrite <- inject_Z_succ. apply Qlt_floor.
Qed.

Lemma floor_unique (x : Q) (z : Z) :
  inject_Z z <= x -> x < inject_Z z + 1 -> Qfloor x = z.
Proof.
  intros Hlo Hhi.
  destruct (floor_bounds x) as [Flo Fhi].
  assert (H1 : inject_Z z < inject_Z (Qfloor x + 1)).
  { rewrite inject_Z_succ. lra. }
  assert (H2 : inject_Z (Qfloor x) < inject_Z (z + 1)).
  { rewrite inject_Z_succ. lra. }
  rewrite <- Zlt_Qlt in H1, H2. lia.
Qed.




Lemma round_nonneg (x : Q) : 0 <= x -> (0 <= Qfloor (x + (1 # 2)))%Z.
Proof.
  intros Hx.
  destruct (floor_bounds (x + (1 # 2))) as [_ Hhi].
  assert (H : inject_Z (-1) < inject_Z (Qfloor (x + (1 # 2)))).
  { change (inject_Z (-1)) with (-1). lra. }
  rewrite <- Zlt_Qlt in H. lia.
Qed.

Lemma ltb_lt (a b : Q) : JS.ltb a b = true <-> a < b.
Proof.
  unfold JS.ltb. rewrite negb_true_iff, <- not_true_iff_false, Qle_bool_iff.
  split; [apply Qnot_le_lt | apply Qlt_not_le].
Qed.

Lemma leb_le (a b : Q) : JS.leb a b = true <-> a <= b.
Proof. apply Qle_bool_iff. Qed.

Lemma ltb_ge (a b : Q) : JS.ltb a b = false <-> b <= a.
Proof.
  unfold JS.ltb. rewrite negb_false_iff. apply Qle_bool_iff.
Qed.

(** ** Snap *)





(** ** Classify *)

Section Division.

Variables (v m : Q).
Hypothesis Hm : 0 < m.

Lemma div_ge (c : Q) : c <= v / m <-> m * c <= v.
Proof.
  split; intros H.
  - assert (E : v == m * (v / m)) by (field; lra).
    rewrite E. apply Qmult_le_l; assumption.
  - apply Qle_shift_div_l; [assumption|]. rewrite Qmult_comm. exact H.
Qed.

Lemma div_lt (c : Q) : v / m < c <-> v < m * c.
Proof.
  split; intros H.
  - assert (E : v == m * (v / m)) by (field; lra).
    rewrite E. apply Qmult_lt_l; assumption.
  - apply Qlt_shift_div_r; [assumption|]. rewrite Qmult_comm. exact H.
Qed.


Lemma floor_div_bounds :
  m * inject_Z (Qfloor (v / m)) <= v /\ v < m * inject_Z (Qfloor (v / m)) + m.
Proof.
  destruct (floor_bounds (v / m)) as [Flo Fhi].
  apply div_ge in Flo. apply div_lt in Fhi. split; lra.
Qed.

End Division.

Lemma trunc_nonneg (x : Q) : 0 <= x -> JS.trunc x = Qfloor x.
Proof.
  intros H. unfold JS.trunc. apply Qle_bool_iff in H. rewrite H. reflexivity.
Qed.



(** The remainder [a % m] differs from [a] by [m] times the truncated
    quotient; for a positive [m] it has the sign of [a] and is short of [m]. *)
Lemma rem_nonneg (a m : Q) :
  0 < m -> 0 <= a ->
  JS.rem a m == a - m * inject_Z (Qfloor (a / m)).
Proof.
  intros Hm Ha. unfold JS.rem.
  rewrite trunc_nonneg; [reflexivity|].
  apply div_ge; [assumption | lra].
Qed.





Lemma calcGrid_pos (b : Q) :
  0 < b ->
  0 < eighth_note (calcGrid b) /\ 0 < quarter_note (calcGrid b) /\
  0 < half_note (calcGrid b) /\ 0 < downbeat_whole (calcGrid b).
Proof.
  intros Hb.
  assert (Hq : 0 < 60 / b) by (apply Qlt_shift_div_l; lra).
  cbn [calcGrid eighth_note quarter_note half_note downbeat_whole].
  assert (He : 60 / b / 2 == (1 # 2) * (60 / b)) by (field; lra).
  rewrite He. repeat split; lra.
Qed.




(** ** Footage tracker *)

Lemma fold_left_clip_sum (cs : list Clip.t) (a : Q) :
  fold_left (fun s c => s + Clip.duration c) cs a == a + clip_sum cs.
Proof.
  revert a. induction cs as [|c cs IH]; intros a; cbn [fold_left clip_sum fold_right].
  - ring.
  - rewrite IH. fold (clip_sum cs). ring.
Qed.

Lemma Math_max_Qmax (a b : Q) : JS.Math_max a b == Qmax a b.
Proof.
  unfold JS.Math_max. destruct (Qle_bool a b) eqn:E.
  - apply Qle_bool_iff in E. symmetry. apply Q.max_r, E.
  - symmetry. apply Q.max_l.
    apply Qlt_le_weak, Qnot_le_lt. intros H. apply Qle_bool_iff in H. congruence.
Qed.

Lemma Math_min_Qmin (a b : Q) : JS.Math_min a b == Qmin a b.
Proof.
  unfold JS.Math_min. destruct (Qle_bool a b) eqn:E.
  - apply Qle_bool_iff in E. symmetry. apply Q.min_l, E.
  - symmetry. apply Q.min_r.
    apply Qlt_le_weak, Qnot_le_lt. intros H. apply Qle_bool_iff in H. congruence.
Qed.

(** ** Rounding to four decimals *)

Lemma round4_small (x : Q) :
  Qabs x < inject_Z (10 ^ 21) ->
  exists n : Z, round4 x = n # 10000 /\
                inject_Z n - (1 # 2) <= x * 10000 <= inject_Z n + (1 # 2).
Proof.
  intros Hx. unfold round4, JS.toFixed.
  apply ltb_lt in Hx. unfold JS.ltb in Hx at 1. apply negb_true_iff in Hx.
  rewrite Hx.
  change (inject_Z (Z.pos (JS.pow10 4))) with 10000.
  destruct (JS.ltb x 0) eqn:Es; cbn [JS.parseFloat];
    change (JS.pow10 4) with 10000%positive.
  - exists (- Qfloor (- x * 10000 + (1 # 2)))%Z. split; [reflexivity|].
    destruct (floor_bounds (- x * 10000 + (1 # 2))) as [Flo Fhi].
    rewrite inject_Z_opp. split; lra.
  - exists (Qfloor (x * 10000 + (1 # 2))). split; [reflexivity|].
    destruct (floor_bounds (x * 10000 + (1 # 2))) as [Flo Fhi].
    split; lra.
Qed.

Lemma round4_large (x : Q) :
  inject_Z (10 ^ 21) <= Qabs x -> round4 x = x.
Proof.
  intros Hx. unfold round4, JS.toFixed.
  apply Qle_bool_iff in Hx. rewrite Hx. reflexivity.
Qed.

Lemma Qmake_10000 (n : Z) : (n # 10000) * 10000 == inject_Z n.
Proof.
  rewrite (Qmake_Qdiv n 10000). field.
Qed.



(** Rounding a rounded value changes nothing, as a term. *)
Lemma round4_idempotent (x : Q) : round4 (round4 x) = round4 x.
Proof.
  destruct (Qlt_le_dec (Qabs x) (inject_Z (10 ^ 21))) as [Hs|Hl].
  - destruct (round4_small x Hs) as (n & E & _). rewrite E.
    destruct (Qlt_le_dec (Qabs (n # 10000)) (inject_Z (10 ^ 21))) as [Hs'|Hl'].
    + destruct (round4_small (n # 10000) Hs') as (n' & E' & Hlo & Hhi).
      rewrite E'. rewrite Qmake_10000 in Hlo, Hhi.
      assert (H1 : inject_Z n' < inject_Z (n + 1)) by (rewrite inject_Z_succ; lra).
      assert (H2 : inject_Z n < inject_Z (n' + 1)) by (rewrite inject_Z_succ; lra).
      rewrite <- Zlt_Qlt in H1, H2.
      replace n' with n by lia. reflexivity.
    + apply round4_large, Hl'.
  - rewrite (round4_large x Hl). apply round4_large, Hl.
Qed.

(** ** Word alignment *)

Lemma nth_error_mapi_from {A B} (f : A -> nat -> B) (l : list A) (k i : nat) :
  nth_error (mapi_from k f l) i = option_map (fun x => f x (k + i)%nat) (nth_error l i).
Proof.
  revert k i. induction l as [|x l IH]; intros k [|i]; cbn; try reflexivity.
  - rewrite Nat.add_0_r. reflexivity.
  - rewrite IH. rewrite Nat.add_succ_comm. reflexivity.
Qed.

Lemma length_mapi_from {A B} (f : A -> nat -> B) (l : list A) (k : nat) :
  List.length (mapi_from k f l) = List.length l.
Proof.
  revert k. induction l as [|x l IH]; intros k; cbn; [reflexivity|].
  rewrite IH. reflexivity.
Qed.

Lemma exec_processWords (ws : list W.t) (s : State) (g : Grid) :
  grid s = Some g ->
  processWords ws s = (inr tt, set_lyricsGrid (map (toEntry g) ws) s).
Proof.
  intros Hg. unfold processWords, bind, get. rewrite Hg.
  destruct ws; reflexivity.
Qed.



(** ** Applying a tempo *)

(** The state [applyBPM] leaves when the tempo [b] passes its guard. *)
Lemma applyBPM_accepts (b : Q) (s : State) :
  0 < b ->
  applyBPM (Some b) s =
  (inr tt, retempo b s).
Proof.
  intros Hb. unfold applyBPM, retempo.
  assert (Hz : JS.truthy (Some b) = true).
  { cbn [JS.truthy]. apply negb_true_iff, not_true_iff_false.
    intros H. apply Qeq_bool_iff in H. lra. }
  assert (Hl : JS.leb b 0 = false).
  { apply not_true_iff_false. intros H. apply leb_le in H. lra. }
  rewrite Hz, Hl. cbn [negb orb].
  unfold bind, modify, get. cbn [lyricsGrid set_grid set_bpm].
  destruct (lyricsGrid s) as [|e l] eqn:El.
  - cbn [List.length Nat.ltb Nat.leb map ret].
    unfold ret, set_lyricsGrid, set_grid, set_bpm.
    cbn. rewrite El. reflexivity.
  - cbn [List.length Nat.ltb Nat.leb].
    rewrite (exec_processWords _ _ (calcGrid b)) by reflexivity.
    reflexivity.
Qed.

Lemma applyBPM_rejects (v : option Q) (s : State) :
  (forall b, v = Some b -> b <= 0) -> applyBPM v s = (inr tt, s).
Proof.
  intros Hv. unfold applyBPM. destruct v as [b|]; [|reflexivity].
  assert (Hl : JS.leb b 0 = true) by (apply leb_le, Hv; reflexivity).
  rewrite Hl, orb_true_r. reflexivity.
Qed.

(** [applyBPM] returns on every input: it either leaves the session alone
    or re-aligns it to a positive tempo. *)
Lemma applyBPM_cases (v : option Q) (s : State) :
  applyBPM v s = (inr tt, s) \/
  exists b, 0 < b /\ v = Some b /\
    applyBPM v s = (inr tt, retempo b s).
Proof.
  destruct v as [b|].
  - destruct (Qlt_le_dec 0 b) as [Hb|Hb].
    + right. exists b. repeat split; try assumption. apply applyBPM_accepts, Hb.
    + left. apply applyBPM_rejects. intros b' [= <-]. exact Hb.
  - left. reflexivity.
Qed.

(** ** Tempo detection and file loading *)

Section Handlers.

Variable decodeAudioData : string -> string + AudioBuffer.
Variable MusicTempo : list Q -> string + Q.
Variable getMediaDuration : string -> option Q.
Variable basename : string -> string.

Lemma detectBPM_run (ab : AudioBuffer) (s : State) :
  detectBPM MusicTempo ab s =
  (inr (detected (MusicTempo (channelData ab))),
   set_statusText (Some "Detecting BPM..."%string) s).
Proof.
  unfold detectBPM, detected, bind. cbn [setStatus modify].
  destruct (MusicTempo (channelData ab)) as [e|v]; [reflexivity|].
  destruct (JS.leb 40 v && JS.leb v 280); reflexivity.
Qed.

(** A detected tempo is a tenth-rounded value of [40, 280]. *)
Lemma detected_range (r : string + Q) (b : Q) :
  detected r = Some b -> 40 <= b /\ b <= 280.
Proof.
  unfold detected. destruct r as [e|v]; [discriminate|].
  destruct (JS.leb 40 v && JS.leb v 280) eqn:E; [|discriminate].
  apply andb_true_iff in E. destruct E as [Hlo Hhi].
  apply leb_le in Hlo, Hhi. intros [= <-].
  unfold JS.Math_round.
  assert (H1 : (400 <= Qfloor (v * 10 + (1 # 2)))%Z).
  { rewrite <- (Qfloor_Z 400). apply Qfloor_resp_le.
    change (inject_Z 400) with 400. lra. }
  assert (H2 : (Qfloor (v * 10 + (1 # 2)) <= 2800)%Z).
  { assert (E : Qfloor (2800 + (1 # 2)) = 2800%Z) by reflexivity.
    rewrite <- E. apply Qfloor_resp_le. lra. }
  rewrite Zle_Qle in H1, H2.
  change (inject_Z 400) with 400 in H1. change (inject_Z 2800) with 2800 in H2.
  split.
  - apply Qle_shift_div_l; [reflexivity|]. lra.
  - apply Qle_shift_div_r; [reflexivity|]. lra.
Qed.

Lemma detected_truthy (r : string + Q) :
  JS.truthy (detected r) = true <-> exists b, detected r = Some b.
Proof.
  split.
  - destruct (detected r) as [b|]; [eexists; reflexivity | discriminate].
  - intros [b Hb]. rewrite Hb. cbn [JS.truthy].
    apply detected_range in Hb. apply negb_true_iff, not_true_iff_false.
    intros H. apply Qeq_bool_iff in H. lra.
Qed.

(** The tempo [handleFile] applies is positive, detected or not. *)
Lemma or_default_detected (r : string + Q) :
  0 < JS.or_default (detected r) 120 /\
  (detected r = None -> JS.or_default (detected r) 120 = 120) /\
  (forall b, detected r = Some b -> JS.or_default (detected r) 120 = b).
Proof.
  destruct (detected r) as [b|] eqn:E; cbn [JS.or_default].
  - apply detected_range in E.
    assert (Hz : Qeq_bool b 0 = false).
    { apply not_true_iff_false. intros H. apply Qeq_bool_iff in H. lra. }
    rewrite Hz. split; [lra|]. split; [discriminate|].
    intros b' [= <-]. reflexivity.
  - split; [reflexivity|]. split; [reflexivity|discriminate].
Qed.

Lemma handleFile_decoded (c : ascii) (rest : string) (ab : AudioBuffer) (s : State) :
  decodeAudioData (String c rest) = inr ab ->
  let r := MusicTempo (channelData ab) in
  handleFile decodeAudioData MusicTempo (Some (String c rest)) s =
  (inr tt,
   set_statusText (load_status r)
     (retempo (JS.or_default (detected r) 120)
        (set_statusText (Some "Detecting BPM..."%string)
           (set_filePath (Some (String c rest))
              (set_duration (Some (buffer_duration ab))
                 (set_audioBuffer (Some ab)
                    (set_statusText (Some "Loading audio..."%string) s))))))).
Proof.
  intros Hdec r.
  destruct (or_default_detected r) as (Hpos & _).
  unfold handleFile, try_catch, bind, loadAudioFile.
  cbn [setStatus]. rewrite Hdec. unfold bind, modify, ret.
  rewrite detectBPM_run. fold r.
  rewrite (applyBPM_accepts _ _ Hpos).
  unfold load_status.
  destruct (JS.truthy (detected r)); reflexivity.
Qed.

Lemma handleFile_undecoded (c : ascii) (rest msg : string) (s : State) :
  decodeAudioData (String c rest) = inl msg ->
  exists x, handleFile decodeAudioData MusicTempo (Some (String c rest)) s =
            (inr tt, set_statusText x s).
Proof.
  intros Hdec.
  unfold handleFile, try_catch, bind, loadAudioFile.
  cbn [setStatus modify]. rewrite Hdec. unfold throw.
  exists (Some ("Error: " ++ msg)%string). reflexivity.
Qed.

Lemma redetectClick_run (s : State) (ab : AudioBuffer) :
  audioBuffer s = Some ab ->
  let r := MusicTempo (channelData ab) in
  redetectClick MusicTempo s =
  (inr tt,
   set_statusText None
     (match detected r with
      | Some b => retempo b (set_statusText (Some "Detecting BPM..."%string) s)
      | None => set_statusText (Some "Detecting BPM..."%string) s
      end)).
Proof.
  intros Hab r. unfold redetectClick, bind, get. rewrite Hab.
  rewrite detectBPM_run. fold r.
  destruct (detected r) as [b|] eqn:E.
  - assert (Ht : JS.truthy (Some b) = true).
    { rewrite <- E. apply detected_truthy. exists b. exact E. }
    rewrite Ht. apply detected_range in E.
    rewrite applyBPM_accepts by lra. reflexivity.
  - reflexivity.
Qed.

Lemma redetectClick_idle (s : State) :
  audioBuffer s = None -> redetectClick MusicTempo s = (inr tt, s).
Proof.
  intros Hab. unfold redetectClick, bind, get. rewrite Hab. reflexivity.
Qed.

(** ** One event at a time *)

Lemma effect_status (valid : W.t -> Prop) (s s' : State) (x : option string) :
  effect valid s s' -> effect valid s (set_statusText x s').
Proof.
  intros [H1 H2 H3|H1 H2 H3|H1 H2 H3|b Hb H1 H2 H3|g ws H1 Hg H2 H3 Hs].
  - apply eff_keep; assumption.
  - apply eff_clear; assumption.
  - apply eff_reset; assumption.
  - apply (eff_retempo valid s _ b); assumption.
  - apply (eff_words valid s _ g ws); assumption.
Qed.

Lemma effect_processWords (valid : W.t -> Prop) (ws : list W.t) (s0 s : State) :
  bpm s = bpm s0 -> grid s = grid s0 -> lyricsGrid s = lyricsGrid s0 ->
  (forall g, grid s0 = Some g ->
     Forall valid ws \/ exists words d, ws = manualWords words d (quarter_note g)) ->
  effect valid s0 (exec (processWords ws) s).
Proof.
  intros Hb Hg Hl Hsrc. unfold exec.
  destruct (grid s0) as [g|] eqn:Eg.
  - rewrite (exec_processWords ws s g Hg). cbn [snd].
    apply (eff_words valid s0 _ g ws); try reflexivity; try assumption.
    apply Hsrc. reflexivity.
  - unfold processWords, bind, get. rewrite Hg.
    destruct ws as [|w ws]; cbn [snd].
    + apply eff_clear; cbn; congruence.
    + apply eff_keep; cbn; congruence.
Qed.

Lemma dispatch_effect (valid : W.t -> Prop) (a : action) (s : State) :
  admissible valid a ->
  effect valid s
    (exec (dispatch decodeAudioData MusicTempo getMediaDuration basename a) s).
Proof.
  intros Hadm. destruct a as [fp|v| |r|text| |fps|i| ]; cbn [dispatch].
  - (* OpenFile *)
    destruct fp as [[|c rest]|]; try (apply eff_keep; reflexivity).
    destruct (decodeAudioData (String c rest)) as [msg|ab] eqn:Hdec.
    + unfold exec. destruct (handleFile_undecoded c rest msg s Hdec) as [x ->].
      apply eff_keep; reflexivity.
    + unfold exec. rewrite (handleFile_decoded c rest ab s Hdec). cbn [snd].
      destruct (or_default_detected (MusicTempo (channelData ab))) as (Hpos & _).
      apply effect_status.
      apply (eff_retempo valid s _ _ Hpos); reflexivity.
  - (* EnterBPM *)
    unfold exec. destruct (applyBPM_cases v s) as [->|(b & Hb & _ & ->)]; cbn [snd].
    + apply eff_keep; reflexivity.
    + apply (eff_retempo valid s _ b Hb); reflexivity.
  - (* Redetect *)
    unfold exec. destruct (audioBuffer s) as [ab|] eqn:Hab.
    + rewrite (redetectClick_run s ab Hab). cbn [snd].
      apply effect_status.
      destruct (detected (MusicTempo (channelData ab))) as [b|] eqn:E.
      * apply detected_range in E.
        apply (eff_retempo valid s _ b); [lra|reflexivity..].
      * apply eff_keep; reflexivity.
    + rewrite (redetectClick_idle s Hab). apply eff_keep; reflexivity.
  - (* Transcribe *)
    unfold handleTranscribe, exec, bind, get.
    destruct (filePath s) as [[|c rest]|]; try (apply eff_keep; reflexivity).
    destruct (pythonCmd s) as [[|c' rest']|]; try (apply eff_keep; reflexivity).
    cbn [setStatus modify].
    destruct r as [err|ws].
    + apply eff_keep; reflexivity.
    + apply (effect_processWords valid ws s); try reflexivity.
      intros g _. left. exact Hadm.
  - (* ApplyManual *)
    unfold manualApplyClick.
    destruct (nonempty (trim text)); [|apply eff_keep; reflexivity].
    unfold distributeManualLyrics, exec, bind, get.
    destruct (grid s) as [g|] eqn:Eg; [|apply eff_keep; reflexivity].
    pose proof (effect_processWords valid
                  (manualWords (tokens (trim text))
                     match duration s with Some d => d | None => 0 end
                     (quarter_note g)) s s eq_refl eq_refl eq_refl) as H.
    unfold exec in H. apply H.
    intros g' Hg'. rewrite Eg in Hg'. injection Hg' as <-.
    right. eexists. eexists. reflexivity.
  - (* ResetApp *)
    apply eff_reset; reflexivity.
  - (* AddClips *)
    unfold addClips, exec, modify. cbn [snd]. clear Hadm.
    revert s. induction fps as [|fp fps IH]; intros s; cbn [fold_left].
    + apply eff_keep; reflexivity.
    + match goal with |- context [fold_left _ fps ?x] => set (s1 := x) end.
      assert (H1 : bpm s1 = bpm s /\ grid s1 = grid s /\ lyricsGrid s1 = lyricsGrid s).
      { unfold s1. destruct (_ && _); repeat split. }
      destruct H1 as (Hb & Hg & Hl).
      specialize (IH s1).
      destruct IH as [H1 H2 H3|H1 H2 H3|H1 H2 H3|b Hb' H1 H2 H3|g ws H1 Hg' H2 H3 Hs].
      * apply eff_keep; congruence.
      * apply eff_clear; congruence.
      * apply eff_reset; assumption.
      * apply (eff_retempo valid s _ b); congruence.
      * apply (eff_words valid s _ g ws); congruence.
  - (* RemoveClip *)
    apply eff_keep; reflexivity.
  - (* ClearClips *)
    apply eff_keep; reflexivity.
Qed.

End Handlers.

(** ** What every reachable session satisfies *)






Section Preservation.

Variable valid : W.t -> Prop.
Variable P : W.t -> Prop.
Hypothesis P_valid : forall w, valid w -> P w.
Hypothesis P_manual : forall words d q, 0 < q -> Forall P (manualWords words d q).
Hypothesis P_reword : forall g w, P w -> P (reword (toEntry g w)).

Lemma effect_aligned (s s' : State) :
  aligned P s -> effect valid s s' -> aligned P s'.
Proof.
  intros Hal [H1 H2 H3|H1 H2 H3|H1 H2 H3|b Hb H1 H2 H3|g ws H1 Hg H2 H3 Hs].
  - destruct Hal as [(b & ws & Hb & Eb & Eg & HP & El)|(Eb & Eg & El)].
    + left. exists b, ws. repeat split; congruence || assumption.
    + right. repeat split; congruence.
  - destruct Hal as [(b & ws & Hb & Eb & Eg & HP & El)|(Eb & Eg & El)].
    + left. exists b, []. repeat split; try congruence; try assumption.
      constructor.
    + right. repeat split; congruence.
  - right. repeat split; assumption.
  - left.
    destruct Hal as [(b0 & ws & Hb0 & Eb & Eg & HP & El)|(Eb & Eg & El)].
    + exists b, (map reword (map (toEntry (calcGrid b0)) ws)).
      repeat split; try assumption.
      * rewrite !Forall_map. revert HP. apply Forall_impl.
        intros w Hw. apply P_reword, Hw.
      * rewrite H3, El. reflexivity.
    + exists b, []. repeat split; try assumption; [constructor|].
      rewrite H3, El. reflexivity.
  - destruct Hal as [(b & ws0 & Hb & Eb & Eg & HP & El)|(Eb & Eg & El)];
      [|congruence].
    left. exists b, ws.
    assert (Hgb : g = calcGrid b) by congruence. subst g.
    repeat split; try congruence; try assumption.
    destruct Hs as [Hv|(words & d & ->)].
    + revert Hv. apply Forall_impl, P_valid.
    + apply P_manual. apply (calcGrid_pos b Hb).
Qed.

Variable decodeAudioData : string -> string + AudioBuffer.
Variable MusicTempo : list Q -> string + Q.
Variable getMediaDuration : string -> option Q.
Variable basename : string -> string.
Variable python : option string.

Lemma reachable_aligned (s : State) :
  reachable decodeAudioData MusicTempo getMediaDuration basename valid python s ->
  aligned P s.
Proof.
  induction 1 as [|s a Hs IH Ha].
  - right. repeat split.
  - apply (effect_aligned s _ IH).
    apply dispatch_effect, Ha.
Qed.

End Preservation.

Lemma reachable_run
    (decodeAudioData : string -> string + AudioBuffer)
    (MusicTempo : list Q -> string + Q)
    (getMediaDuration : string -> option Q) (basename : string -> string)
    (valid : W.t -> Prop) (python : option string)
    (acts : list action) (s : State) :
  reachable decodeAudioData MusicTempo getMediaDuration basename valid python s ->
  Forall (admissible valid) acts ->
  reachable decodeAudioData MusicTempo getMediaDuration basename valid python
    (run decodeAudioData MusicTempo getMediaDuration basename acts s).
Proof.
  intros Hs Hacts. revert s Hs.
  induction Hacts as [|a acts Ha _ IH]; intros s Hs; cbn [run fold_left].
  - exact Hs.
  - apply IH. apply reach_step; assumption.
Qed.

Lemma demo_run_reachable (d : Q) (r : string + Q) (valid : W.t -> Prop)
    (acts : list action) :
  Forall (admissible valid) acts -> demo_reachable d r valid (demo_run d r acts).
Proof.
  intros H. apply reachable_run; [apply reach_initial | exact H].
Qed.

(** ** Entries made by [processWords] *)

Lemma toEntry_rounded (g : Grid) (w : W.t) : rounded (toEntry g w).
Proof.
  split; cbn [toEntry raw_start snapped_start]; symmetry; apply round4_idempotent.
Qed.


Section Session.

Variable decodeAudioData : string -> string + AudioBuffer.
Variable MusicTempo : list Q -> string + Q.
Variable getMediaDuration : string -> option Q.
Variable basename : string -> string.
Variable python : option string.

Lemma reachable_entries (valid : W.t -> Prop) (s : State) :
  reachable decodeAudioData MusicTempo getMediaDuration basename valid python s ->
  aligned (fun _ => True) s.
Proof.
  apply (reachable_aligned valid (fun _ => True)).
  - trivial.
  - intros words d q _. apply Forall_forall. trivial.
  - trivial.
Qed.


End Session.



(** ** Detection fall-back *)

(** Detection yields nothing exactly when the collaborator throws or its
    tempo is outside [40, 280]. *)
Lemma detected_none (r : string + Q) :
  detected r = None <->
  (exists msg, r = inl msg) \/ (exists v, r = inr v /\ ~ (40 <= v /\ v <= 280)).
Proof.
  unfold detected. destruct r as [msg|v].
  - split; [intros _; left; exists msg; reflexivity | reflexivity].
  - destruct (JS.leb 40 v && JS.leb v 280) eqn:E.
    + apply andb_true_iff in E. destruct E as [Hlo Hhi].
      apply leb_le in Hlo, Hhi.
      split; [discriminate|].
      intros [[msg [=]]|(v' & [= <-] & Hout)]. exfalso. apply Hout. split; assumption.
    + split; [|reflexivity]. intros _. right. exists v. split; [reflexivity|].
      intros [Hlo Hhi]. apply leb_le in Hlo, Hhi. rewrite Hlo, Hhi in E.
      discriminate.
Qed.

(** C7, as the code has it.  When the collaborator throws or answers
    outside [40, 280]: on the file-load path the tempo becomes 120, with its
    grid, and the status bar asks for manual entry; on the re-detect path
    the tempo, the grid and the entries stay as they were and the status
    bar is cleared. *)
Theorem detection_fallback
    (decodeAudioData : string -> string + AudioBuffer)
    (MusicTempo : list Q -> string + Q)
    (s : State) (ab : AudioBuffer)
    (Hfail : (exists msg, MusicTempo (channelData ab) = inl msg) \/
             (exists v, MusicTempo (channelData ab) = inr v /\
                        ~ (40 <= v /\ v <= 280))) :
  (forall c rest,
     decodeAudioData (String c rest) = inr ab ->
     let s' := exec (handleFile decodeAudioData MusicTempo
                       (Some (String c rest))) s in
     bpm s' = Some 120 /\ grid s' = Some (calcGrid 120) /\
     statusText s'
     = Some "BPM detection failed — enter BPM manually"%string) /\
  (audioBuffer s = Some ab ->
     let s' := exec (redetectClick MusicTempo) s in
     bpm s' = bpm s /\ grid s' = grid s /\ lyricsGrid s' = lyricsGrid s /\
     statusText s' = None).
Proof.
  apply detected_none in Hfail.
  split.
  - intros c rest Hdec s'. unfold s', exec.
    rewrite (handleFile_decoded decodeAudioData MusicTempo c rest ab s Hdec).
    unfold load_status. rewrite Hfail. cbn. repeat split.
  - intros Hab s'. unfold s', exec.
    rewrite (redetectClick_run MusicTempo s ab Hab), Hfail.
    cbn. repeat split.
Qed.

Lemma detection_fallback_witness :
  let s' := exec (handleFile (demo_decode 180) (demo_tempo (inr 300))
                    (Some "song.mp3"%string))
                 (initial (Some "python3"%string)) in
  bpm s' = Some 120 /\ grid s' = Some (calcGrid 120) /\
  statusText s' = Some "BPM detection failed — enter BPM manually"%string.
Proof.
  refine (proj1 (detection_fallback (demo_decode 180) (demo_tempo (inr 300))
                   (initial (Some "python3"%string)) (mkAudioBuffer 180 []) _)
                "s"%char "ong.mp3"%string eq_refl).
  right. exists 300. split; [reflexivity|].
  intros [_ H]. vm_compute in H. apply H. reflexivity.
Defined.

(** C7 fails on the re-detect path: the detection throws at load time (tempo
    120, manual entry asked for), the user enters 90 and presses re-detect;
    the detection throws again, and the session keeps tempo 90 with the
    status bar cleared. *)
Lemma redetect_keeps_tempo :
  let s := demo_run 180 (inl "no tempo"%string)
             [OpenFile (Some "song.mp3"%string); EnterBPM (Some 90)] in
  let s' := exec (redetectClick (demo_tempo (inl "no tempo"%string))) s in
  detected (demo_tempo (inl "no tempo"%string) []) = None /\
  audioBuffer s = Some (mkAudioBuffer 180 []) /\
  bpm s' = Some 90 /\ bpm s' <> Some 120 /\
  grid s' = Some (calcGrid 90) /\
  statusText s' = None.
Proof.
  cbv zeta. repeat split; try (vm_compute; reflexivity).
  vm_compute. discriminate.
Qed.

(** ** Worked examples *)

Example grid_at_120 :
  let g := calcGrid 120 in
  eighth_note g == 25 # 100 /\ quarter_note g == 5 # 10 /\
  half_note g == 1 /\ downbeat_whole g == 2.
Proof. repeat split; vm_compute; reflexivity. Qed.

Example tokens_of_padded_text :
  tokens (String (ascii_of_nat 9) "  hello   big" ++ String (ascii_of_nat 10) "world  ")
  = ["hello"; "big"; "world"]%string.
Proof. vm_compute. reflexivity. Qed.

Example tokens_of_blank_text : tokens "   " = [].
Proof. vm_compute. reflexivity. Qed.

(** Ties of [Math.round] go up, also below zero. *)
Example round_ties :
  JS.Math_round (5 # 2) == 3 /\ JS.Math_round (- (5 # 2)) == - (2) /\
  JS.Math_round (- (1 # 2)) == 0.
Proof. repeat split; vm_compute; reflexivity. Qed.

(** [%] keeps the sign of the dividend; [near] folds it back into [0, m). *)
Example rem_sign :
  JS.rem (- (7 # 2)) 2 == - (3 # 2) /\
  JS.rem (JS.rem (- (7 # 2)) 2 + 2) 2 == 1 # 2.
Proof. repeat split; vm_compute; reflexivity. Qed.

(** The tolerance of [near]: 1.99995 s counts as a downbeat at tempo 120,
    1.9998 s does not and is an offbeat. *)
Example classify_tolerance :
  classifyBeat (199995 # 100000) (calcGrid 120) = downbeat /\
  classifyBeat (19998 # 10000) (calcGrid 120) = offbeat.
Proof. split; vm_compute; reflexivity. Qed.

(** 90 s of clips against a 180 s song: half done, 90 s to go. *)
Example footage_half :
  let f := footage (session_with (Some 180) [clip_of 60; clip_of 30]) in
  rawPct f == 50 /\ remaining f == 90 /\ done f = false /\ over f = false.
Proof. repeat split; vm_compute; reflexivity. Qed.

(** Without a song the share is 0 and nothing is counted as done. *)
Example footage_no_song :
  let f := footage (session_with None [clip_of 60]) in
  rawPct f == 0 /\ done f = false /\
  footageRemaining_text (updateFootageTracker (session_with None [clip_of 60]))
  = Dash.
Proof. repeat split; vm_compute; reflexivity. Qed.

(** The stored snapped time is the rounded one: at tempo 90 the eighth
    interval is a third of a second, and a word at 0.3 s is snapped to 1/3
    and stored as 0.3333. *)
Example stored_snap_is_rounded :
  let e := toEntry (calcGrid 90) (W.mk "la" (Some (3 # 10)) None) in
  snapToGrid (3 # 10) (eighth_note (calcGrid 90)) == 1 # 3 /\
  snapped_start e = 3333 # 10000 /\ type e = offbeat.
Proof. repeat split; vm_compute; reflexivity. Qed.

(** A transcription followed by the tempo already in use.  The word at
    0.12496 s is snapped to 0 from the time as transcribed; its raw time is
    stored as 0.1250, and entering 120 again snaps it from there, to 0.25. *)
Example same_tempo_after_transcription :
  let load := [OpenFile (Some "song.mp3"%string);
               Transcribe (TranscribeOk [W.mk "la" (Some (12496 # 100000)) None])] in
  map (fun e => (raw_start e, snapped_start e, type e))
      (lyricsGrid (demo_run 180 (inr 120) load))
  = [(1250 # 10000, 0 # 10000, downbeat)] /\
  map (fun e => (raw_start e, snapped_start e, type e))
      (lyricsGrid (demo_run 180 (inr 120) (load ++ [EnterBPM (Some 120)])))
  = [(1250 # 10000, 2500 # 10000, offbeat)].
Proof. split; vm_compute; reflexivity. Qed.

(** A failed decode leaves the session as it was, but for the status bar. *)
Example decode_failure :
  exec (handleFile (fun _ => inl "bad file"%string) (demo_tempo (inr 120))
          (Some "song.mp3"%string))
       (initial None)
  = set_statusText (Some "Error: bad file"%string) (initial None).
Proof. vm_compute. reflexivity. Qed.

(** A transcription before any file is loaded is ignored, and [buildJSON]
    throws while there is no file. *)
Example nothing_loaded :
  demo_run 180 (inr 120) [Transcribe (TranscribeOk [W.mk "la" (Some 1) None])]
  = initial (Some "python3"%string) /\
  fst (buildJSON demo_basename (initial None)) = inl "TypeError"%string.
Proof. split; vm_compute; reflexivity. Qed.

(** * Further properties of the renderer *)

(** ** Snapping keeps the order *)





(** ** The class of a grid point *)




(** ** Manual distribution *)










(** ** The track, the clips and the interpreter across events *)

(** Closes [frame_eq s s'] when [s'] is [s] under setters of the status. *)
Ltac frame_same :=
  unfold frame_eq, retempo; cbn; repeat split; intros ? ?; eexists;
  (eassumption || reflexivity).

Lemma frame_eq_refl (s : State) : frame_eq s s.
Proof. repeat split. intros b Hb. exists b. exact Hb. Qed.

Lemma frame_eq_retempo (s : State) (b : Q) : frame_eq s (retempo b s).
Proof. repeat split. intros b0 _. exists b. reflexivity. Qed.

Lemma frame_eq_lyrics (s : State) (l : list GridEntry) :
  frame_eq s (set_lyricsGrid l s).
Proof. repeat split. intros b Hb. exists b. exact Hb. Qed.

Lemma frame_eq_trans (s1 s2 s3 : State) :
  frame_eq s1 s2 -> frame_eq s2 s3 -> frame_eq s1 s3.
Proof.
  intros (A1 & A2 & A3 & A4 & A5 & A6) (B1 & B2 & B3 & B4 & B5 & B6).
  repeat split; try congruence.
  intros b Hb. destruct (A6 b Hb) as [b' Hb']. apply (B6 b' Hb').
Qed.

Lemma processWords_cases (ws : list W.t) (s : State) :
  processWords ws s = (inl "TypeError: grid is null"%string, s) /\
    grid s = None /\ ws <> []
  \/ exists l, processWords ws s = (inr tt, set_lyricsGrid l s) /\
               List.length l = List.length ws.
Proof.
  unfold processWords, bind, get.
  destruct ws as [|w ws].
  - right. exists []. split; reflexivity.
  - destruct (grid s) as [g|] eqn:Eg.
    + right. exists (map (toEntry g) (w :: ws)). split; [reflexivity|].
      apply length_map.
    + left. repeat split. discriminate.
Qed.

Lemma frame_eq_processWords (ws : list W.t) (s : State) :
  frame_eq s (exec (processWords ws) s).
Proof.
  unfold exec.
  destruct (processWords_cases ws s) as [(-> & _)|(l & -> & _)]; cbn [snd].
  - apply frame_eq_refl.
  - apply frame_eq_lyrics.
Qed.

Lemma Forall_firstn {A} (P : A -> Prop) (n : nat) (l : list A) :
  Forall P l -> Forall P (firstn n l).
Proof.
  revert l. induction n as [|n IH]; intros l H; [constructor|].
  destruct H; cbn [firstn]; constructor; auto.
Qed.

Lemma Forall_skipn {A} (P : A -> Prop) (n : nat) (l : list A) :
  Forall P l -> Forall P (skipn n l).
Proof.
  revert l. induction n as [|n IH]; intros l H; [exact H|].
  destruct H; cbn [skipn]; [constructor | auto].
Qed.

Section Frames.

Variable decodeAudioData : string -> string + AudioBuffer.
Variable MusicTempo : list Q -> string + Q.
Variable getMediaDuration : string -> option Q.
Variable basename : string -> string.

Lemma frame_eq_session (python : option string) (s s' : State) :
  frame_eq s s' ->
  session_ok decodeAudioData python s -> session_ok decodeAudioData python s'.
Proof.
  intros (F1 & F2 & F3 & F4 & F5 & F6) (Hp & Hl & Hc).
  split; [congruence|]. split; [|rewrite F5; exact Hc].
  destruct Hl as [(L1 & L2 & L3)|(c & rest & ab & b & L1 & L2 & L3 & L4 & L5)].
  - left. repeat split; congruence.
  - right. destruct (F6 b L5) as [b' Hb'].
    exists c, rest, ab, b'. repeat split; congruence.
Qed.

Lemma addClips_clips (fps : list string) (s : State) :
  exists added,
    exec (addClips getMediaDuration basename fps) s = set_clips (clips s ++ added) s /\
    added = map (fun fp => Clip.mk (basename fp) fp (num (getMediaDuration fp)))
                (filter (fun fp => JS.truthy (getMediaDuration fp) &&
                                   JS.ltb 0 (num (getMediaDuration fp))) fps).
Proof.
  eexists. split; [|reflexivity].
  unfold addClips, exec, modify. cbn [snd].
  revert s. induction fps as [|fp fps IH]; intros s; cbn [fold_left filter map].
  - rewrite app_nil_r. destruct s; reflexivity.
  - destruct (JS.truthy (getMediaDuration fp) &&
              JS.ltb 0 (num (getMediaDuration fp))) eqn:E.
    + rewrite IH. cbn [clips set_clips map]. rewrite <- app_assoc. reflexivity.
    + apply IH.
Qed.

Lemma dispatch_session (python : option string) (a : action) (s : State) :
  session_ok decodeAudioData python s ->
  session_ok decodeAudioData python
    (exec (dispatch decodeAudioData MusicTempo getMediaDuration basename a) s).
Proof.
  intros Hs. destruct a as [fp|v| |r|text| |fps|i| ]; cbn [dispatch].
  - (* OpenFile *)
    destruct fp as [[|c rest]|]; try exact Hs.
    destruct (decodeAudioData (String c rest)) as [msg|ab] eqn:Hdec; unfold exec.
    + destruct (handleFile_undecoded decodeAudioData MusicTempo c rest msg s Hdec)
        as [x ->].
      apply (frame_eq_session python s); [frame_same | exact Hs].
    + rewrite (handleFile_decoded decodeAudioData MusicTempo c rest ab s Hdec).
      destruct Hs as (Hp & _ & Hc).
      split; [exact Hp|]. split; [|exact Hc].
      right. exists c, rest, ab. eexists. repeat split. exact Hdec.
  - (* EnterBPM *)
    unfold exec. destruct (applyBPM_cases v s) as [->|(b & _ & _ & ->)]; [exact Hs|].
    apply (frame_eq_session python s); [apply frame_eq_retempo | exact Hs].
  - (* Redetect *)
    unfold exec. destruct (audioBuffer s) as [ab|] eqn:Hab.
    + rewrite (redetectClick_run MusicTempo s ab Hab). cbn [snd].
      apply (frame_eq_session python s); [|exact Hs].
      destruct (detected (MusicTempo (channelData ab))) as [b|]; frame_same.
    + rewrite (redetectClick_idle MusicTempo s Hab). exact Hs.
  - (* Transcribe *)
    apply (frame_eq_session python s); [|exact Hs].
    unfold handleTranscribe, exec, bind, get.
    destruct (filePath s) as [[|c rest]|] eqn:Ef; try apply frame_eq_refl.
    destruct (pythonCmd s) as [[|c' rest']|] eqn:Ep; try apply frame_eq_refl.
    cbn [setStatus modify].
    destruct r as [err|ws]; [frame_same|].
    apply (frame_eq_trans s (set_statusText None
             (set_statusText (Some "Loading Whisper model..."%string) s)));
      [frame_same|].
    apply (frame_eq_processWords ws (set_statusText None
             (set_statusText (Some "Loading Whisper model..."%string) s))).
  - (* ApplyManual *)
    apply (frame_eq_session python s); [|exact Hs].
    unfold manualApplyClick.
    destruct (nonempty (trim text)); [|apply frame_eq_refl].
    unfold distributeManualLyrics, exec, bind, get.
    destruct (grid s) as [g|]; [|apply frame_eq_refl].
    apply frame_eq_processWords.
  - (* ResetApp *)
    destruct Hs as (Hp & _ & _).
    split; [exact Hp|]. split; [left; repeat split | constructor].
  - (* AddClips *)
    destruct (addClips_clips fps s) as (added & -> & Hadded).
    destruct Hs as (Hp & Hl & Hc).
    split; [exact Hp|]. split; [exact Hl|].
    cbn [clips set_clips]. apply Forall_app. split; [exact Hc|].
    rewrite Hadded. apply Forall_map, Forall_forall. intros fp Hfp.
    apply filter_In in Hfp. destruct Hfp as [_ Hok].
    apply andb_true_iff in Hok. destruct Hok as [_ Hpos].
    cbn [Clip.duration]. apply ltb_lt, Hpos.
  - (* RemoveClip *)
    destruct Hs as (Hp & Hl & Hc).
    split; [exact Hp|]. split; [exact Hl|].
    cbn. apply Forall_app. split.
    + apply Forall_firstn, Hc.
    + apply (Forall_skipn _ (S i)), Hc.
  - (* ClearClips *)
    destruct Hs as (Hp & Hl & Hc).
    split; [exact Hp|]. split; [exact Hl|]. constructor.
Qed.

Lemma reachable_session (valid : W.t -> Prop) (python : option string) (s : State) :
  reachable decodeAudioData MusicTempo getMediaDuration basename valid python s ->
  session_ok decodeAudioData python s.
Proof.
  induction 1 as [|s a Hs IH Ha].
  - split; [reflexivity|]. split; [left; repeat split | constructor].
  - apply dispatch_session, IH.
Qed.

End Frames.

(** ** Tempo changes *)

Lemma reword_toEntry (g : Grid) (e : GridEntry) :
  raw_start e = round4 (raw_start e) ->
  reword (toEntry g (reword e)) = reword e.
Proof.
  intros Hr. unfold reword, toEntry, rawOf.
  cbn [W.start W.word JS.nullish raw_start word].
  fold (round4 (raw_start e)). rewrite <- Hr. reflexivity.
Qed.

(** X6. Tempo changes do not accumulate: in every reachable session,
    applying tempo [b1] and then [b2] leaves exactly the entries that
    applying [b2] at once would leave, and a tempo change keeps the number
    of entries, their words, their order and their stored raw times. *)
Theorem applyBPM_last_wins
    (decodeAudioData : string -> string + AudioBuffer)
    (MusicTempo : list Q -> string + Q)
    (getMediaDuration : string -> option Q) (basename : string -> string)
    (valid : W.t -> Prop) (python : option string) (s : State) (b1 b2 : Q)
    (Hs : reachable decodeAudioData MusicTempo getMediaDuration basename
                    valid python s)
    (H1 : 0 < b1) (H2 : 0 < b2) :
  let s1 := exec (applyBPM (Some b1)) s in
  lyricsGrid (exec (applyBPM (Some b2)) s1)
  = lyricsGrid (exec (applyBPM (Some b2)) s) /\
  map word (lyricsGrid s1) = map word (lyricsGrid s) /\
  map raw_start (lyricsGrid s1) = map raw_start (lyricsGrid s).
Proof.
  intros s1.
  assert (Hr : Forall rounded (lyricsGrid s)).
  { pose proof (stored := reachable_entries _ _ _ _ _ valid s Hs).
    destruct stored as [(b0 & ws & _ & _ & _ & _ & ->)|(_ & _ & ->)];
      [|constructor].
    apply Forall_map, Forall_forall. intros w _. apply toEntry_rounded. }
  rewrite Forall_forall in Hr.
  assert (Es1 : s1 = retempo b1 s)
    by (unfold s1, exec; rewrite (applyBPM_accepts b1 s H1); reflexivity).
  unfold exec. rewrite !(applyBPM_accepts b2 _ H2), Es1.
  unfold retempo. cbn [snd lyricsGrid set_lyricsGrid].
  split; [|split].
  - rewrite !map_map. apply map_ext_in. intros e He.
    rewrite (reword_toEntry _ e (proj1 (Hr e He))). reflexivity.
  - rewrite !map_map. reflexivity.
  - rewrite !map_map. apply map_ext_in. intros e He.
    cbn [toEntry raw_start reword rawOf W.start JS.nullish].
    symmetry. exact (proj1 (Hr e He)).
Qed.

Lemma applyBPM_last_wins_witness :
  let s := demo_run 180 (inr 120)
             [OpenFile (Some "song.mp3"%string);
              Transcribe (TranscribeOk
                [W.mk "hello" (Some (12345678 # 10000000)) None;
                 W.mk "world" None (Some (205 # 100))])] in
  lyricsGrid (exec (applyBPM (Some 120)) (exec (applyBPM (Some 90)) s))
  = lyricsGrid (exec (applyBPM (Some 120)) s).
Proof.
  intros s.
  refine (proj1 (applyBPM_last_wins _ _ _ _ (fun _ => True) _ s 90 120
                   (demo_run_reachable 180 (inr 120) (fun _ => True) _ _) _ _)).
  - repeat constructor.
  - reflexivity.
  - reflexivity.
Defined.

(** ** What holds of every reachable session *)

(** X7. The grid is a function of the tempo in every reachable session:
    either no tempo has been applied, and then there is no grid and no
    entry, or the tempo is positive, the grid is [calcGrid] of it, and
    every entry carries the class of its own snapped time on that grid. *)
Theorem grid_follows_tempo
    (decodeAudioData : string -> string + AudioBuffer)
    (MusicTempo : list Q -> string + Q)
    (getMediaDuration : string -> option Q) (basename : string -> string)
    (valid : W.t -> Prop) (python : option string) (s : State)
    (Hs : reachable decodeAudioData MusicTempo getMediaDuration basename
                    valid python s) :
  match bpm s with
  | Some b =>
      0 < b /\ grid s = Some (calcGrid b) /\
      Forall (fun e => exists t,
                raw_start e = round4 t /\
                snapped_start e
                = round4 (snapToGrid t (eighth_note (calcGrid b))) /\
                type e
                = classifyBeat (snapToGrid t (eighth_note (calcGrid b)))
                               (calcGrid b))
             (lyricsGrid s)
  | None => grid s = None /\ lyricsGrid s = []
  end.
Proof.
  pose proof (stored := reachable_entries _ _ _ _ _ valid s Hs).
  destruct stored as [(b & ws & Hb & -> & Hg & _ & ->)|(-> & Hg & Hl)].
  - split; [exact Hb|]. split; [exact Hg|].
    apply Forall_map, Forall_forall. intros w _.
    exists (rawOf w). repeat split.
  - split; assumption.
Qed.

Lemma grid_follows_tempo_witness :
  grid (demo_run 180 (inr 120)
          [OpenFile (Some "song.mp3"%string); EnterBPM (Some 90)])
  = Some (calcGrid 90).
Proof.
  exact (proj1 (proj2
           (grid_follows_tempo _ _ _ _ (fun _ => True) _ _
              (demo_run_reachable 180 (inr 120) (fun _ => True)
                 [OpenFile (Some "song.mp3"%string); EnterBPM (Some 90)]
                 ltac:(repeat constructor))))).
Defined.

(** X8. In every reachable session the path, the decoded buffer and the
    duration are set together or not at all, the duration is the buffer's,
    and a loaded track always has a tempo and its grid; hence [buildJSON]
    returns, without changing the session, whenever a track is loaded, and
    throws when none is. *)
Theorem export_after_load
    (decodeAudioData : string -> string + AudioBuffer)
    (MusicTempo : list Q -> string + Q)
    (getMediaDuration : string -> option Q) (basename : string -> string)
    (valid : W.t -> Prop) (python : option string) (s : State)
    (Hs : reachable decodeAudioData MusicTempo getMediaDuration basename
                    valid python s) :
  match filePath s with
  | Some fp =>
      (exists ab b,
          decodeAudioData fp = inr ab /\ audioBuffer s = Some ab /\
          duration s = Some (buffer_duration ab) /\
          0 < b /\ bpm s = Some b /\ grid s = Some (calcGrid b)) /\
      (exists x, buildJSON basename s = (inr x, s) /\
                 lyrics_grid x = lyricsGrid s /\
                 track (metadata x) = basename fp)
  | None =>
      audioBuffer s = None /\ duration s = None /\
      exists msg, buildJSON basename s = (inl msg, s)
  end.
Proof.
  pose proof (reachable_session _ _ _ _ _ _ _ Hs) as (_ & Hl & _).
  pose proof (grid_ok := reachable_entries _ _ _ _ _ valid s Hs).
  destruct Hl as [(L1 & L2 & L3)|(c & rest & ab & b & L1 & L2 & L3 & L4 & L5)].
  - rewrite L1. split; [exact L2|]. split; [exact L3|].
    exists "TypeError"%string. unfold buildJSON, bind, get. rewrite L1.
    reflexivity.
  - rewrite L1.
    destruct grid_ok as [(b' & ws & Hb & Eb & Eg & _ & _)|(Eb & _ & _)];
      [|congruence].
    split.
    + exists ab, b'. repeat split; assumption.
    + unfold buildJSON, bind, get, ret. rewrite L1, Eg.
      eexists. split; [reflexivity|]. split; reflexivity.
Qed.

Lemma export_after_load_witness :
  exists x,
    buildJSON demo_basename
      (demo_run 180 (inr 120) [OpenFile (Some "song.mp3"%string)])
    = (inr x, demo_run 180 (inr 120) [OpenFile (Some "song.mp3"%string)]) /\
    lyrics_grid x = [] /\ track (metadata x) = "song.mp3"%string.
Proof.
  exact (proj2
           (export_after_load (demo_decode 180) (demo_tempo (inr 120))
              demo_duration demo_basename (fun _ => True) _ _
              (demo_run_reachable 180 (inr 120) (fun _ => True)
                 [OpenFile (Some "song.mp3"%string)]
                 ltac:(repeat constructor)))).
Defined.

(** X9. Reset returns to the start-up state: whatever happened before, the
    session after [resetApp] is the initial one, with the interpreter found
    at start-up still recorded. *)
Theorem resetApp_initial
    (decodeAudioData : string -> string + AudioBuffer)
    (MusicTempo : list Q -> string + Q)
    (getMediaDuration : string -> option Q) (basename : string -> string)
    (valid : W.t -> Prop) (python : option string) (s : State)
    (Hs : reachable decodeAudioData MusicTempo getMediaDuration basename
                    valid python s) :
  exec resetApp s = initial python.
Proof.
  pose proof (reachable_session _ _ _ _ _ _ _ Hs) as (Hp & _ & _).
  unfold exec, resetApp, bind, modify. cbn. rewrite Hp. reflexivity.
Qed.

Lemma resetApp_initial_witness :
  exec resetApp
    (demo_run 180 (inr 120)
       [OpenFile (Some "song.mp3"%string); ApplyManual "la la la";
        AddClips ["a.mp4"; "b.mp4"]%string])
  = initial (Some "python3"%string).
Proof.
  apply (resetApp_initial (demo_decode 180) (demo_tempo (inr 120))
           demo_duration demo_basename (fun _ => True)).
  apply demo_run_reachable. repeat constructor.
Defined.

(** ** Loading a file *)

(** X10. A file that cannot be read or decoded leaves the session as it
    was, a track loaded before included; only the status bar changes, to
    the error's message. *)
Theorem handleFile_failure
    (decodeAudioData : string -> string + AudioBuffer)
    (MusicTempo : list Q -> string + Q)
    (c : ascii) (rest msg : string) (s : State)
    (Hdec : decodeAudioData (String c rest) = inl msg) :
  handleFile decodeAudioData MusicTempo (Some (String c rest)) s
  = (inr tt, set_statusText (Some ("Error: " ++ msg)%string) s).
Proof.
  unfold handleFile, try_catch, bind, loadAudioFile.
  cbn [setStatus modify]. rewrite Hdec. reflexivity.
Qed.

Lemma handleFile_failure_witness :
  handleFile (fun _ => inl "not audio"%string) (demo_tempo (inr 120))
    (Some "notes.txt"%string) (session_at 90 200)
  = (inr tt, set_statusText (Some "Error: not audio"%string) (session_at 90 200)).
Proof.
  exact (handleFile_failure (fun _ => inl "not audio"%string)
           (demo_tempo (inr 120)) "n"%char "otes.txt"%string
           "not audio"%string (session_at 90 200) eq_refl).
Defined.

(** X11. Loading a file replaces the track but not the rest: the clips are
    kept, and the entries of the session are kept too, word for word and
    with their raw times, re-aligned to the new tempo, which is the
    detected one or 120 and so always within [40, 280]. *)
Theorem handleFile_keeps_words
    (decodeAudioData : string -> string + AudioBuffer)
    (MusicTempo : list Q -> string + Q)
    (c : ascii) (rest : string) (ab : AudioBuffer) (s : State)
    (Hdec : decodeAudioData (String c rest) = inr ab) :
  let s' := exec (handleFile decodeAudioData MusicTempo
                    (Some (String c rest))) s in
  filePath s' = Some (String c rest) /\ audioBuffer s' = Some ab /\
  duration s' = Some (buffer_duration ab) /\
  clips s' = clips s /\ pythonCmd s' = pythonCmd s /\
  exists b,
    40 <= b /\ b <= 280 /\ bpm s' = Some b /\ grid s' = Some (calcGrid b) /\
    lyricsGrid s' = map (toEntry (calcGrid b)) (map reword (lyricsGrid s)) /\
    map word (lyricsGrid s') = map word (lyricsGrid s).
Proof.
  intros s'. unfold s', exec.
  rewrite (handleFile_decoded decodeAudioData MusicTempo c rest ab s Hdec).
  cbn [snd]. repeat split.
  set (r := MusicTempo (channelData ab)).
  exists (JS.or_default (detected r) 120).
  destruct (or_default_detected r) as (_ & Hnone & Hsome).
  assert (Hrange : 40 <= JS.or_default (detected r) 120 /\
                   JS.or_default (detected r) 120 <= 280).
  { destruct (detected r) as [b|] eqn:E.
    - rewrite (Hsome b eq_refl). apply (detected_range r b E).
    - rewrite (Hnone eq_refl). split; discriminate. }
  destruct Hrange as [Hlo Hhi].
  split; [exact Hlo|]. split; [exact Hhi|].
  repeat split. unfold retempo. cbn [lyricsGrid set_lyricsGrid set_statusText].
  rewrite !map_map. reflexivity.
Qed.

Lemma handleFile_keeps_words_witness :
  clips (exec (handleFile (demo_decode 200) (demo_tempo (inr 128))
                 (Some "second.mp3"%string))
              (session_with (Some 180) [clip_of 30]))
  = [clip_of 30].
Proof.
  exact (proj1 (proj2 (proj2 (proj2
           (handleFile_keeps_words (demo_decode 200) (demo_tempo (inr 128))
              "s"%char "econd.mp3"%string (mkAudioBuffer 200 [])
              (session_with (Some 180) [clip_of 30]) eq_refl))))).
Defined.

(** ** Transcription *)

(** X12. [handleTranscribe] does nothing without a loaded file or without
    Python.  With both, a failed transcription changes only the status bar
    and keeps the entries; a successful one on a session with a grid
    replaces them by one entry per returned word, in order, none dropped or
    merged, and clears the status bar. *)
Theorem handleTranscribe_cases (s : State) (result : transcription) :
  ((filePath s = None \/ pythonCmd s = None) ->
     handleTranscribe result s = (inr tt, s)) /\
  (forall c rest c' rest',
     filePath s = Some (String c rest) ->
     pythonCmd s = Some (String c' rest') ->
     match result with
     | TranscribeFailed error =>
         handleTranscribe result s
         = (inr tt,
            set_statusText (Some ("Transcription failed: " ++ error)%string) s)
     | TranscribeOk words =>
         forall g, grid s = Some g ->
           handleTranscribe result s
           = (inr tt,
              set_lyricsGrid (map (toEntry g) words) (set_statusText None s)) /\
           map word (lyricsGrid (exec (handleTranscribe result) s))
           = map W.word words
     end).
Proof.
  split.
  - intros [H|H]; unfold handleTranscribe, bind, get; rewrite H.
    + reflexivity.
    + destruct (filePath s) as [[|c rest]|]; reflexivity.
  - intros c rest c' rest' Hf Hp. unfold handleTranscribe, bind, get.
    rewrite Hf, Hp. destruct result as [error|words].
    + reflexivity.
    + intros g Hg. cbn [setStatus modify].
      assert (E : processWords words
                    (set_statusText None
                       (set_statusText (Some "Loading Whisper model..."%string) s))
                  = (inr tt,
                     set_lyricsGrid (map (toEntry g) words) (set_statusText None s))).
      { rewrite (exec_processWords words _ g) by exact Hg. reflexivity. }
      split; [exact E|].
      unfold exec, handleTranscribe, bind, get. rewrite Hf, Hp.
      cbn [setStatus modify]. rewrite E. cbn [snd lyricsGrid set_lyricsGrid].
      rewrite map_map. reflexivity.
Qed.

(** ** Tempo detection *)


(** ** Clips and the footage tracker *)

Lemma clip_sum_nonneg (l : list Clip.t) :
  Forall (fun c => 0 < Clip.duration c) l -> 0 <= clip_sum l.
Proof.
  induction 1 as [|c l Hc _ IH]; [discriminate|].
  change (0 <= Clip.duration c + clip_sum l). lra.
Qed.

Lemma clip_sum_pos (l : list Clip.t) :
  Forall (fun c => 0 < Clip.duration c) l -> l <> [] -> 0 < clip_sum l.
Proof.
  intros H Hne. destruct H as [|c l Hc Hl]; [congruence|].
  change (0 < Clip.duration c + clip_sum l).
  pose proof (clip_sum_nonneg l Hl). lra.
Qed.

Lemma footage_totalClip (s : State) : totalClip (footage s) == clip_sum (clips s).
Proof.
  unfold footage; cbn [totalClip]. rewrite fold_left_clip_sum. ring.
Qed.

(** X14. [addClips] only appends: the clips already there stay in place
    and the new ones follow in the order given, each with the probed
    duration; a file whose duration is [null], [0] or negative is left out.
    Nothing else of the session changes. *)
Theorem addClips_appends
    (getMediaDuration : string -> option Q) (basename : string -> string)
    (filePaths : list string) (s : State) :
  let admitted fp := match getMediaDuration fp with
                     | Some d => JS.ltb 0 d
                     | None => false
                     end in
  addClips getMediaDuration basename filePaths s
  = (inr tt,
     set_clips
       (clips s ++
        map (fun fp => Clip.mk (basename fp) fp (num (getMediaDuration fp)))
            (filter admitted filePaths)) s) /\
  (forall fp, In fp filePaths ->
     (admitted fp = true <-> exists d, getMediaDuration fp = Some d /\ 0 < d)).
Proof.
  intros admitted. split.
  - destruct (addClips_clips getMediaDuration basename filePaths s)
      as (added & Hrun & ->).
    unfold exec in Hrun. unfold addClips, modify in Hrun |- *.
    cbn [snd] in Hrun. rewrite Hrun. do 4 f_equal.
    apply filter_ext. intros fp. unfold admitted.
    destruct (getMediaDuration fp) as [d|]; cbn [JS.truthy num]; [|reflexivity].
    destruct (JS.ltb 0 d) eqn:E; [|apply andb_false_r].
    rewrite andb_true_r. apply ltb_lt in E.
    apply negb_true_iff, not_true_iff_false. intros H.
    apply Qeq_bool_iff in H. lra.
  - intros fp _. unfold admitted.
    destruct (getMediaDuration fp) as [d|].
    + rewrite ltb_lt. split.
      * intros H. exists d. split; [reflexivity | exact H].
      * intros (d' & [= <-] & H). exact H.
    + split; [discriminate | intros (d & [=] & _)].
Qed.

(** X15. In every reachable session every clip has a positive duration;
    so the total is positive as soon as there is a clip, the share of the
    song is never negative, the fill bar stays within 0 and 100 percent and
    the time left is never negative. *)
Theorem clips_positive
    (decodeAudioData : string -> string + AudioBuffer)
    (MusicTempo : list Q -> string + Q)
    (getMediaDuration : string -> option Q) (basename : string -> string)
    (valid : W.t -> Prop) (python : option string) (s : State)
    (Hs : reachable decodeAudioData MusicTempo getMediaDuration basename
                    valid python s) :
  let f := footage s in
  Forall (fun c => 0 < Clip.duration c) (clips s) /\
  (clips s <> [] -> 0 < totalClip f) /\
  0 <= rawPct f /\
  0 <= displayPct f /\ displayPct f <= 100 /\
  0 <= remaining f.
Proof.
  intros f.
  pose proof (reachable_session _ _ _ _ _ _ _ Hs) as (_ & _ & Hc).
  pose proof (footage_totalClip s) as Ht. fold f in Ht.
  pose proof (clip_sum_nonneg _ Hc) as Hnn.
  split; [exact Hc|].
  split; [intros Hne; rewrite Ht; apply clip_sum_pos; assumption|].
  assert (Hraw : 0 <= rawPct f).
  { unfold f, footage; cbn [rawPct].
    destruct (JS.ltb 0 (JS.or_default (duration s) 0)) eqn:E; [|discriminate].
    apply ltb_lt in E. rewrite fold_left_clip_sum.
    apply Qmult_le_0_compat; [|discriminate].
    apply Qle_shift_div_l; [exact E|]. lra. }
  split; [exact Hraw|].
  assert (Hd : displayPct f == Qmin (rawPct f) 100)
    by (unfold f, footage; cbn [displayPct rawPct]; apply Math_min_Qmin).
  assert (Hr : remaining f == Qmax (songDur f - totalClip f) 0)
    by (unfold f, footage; cbn [remaining songDur totalClip]; apply Math_max_Qmax).
  split; [|split].
  - rewrite Hd. apply Q.min_glb; [exact Hraw | discriminate].
  - rewrite Hd. apply Q.le_min_r.
  - rewrite Hr. apply Q.le_max_r.
Qed.

Lemma clips_positive_witness :
  Forall (fun c => 0 < Clip.duration c)
    (clips (demo_run 180 (inr 120)
              [OpenFile (Some "song.mp3"%string);
               AddClips ["a.mp4"; "b.mp4"]%string; RemoveClip 0])).
Proof.
  refine (proj1 (clips_positive (demo_decode 180) (demo_tempo (inr 120))
                   demo_duration demo_basename (fun _ => True) _ _ _)).
  apply demo_run_reachable. repeat constructor.
Defined.

Lemma clip_sum_remove (l : list Clip.t) (i : nat) (c : Clip.t) :
  nth_error l i = Some c ->
  clip_sum (firstn i l ++ skipn (S i) l) + Clip.duration c == clip_sum l.
Proof.
  revert i. induction l as [|x l IH]; intros [|i] H; try discriminate.
  - injection H as ->. cbn [firstn skipn app].
    change (clip_sum l + Clip.duration c == Clip.duration c + clip_sum l). ring.
  - cbn [nth_error] in H. specialize (IH i H).
    change (Clip.duration x + clip_sum (firstn i l ++ skipn (S i) l)
            + Clip.duration c == Clip.duration x + clip_sum l).
    rewrite <- IH. ring.
Qed.

(** X17. Removing the clip at a valid index takes exactly that clip out:
    one clip fewer, the others in their order, and the total shorter by its
    duration.  An index past the end removes nothing. *)
Theorem removeClip_total (s : State) (index : nat) :
  let s' := exec (removeClip index) s in
  (forall c, nth_error (clips s) index = Some c ->
     S (List.length (clips s')) = List.length (clips s) /\
     clip_sum (clips s') + Clip.duration c == clip_sum (clips s) /\
     (forall j, (j < index)%nat ->
        nth_error (clips s') j = nth_error (clips s) j) /\
     (forall j, (index <= j)%nat ->
        nth_error (clips s') j = nth_error (clips s) (S j))) /\
  (nth_error (clips s) index = None -> clips s' = clips s).
Proof.
  intros s'. unfold s', exec, removeClip, modify. cbn [snd clips set_clips].
  split.
  - intros c Hc.
    assert (Hlt : (index < List.length (clips s))%nat)
      by (apply nth_error_Some; congruence).
    split; [|split; [|split]].
    + rewrite length_app, length_firstn, length_skipn. lia.
    + apply clip_sum_remove, Hc.
    + intros j Hj. rewrite nth_error_app1 by (rewrite length_firstn; lia).
      rewrite nth_error_firstn.
      destruct (Nat.ltb_spec j index); [reflexivity | lia].
    + intros j Hj. rewrite nth_error_app2 by (rewrite length_firstn; lia).
      rewrite length_firstn, nth_error_skipn.
      f_equal. lia.
  - intros Hnone. apply nth_error_None in Hnone.
    rewrite firstn_all2 by exact Hnone.
    rewrite skipn_all2 by lia. apply app_nil_r.
Qed.

(** ** Minutes and seconds *)

(** X18. For a time that is not negative, [fmtSec] shows whole minutes and
    whole seconds from 0 to 59 that together are the time rounded down to
    a second. *)
Theorem fmtSec_floor (sec : Q) (Hsec : 0 <= sec) :
  exists m r : Z,
    fmtSec sec = (inject_Z m, inject_Z r) /\
    (0 <= m)%Z /\ (0 <= r <= 59)%Z /\
    (60 * m + r)%Z = Qfloor sec.
Proof.
  unfold fmtSec, JS.Math_floor.
  assert (H60 : (0 : Q) < 60) by reflexivity.
  destruct (floor_div_bounds sec 60 H60) as [Mlo Mhi].
  set (m := Qfloor (sec / 60)) in *.
  assert (Hrem : JS.rem sec 60 == sec - 60 * inject_Z m)
    by (apply rem_nonneg; assumption).
  destruct (floor_bounds (JS.rem sec 60)) as [Rlo Rhi].
  set (r := Qfloor (JS.rem sec 60)) in *.
  exists m, r. split; [reflexivity|].
  assert (Hm : (0 <= m)%Z).
  { assert (H : inject_Z (-1) < inject_Z m).
    { change (inject_Z (-1)) with (-1). lra. }
    rewrite <- Zlt_Qlt in H. lia. }
  assert (Hr : (0 <= r <= 59)%Z).
  { assert (H1 : inject_Z (-1) < inject_Z r).
    { change (inject_Z (-1)) with (-1). lra. }
    assert (H2 : inject_Z r < inject_Z 60).
    { change (inject_Z 60) with 60. lra. }
    rewrite <- Zlt_Qlt in H1, H2. lia. }
  split; [exact Hm|]. split; [exact Hr|].
  symmetry. apply floor_unique.
  - rewrite inject_Z_plus, inject_Z_mult. change (inject_Z 60) with 60. lra.
  - rewrite inject_Z_plus, inject_Z_mult. change (inject_Z 60) with 60. lra.
Qed.

Lemma fmtSec_floor_witness :
  exists m r : Z,
    fmtSec (1255 # 10) = (inject_Z m, inject_Z r) /\
    (0 <= m)%Z /\ (0 <= r <= 59)%Z /\ (60 * m + r)%Z = Qfloor (1255 # 10).
Proof.
  apply fmtSec_floor. vm_compute. discriminate.
Defined.

(** ** Numbers that are not falsy *)


(** ** Waveform *)




Lemma Math_max_1_inject (z : Z) : JS.Math_max 1 (inject_Z z) = inject_Z (Z.max 1 z).
Proof.
  unfold JS.Math_max.
  destruct (Qle_bool 1 (inject_Z z)) eqn:E.
  - apply Qle_bool_iff in E. change 1 with (inject_Z 1) in E.
    rewrite <- Zle_Qle in E. rewrite Z.max_r by exact E. reflexivity.
  - assert (H : (z < 1)%Z).
    { apply Z.lt_nge. intros H. rewrite Zle_Qle in H.
      apply Qle_bool_iff in H. change (inject_Z 1) with 1 in H. congruence. }
    rewrite Z.max_l by lia. reflexivity.
Qed.












(** ** Exports *)

(** Below 10^21 [toFixed] prints a numeral, the nearest one with [f]
    fraction digits. *)
Lemma toFixed_small (f : positive) (x : Q) :
  Qabs x < inject_Z (10 ^ 21) ->
  exists n : Z,
    JS.toFixed f x = JS.Fixed f n /\
    inject_Z n - (1 # 2) <= x * inject_Z (Zpos (JS.pow10 f))
                         <= inject_Z n + (1 # 2).
Proof.
  intros Hx. unfold JS.toFixed.
  apply ltb_lt in Hx. unfold JS.ltb in Hx at 1. apply negb_true_iff in Hx.
  rewrite Hx. set (P := inject_Z (Zpos (JS.pow10 f))).
  destruct (JS.ltb x 0) eqn:Es.
  - exists (- Qfloor (- x * P + (1 # 2)))%Z. split; [reflexivity|].
    destruct (floor_bounds (- x * P + (1 # 2))) as [Flo Fhi].
    rewrite inject_Z_opp. split; lra.
  - exists (Qfloor (x * P + (1 # 2))). split; [reflexivity|].
    destruct (floor_bounds (x * P + (1 # 2))) as [Flo Fhi].
    split; lra.
Qed.

Lemma toFixed_nonneg (f : positive) (x : Q) :
  0 <= x -> x < inject_Z (10 ^ 21) ->
  JS.toFixed f x
  = JS.Fixed f (Qfloor (x * inject_Z (Zpos (JS.pow10 f)) + (1 # 2))).
Proof.
  intros H0 Hx. unfold JS.toFixed.
  assert (Ea : Qabs x == x) by (apply Qabs_pos, H0).
  assert (E1 : Qle_bool (inject_Z (10 ^ 21)) (Qabs x) = false).
  { destruct (Qle_bool (inject_Z (10 ^ 21)) (Qabs x)) eqn:E; [|reflexivity].
    apply Qle_bool_iff in E. lra. }
  assert (E2 : JS.ltb x 0 = false) by (apply ltb_ge, H0).
  rewrite E1, E2. reflexivity.
Qed.

Lemma Qmake_mul (n : Z) (p : positive) : (n # p) * inject_Z (Zpos p) == inject_Z n.
Proof.
  rewrite (Qmake_Qdiv n p). field.
  intros H. unfold Qeq in H. cbn in H. lia.
Qed.





(** X28. [buildLRC] writes one line per stored word, in order, with the
    word as stored.  For a time that is not negative the line shows whole
    minutes and the seconds to two decimals, from 0.00 up to 60.00, and the
    time shown is within 0.005 of the snapped start. *)
Theorem buildLRC_line (s : State) (i : nat) (e : GridEntry)
    (He : nth_error (lyricsGrid s) i = Some e)
    (Ht : 0 <= snapped_start e) :
  List.length (buildLRC s) = List.length (lyricsGrid s) /\
  exists m n : Z,
    nth_error (buildLRC s) i
    = Some (mkLrcLine (inject_Z m) (JS.Fixed 2 n) (word e)) /\
    (0 <= m)%Z /\ (0 <= n <= 6000)%Z /\
    Qabs (inject_Z (60 * m) + (n # 100) - snapped_start e) <= 1 # 200.
Proof.
  unfold buildLRC. split; [apply length_map|].
  rewrite nth_error_map, He. cbn [option_map].
  set (t := snapped_start e) in *.
  assert (H60 : (0 : Q) < 60) by reflexivity.
  destruct (floor_div_bounds t 60 H60) as [Flo Fhi].
  pose proof (rem_nonneg t 60 H60 Ht) as Er.
  set (m := Qfloor (t / 60)) in *.
  set (r := JS.rem t 60) in *.
  assert (Hm : (0 <= m)%Z).
  { assert (H : (Qfloor 0 <= m)%Z).
    { apply Qfloor_resp_le. apply div_ge; [exact H60 | lra]. }
    exact H. }
  assert (Hr0 : 0 <= r) by lra.
  assert (Hr1 : r < 60) by lra.
  assert (Hbig : r < inject_Z (10 ^ 21)).
  { apply Qlt_trans with 60; [exact Hr1 | reflexivity]. }
  exists m, (Qfloor (r * inject_Z (Zpos (JS.pow10 2)) + (1 # 2))).
  split.
  { unfold JS.Math_floor. fold m. rewrite (toFixed_nonneg 2 r Hr0 Hbig).
    reflexivity. }
  split; [exact Hm|].
  change (inject_Z (Zpos (JS.pow10 2))) with 100.
  destruct (floor_bounds (r * 100 + (1 # 2))) as [Nlo Nhi].
  set (n := Qfloor (r * 100 + (1 # 2))) in *.
  split.
  - split.
    + apply round_nonneg. lra.
    + assert (H : (n < 6001)%Z); [|lia].
      rewrite Zlt_Qlt. change (inject_Z 6001) with 6001. lra.
  - pose proof (Qmake_mul n 100) as E.
    change (inject_Z (Zpos 100)) with 100 in E.
    rewrite inject_Z_mult. change (inject_Z 60) with 60.
    apply Qabs_Qle_condition. split; lra.
Qed.

Lemma buildLRC_line_witness :
  List.length (buildLRC (exec (distributeManualLyrics "la la la") (session_at 120 10)))
  = List.length (lyricsGrid (exec (distributeManualLyrics "la la la") (session_at 120 10))) /\
  exists m n : Z,
    nth_error (buildLRC (exec (distributeManualLyrics "la la la") (session_at 120 10))) 1
    = Some (mkLrcLine (inject_Z m) (JS.Fixed 2 n) "la") /\
    (0 <= m)%Z /\ (0 <= n <= 6000)%Z /\
    Qabs (inject_Z (60 * m) + (n # 100) - (30000 # 10000)) <= 1 # 200.
Proof.
  apply (buildLRC_line
           (exec (distributeManualLyrics "la la la") (session_at 120 10)) 1
           (mkEntry "la" (30000 # 10000) (30000 # 10000) half)).
  - vm_compute. reflexivity.
  - vm_compute. discriminate.
Defined.

(** The seconds of an LRC line are rounded after the minutes are taken
    off: 59.9963 s is written [00:60.00]. *)
Example lrc_seconds_can_read_sixty :
  buildLRC (mkState (Some "song.mp3"%string) None (Some 100) (Some 90)
                    (Some (calcGrid 100))
                    [mkEntry "la" (599963 # 10000) (599963 # 10000) offbeat]
                    None [] None)
  = [mkLrcLine 0 (JS.Fixed 2 6000) "la"].
Proof. vm_compute. reflexivity. Qed.

(** * Properties of the engine on binary64 numbers *)

Import Binary64.

Local Open Scope Q_scope.

(** ** Powers of two *)

Lemma pow2_pos (e : Z) : 0 < pow2 e.
Proof. apply Qpower_0_lt. reflexivity. Qed.

Lemma pow2_add (a b : Z) : pow2 (a + b) == pow2 a * pow2 b.
Proof. apply Qpower_plus. discriminate. Qed.

Lemma pow2_le (a b : Z) : (a <= b)%Z -> pow2 a <= pow2 b.
Proof. intros H. apply Qpower_le_compat_l; [exact H | discriminate]. Qed.

Lemma pow2_lt (a b : Z) : (a < b)%Z -> pow2 a < pow2 b.
Proof. intros H. apply Qpower_lt_compat_l; [exact H | reflexivity]. Qed.

Lemma pow2_lt_inv (a b : Z) : pow2 a < pow2 b -> (a < b)%Z.
Proof. intros H. apply (Qpower_lt_compat_l_inv 2); [exact H | reflexivity]. Qed.

Lemma pow2_S (a : Z) : pow2 (a + 1) == 2 * pow2 a.
Proof. rewrite pow2_add. change (pow2 1) with 2. ring. Qed.

Lemma pow2_sub (a b : Z) : pow2 (a - b) == pow2 a / pow2 b.
Proof.
  assert (E : pow2 a == pow2 (a - b) * pow2 b).
  { rewrite <- pow2_add. replace (a - b + b)%Z with a by ring. reflexivity. }
  rewrite E. field. pose proof (pow2_pos b). lra.
Qed.

Lemma pow2_nonneg_Z (a : Z) : (0 <= a)%Z -> pow2 a == inject_Z (2 ^ a).
Proof. intros H. unfold pow2. rewrite Zpower_Qpower by exact H. reflexivity. Qed.

(** ** The binade of a number *)

Lemma Zlog2_Q (n : Z) :
  (0 < n)%Z -> pow2 (Z.log2 n) <= inject_Z n /\ inject_Z n < pow2 (Z.log2 n + 1).
Proof.
  intros Hn. destruct (Z.log2_spec n Hn) as [Hlo Hhi].
  pose proof (Z.log2_nonneg n) as H0.
  rewrite !pow2_nonneg_Z by lia.
  rewrite <- Zle_Qle, <- Zlt_Qlt. replace (Z.log2 n + 1)%Z with (Z.succ (Z.log2 n)) by lia.
  split; assumption.
Qed.

Lemma Qabs_num_den (x : Q) :
  Qabs x == inject_Z (Z.abs (Qnum x)) / inject_Z (Zpos (Qden x)).
Proof.
  destruct x as [n d]. unfold Qabs. cbn [Qnum Qden].
  rewrite (Qmake_Qdiv (Z.abs n) d). reflexivity.
Qed.

Lemma ilog2_spec (x : Q) :
  ~ x == 0 -> pow2 (ilog2 x) <= Qabs x /\ Qabs x < pow2 (ilog2 x + 1).
Proof.
  intros Hx.
  assert (Hn : (0 < Z.abs (Qnum x))%Z).
  { destruct x as [n d]. unfold Qeq in Hx. cbn in *. lia. }
  destruct (Zlog2_Q _ Hn) as [Nlo Nhi].
  destruct (Zlog2_Q (Zpos (Qden x)) ltac:(lia)) as [Dlo Dhi].
  pose proof (Qabs_num_den x) as E.
  set (a := Z.log2 (Z.abs (Qnum x))) in *.
  set (c := Z.log2 (Zpos (Qden x))) in *.
  set (N := inject_Z (Z.abs (Qnum x))) in *.
  set (D := inject_Z (Zpos (Qden x))) in *.
  assert (HD : 0 < D).
  { unfold D. change 0 with (inject_Z 0). rewrite <- Zlt_Qlt. lia. }
  pose proof (pow2_pos a) as Pa. pose proof (pow2_pos c) as Pc.
  pose proof (pow2_pos (a - c)) as Pac.
  assert (Eac : pow2 a == pow2 (a - c) * pow2 c).
  { rewrite <- pow2_add. replace (a - c + c)%Z with a by ring. reflexivity. }
  assert (EN : N == Qabs x * D) by (rewrite E; field; lra).
  unfold ilog2. fold a c.
  destruct (Qle_bool (pow2 (a - c)) (Qabs x)) eqn:B.
  - apply Qle_bool_iff in B. split; [exact B|].
    (* |x| * D = N < 2 * pow2 a = 2 * pow2 (a-c) * pow2 c <= 2 * pow2 (a-c) * D *)
    rewrite pow2_S.
    rewrite pow2_S in Nhi.
    assert (H1 : Qabs x * D < 2 * pow2 (a - c) * D).
    { apply Qlt_le_trans with (2 * pow2 a); [lra|].
      rewrite Eac.
      assert (H : pow2 (a - c) * pow2 c <= pow2 (a - c) * D)
        by (apply Qmult_le_l; lra).
      lra. }
    apply Qmult_lt_r in H1; lra.
  - assert (B' : Qabs x < pow2 (a - c)).
    { apply Qnot_le_lt. intros H. apply Qle_bool_iff in H. congruence. }
    replace (a - c - 1 + 1)%Z with (a - c)%Z by ring.
    split; [|exact B'].
    assert (E1 : pow2 (a - c) == 2 * pow2 (a - c - 1)).
    { rewrite <- pow2_S. replace (a - c - 1 + 1)%Z with (a - c)%Z by ring. reflexivity. }
    pose proof (pow2_pos (a - c - 1)) as P1.
    rewrite pow2_S in Dhi.
    (* pow2 (a-c-1) * D < pow2 (a-c-1) * 2 * pow2 c = pow2 a <= N = |x| * D *)
    assert (H1 : pow2 (a - c - 1) * D <= Qabs x * D).
    { apply Qle_trans with (pow2 a); [|lra].
      rewrite Eac, E1.
      assert (H : pow2 (a - c - 1) * D <= pow2 (a - c - 1) * (2 * pow2 c))
        by (apply Qmult_le_l; lra).
      lra. }
    apply Qmult_le_r in H1; lra.
Qed.

Lemma ilog2_unique (x : Q) (e : Z) :
  pow2 e <= Qabs x -> Qabs x < pow2 (e + 1) -> ilog2 x = e.
Proof.
  intros Hlo Hhi.
  assert (Hx : ~ x == 0).
  { intros E. rewrite E in Hlo. pose proof (pow2_pos e).
    change (Qabs 0) with 0 in Hlo. lra. }
  destruct (ilog2_spec x Hx) as [Slo Shi].
  assert (H1 : (ilog2 x < e + 1)%Z).
  { apply pow2_lt_inv. lra. }
  assert (H2 : (e < ilog2 x + 1)%Z).
  { apply pow2_lt_inv. lra. }
  lia.
Qed.


Lemma ilog2_Qeq (x y : Q) : ~ x == 0 -> x == y -> ilog2 x = ilog2 y.
Proof.
  intros Hx E. symmetry.
  destruct (ilog2_spec x Hx) as [Slo Shi].
  apply ilog2_unique; rewrite <- E; assumption.
Qed.

(** ** Rounding to the nearest integer, ties to even *)

Lemma rne_cases (y : Q) :
  (rne y = Qfloor y /\ y - inject_Z (Qfloor y) <= 1 # 2) \/
  (rne y = (Qfloor y + 1)%Z /\ 1 # 2 <= y - inject_Z (Qfloor y)).
Proof.
  unfold rne.
  destruct (Qcompare_spec (y - inject_Z (Qfloor y)) (1 # 2)) as [E|L|G].
  - destruct (Z.even (Qfloor y)); [left | right]; (split; [reflexivity | lra]).
  - left. split; [reflexivity | lra].
  - right. split; [reflexivity | lra].
Qed.

Lemma floor_range (y : Q) :
  inject_Z (Qfloor y) <= y /\ y < inject_Z (Qfloor y) + 1.
Proof.
  split; [apply Qfloor_le|].
  pose proof (Qlt_floor y) as H. rewrite inject_Z_plus in H. exact H.
Qed.

Lemma rne_error (y : Q) : Qabs (inject_Z (rne y) - y) <= 1 # 2.
Proof.
  destruct (floor_range y) as [Flo Fhi].
  apply Qabs_Qle_condition.
  destruct (rne_cases y) as [[-> H]|[-> H]].
  - split; lra.
  - rewrite inject_Z_plus. change (inject_Z 1) with 1. split; lra.
Qed.

Lemma rne_nearest (y : Q) (j : Z) :
  Qabs (inject_Z (rne y) - y) <= Qabs (inject_Z j - y).
Proof.
  destruct (floor_range y) as [Flo Fhi].
  set (f := Qfloor y) in *.
  assert (Hj : inject_Z j <= inject_Z f \/ inject_Z f + 1 <= inject_Z j).
  { destruct (Z_le_gt_dec j f) as [H|H].
    - left. rewrite <- Zle_Qle. exact H.
    - right. change 1 with (inject_Z 1). rewrite <- inject_Z_plus, <- Zle_Qle. lia. }
  destruct (rne_cases y) as [[-> H]|[-> H]]; fold f in H |- *;
    try (rewrite inject_Z_plus; change (inject_Z 1) with 1).
  - rewrite (Qabs_neg (inject_Z f - y)) by lra.
    destruct Hj as [Hj|Hj].
    + rewrite (Qabs_neg (inject_Z j - y)) by lra. lra.
    + rewrite (Qabs_pos (inject_Z j - y)) by lra. lra.
  - rewrite (Qabs_pos (inject_Z f + 1 - y)) by lra.
    destruct Hj as [Hj|Hj].
    + rewrite (Qabs_neg (inject_Z j - y)) by lra. lra.
    + rewrite (Qabs_pos (inject_Z j - y)) by lra. lra.
Qed.

Lemma rne_Qeq (x y : Q) : x == y -> rne x = rne y.
Proof.
  intros E. unfold rne.
  assert (F : Qfloor x = Qfloor y) by (rewrite E; reflexivity).
  rewrite F.
  assert (C : (x - inject_Z (Qfloor y) ?= 1 # 2) = (y - inject_Z (Qfloor y) ?= 1 # 2)).
  { rewrite E. reflexivity. }
  rewrite C. reflexivity.
Qed.

Lemma rne_Z (z : Z) : rne (inject_Z z) = z.
Proof.
  unfold rne. rewrite Qfloor_Z.
  assert (C : (inject_Z z - inject_Z z ?= 1 # 2) = Lt).
  { rewrite <- Qlt_alt. lra. }
  rewrite C. reflexivity.
Qed.

Lemma rne_integer (y : Q) (z : Z) : y == inject_Z z -> rne y = z.
Proof. intros E. rewrite (rne_Qeq _ _ E). apply rne_Z. Qed.

Lemma rne_monotone (x y : Q) : x <= y -> (rne x <= rne y)%Z.
Proof.
  intros H.
  pose proof (Qfloor_resp_le x y H) as HF.
  destruct (floor_range x) as [Xlo Xhi]. destruct (floor_range y) as [Ylo Yhi].
  destruct (Z.eq_dec (Qfloor x) (Qfloor y)) as [E|N].
  - unfold rne. rewrite E.
    destruct (Qcompare_spec (x - inject_Z (Qfloor y)) (1 # 2)) as [E1|L1|G1];
      destruct (Qcompare_spec (y - inject_Z (Qfloor y)) (1 # 2)) as [E2|L2|G2];
      try destruct (Z.even (Qfloor y)); try lia; lra.
  - assert (HF' : (Qfloor x + 1 <= Qfloor y)%Z) by lia.
    destruct (rne_cases x) as [[-> _]|[-> _]];
      destruct (rne_cases y) as [[-> _]|[-> _]]; lia.
Qed.

Lemma rne_opp (y : Q) : rne (- y) = (- rne y)%Z.
Proof.
  destruct (floor_range y) as [Ylo Yhi].
  destruct (Qeq_dec y (inject_Z (Qfloor y))) as [E|N].
  - rewrite (rne_integer y _ E).
    apply rne_integer. rewrite inject_Z_opp, <- E. reflexivity.
  - assert (F : Qfloor (- y) = (- Qfloor y - 1)%Z).
    { symmetry. apply Z.le_antisymm.
      - assert (H : (Qfloor (inject_Z (- Qfloor y - 1)) <= Qfloor (- y))%Z).
        { apply Qfloor_resp_le. unfold Z.sub. rewrite inject_Z_plus, inject_Z_opp.
          change (inject_Z (- (1))) with (-1). lra. }
        rewrite Qfloor_Z in H. exact H.
      - assert (H : (Qfloor (- y) < - Qfloor y)%Z); [|lia].
        rewrite Zlt_Qlt, inject_Z_opp.
        pose proof (Qfloor_le (- y)) as H1.
        assert (y < inject_Z (Qfloor y) \/ inject_Z (Qfloor y) < y) as [H2|H2].
        { destruct (Q_dec y (inject_Z (Qfloor y))) as [[H2|H2]|H2]; try tauto. }
        + lra.
        + lra. }
    unfold rne. rewrite F.
    assert (Ef : inject_Z (- Qfloor y - 1) == - inject_Z (Qfloor y) - 1).
    { unfold Z.sub. rewrite inject_Z_plus, inject_Z_opp. reflexivity. }
    assert (Ev : Z.even (- Qfloor y - 1) = negb (Z.even (Qfloor y))).
    { rewrite Z.even_sub, Z.even_opp. cbn. destruct (Z.even (Qfloor y)); reflexivity. }
    destruct (Qcompare_spec (y - inject_Z (Qfloor y)) (1 # 2)) as [E1|L1|G1];
      destruct (Qcompare_spec (- y - inject_Z (- Qfloor y - 1)) (1 # 2)) as [E2|L2|G2];
      rewrite ?Ev; try destruct (Z.even (Qfloor y)); cbn [negb]; try lia;
      rewrite Ef in *; lra.
Qed.

(** ** Rounding to binary64 *)


Lemma fl_eq (x : Q) :
  fl x == inject_Z (rne (x / pow2 (fexp x))) * pow2 (fexp x).
Proof. unfold fl. apply Qred_correct. Qed.

Lemma fl_zero (x : Q) : x == 0 -> fl x = 0.
Proof.
  intros E. unfold fl.
  assert (H : inject_Z (rne (x / pow2 (fexp x))) * pow2 (fexp x) == 0).
  { pose proof (pow2_pos (fexp x)) as P. set (p := pow2 (fexp x)) in *.
    rewrite (rne_integer _ 0%Z).
    - ring.
    - rewrite E. field. lra. }
  rewrite (Qred_complete _ _ H). reflexivity.
Qed.

Lemma fexp_Qeq (x y : Q) : ~ x == 0 -> x == y -> fexp x = fexp y.
Proof. intros Hx E. unfold fexp. rewrite (ilog2_Qeq x y Hx E). reflexivity. Qed.

Lemma fl_Qeq (x y : Q) : x == y -> fl x = fl y.
Proof.
  intros E. destruct (Qeq_dec x 0) as [Hx|Hx].
  - rewrite (fl_zero x Hx). symmetry. apply fl_zero. rewrite <- E. exact Hx.
  - unfold fl. apply Qred_complete.
    rewrite (fexp_Qeq x y Hx E).
    assert (R : rne (x / pow2 (fexp y)) = rne (y / pow2 (fexp y))).
    { apply rne_Qeq. rewrite E. reflexivity. }
    rewrite R. reflexivity.
Qed.

Lemma fl_error_ulp (x : Q) : Qabs (fl x - x) <= (1 # 2) * pow2 (fexp x).
Proof.
  rewrite fl_eq. pose proof (pow2_pos (fexp x)) as P.
  set (p := pow2 (fexp x)) in *.
  pose proof (rne_error (x / p)) as H.
  assert (E : inject_Z (rne (x / p)) * p - x == (inject_Z (rne (x / p)) - x / p) * p)
    by (field; lra).
  rewrite E, Qabs_Qmult, (Qabs_pos p) by lra.
  apply Qmult_le_compat_r; lra.
Qed.

Lemma fexp_normal (x : Q) :
  pow2 (-1022) <= Qabs x -> fexp x = (ilog2 x - 52)%Z.
Proof.
  intros H.
  assert (Hx : ~ x == 0).
  { intros E. rewrite E in H. change (Qabs 0) with 0 in H.
    pose proof (pow2_pos (-1022)). lra. }
  destruct (ilog2_spec x Hx) as [_ Shi].
  assert (L : (-1022 < ilog2 x + 1)%Z) by (apply pow2_lt_inv; lra).
  unfold fexp, emin. lia.
Qed.

(** Half a unit in the last place is at most [2^-53] of a normal number. *)
Lemma fl_error_rel (x : Q) :
  pow2 (-1022) <= Qabs x -> Qabs (fl x - x) <= u * Qabs x.
Proof.
  intros H.
  assert (Hx : ~ x == 0).
  { intros E. rewrite E in H. change (Qabs 0) with 0 in H.
    pose proof (pow2_pos (-1022)). lra. }
  destruct (ilog2_spec x Hx) as [Slo _].
  pose proof (fl_error_ulp x) as Hu. rewrite (fexp_normal x H) in Hu.
  assert (E : (1 # 2) * pow2 (ilog2 x - 52) == u * pow2 (ilog2 x)).
  { unfold u. rewrite <- pow2_add.
    replace (-53 + ilog2 x)%Z with ((ilog2 x - 52) + -1)%Z by ring.
    rewrite pow2_add. change (pow2 (-1)) with (1 # 2). ring. }
  rewrite E in Hu.
  apply Qle_trans with (1 := Hu).
  apply Qmult_le_l; [reflexivity | exact Slo].
Qed.

Lemma fl_error (x : Q) : Qabs (fl x - x) <= u * Qabs x + eta.
Proof.
  assert (U : 0 <= u * Qabs x).
  { apply Qmult_le_0_compat; [discriminate | apply Qabs_nonneg]. }
  assert (Eta : 0 <= eta) by discriminate.
  destruct (Qeq_dec x 0) as [Hx|Hx].
  { rewrite (fl_zero x Hx).
    assert (E : 0 - x == 0) by (rewrite Hx; reflexivity).
    rewrite E. change (Qabs 0) with 0. lra. }
  destruct (Qlt_le_dec (Qabs x) (pow2 (-1022))) as [S|N].
  - pose proof (fl_error_ulp x) as Hu.
    assert (F : fexp x = emin).
    { destruct (ilog2_spec x Hx) as [Slo _].
      assert (L : (ilog2 x < -1022)%Z) by (apply pow2_lt_inv; lra).
      unfold fexp, emin. lia. }
    rewrite F in Hu.
    assert (E : (1 # 2) * pow2 emin == eta) by reflexivity.
    rewrite E in Hu. lra.
  - pose proof (fl_error_rel x N). lra.
Qed.

Lemma fl_nonneg (x : Q) : 0 <= x -> 0 <= fl x.
Proof.
  intros H. rewrite fl_eq. pose proof (pow2_pos (fexp x)) as P.
  apply Qmult_le_0_compat; [|lra].
  change 0 with (inject_Z 0). rewrite <- Zle_Qle.
  rewrite <- (rne_Z 0). apply rne_monotone.
  change (inject_Z 0) with 0.
  apply Qle_shift_div_l; lra.
Qed.

Lemma ilog2_opp (x : Q) : ilog2 (- x) = ilog2 x.
Proof.
  destruct x as [n d]. unfold ilog2, Qopp, Qabs. cbn [Qnum Qden].
  rewrite !Z.abs_opp. reflexivity.
Qed.

Lemma fl_opp (x : Q) : fl (- x) == - fl x.
Proof.
  rewrite !fl_eq. unfold fexp. rewrite ilog2_opp.
  set (p := pow2 (Z.max (ilog2 x - 52) emin)).
  assert (P : 0 < p) by apply pow2_pos.
  assert (E : - x / p == - (x / p)) by (field; lra).
  rewrite (rne_Qeq _ _ E), rne_opp, inject_Z_opp. ring.
Qed.

(** ** The numbers of the format *)


Lemma Qabs_inject_Z (m : Z) : Qabs (inject_Z m) == inject_Z (Z.abs m).
Proof. reflexivity. Qed.

Lemma format_fexp (x : Q) (m e : Z) :
  (Z.abs m < 2 ^ 53)%Z -> (emin <= e)%Z -> x == inject_Z m * pow2 e ->
  ~ x == 0 -> (fexp x <= e)%Z.
Proof.
  intros Hm He E Hx.
  destruct (ilog2_spec x Hx) as [Slo _].
  assert (A : Qabs x < pow2 (53 + e)).
  { rewrite E, Qabs_Qmult, (Qabs_pos (pow2 e)) by (pose proof (pow2_pos e); lra).
    rewrite pow2_add, Qabs_inject_Z.
    apply Qmult_lt_r; [apply pow2_pos|].
    rewrite pow2_nonneg_Z by lia. rewrite <- Zlt_Qlt. exact Hm. }
  assert (L : (ilog2 x < 53 + e)%Z) by (apply pow2_lt_inv; lra).
  unfold fexp. lia.
Qed.

Lemma fl_multiple (x : Q) (m e : Z) :
  x == inject_Z m * pow2 e -> (fexp x <= e)%Z -> fl x == x.
Proof.
  intros E Hf. rewrite fl_eq.
  pose proof (pow2_pos (fexp x)) as P. set (f := fexp x) in *.
  assert (D : x / pow2 f == inject_Z (m * 2 ^ (e - f))).
  { rewrite inject_Z_mult, <- pow2_nonneg_Z by lia.
    rewrite pow2_sub, E. field. lra. }
  rewrite (rne_integer _ _ D), <- D. field. lra.
Qed.

Lemma fl_id (x : Q) : format x -> fl x == x.
Proof.
  intros (m & e & Hm & He & E).
  destruct (Qeq_dec x 0) as [Hx|Hx].
  - rewrite (fl_zero x Hx), Hx. reflexivity.
  - apply (fl_multiple x m e E). apply (format_fexp x m e); assumption.
Qed.

Lemma format_Qeq (x y : Q) : x == y -> format x -> format y.
Proof.
  intros E (m & e & Hm & He & Ex). exists m, e. rewrite <- E. tauto.
Qed.

Lemma rne_bound (y : Q) (n : Z) :
  Qabs y <= inject_Z n -> (Z.abs (rne y) <= n)%Z.
Proof.
  intros H. apply Qabs_Qle_condition in H. destruct H as [Hlo Hhi].
  pose proof (rne_monotone _ _ Hhi) as H1. rewrite rne_Z in H1.
  rewrite <- inject_Z_opp in Hlo.
  pose proof (rne_monotone _ _ Hlo) as H2. rewrite rne_Z in H2.
  lia.
Qed.

Lemma fl_format (x : Q) : format (fl x).
Proof.
  destruct (Qeq_dec x 0) as [Hx|Hx].
  - rewrite (fl_zero x Hx). exists 0%Z, 0%Z. unfold emin.
    split; [reflexivity|]. split; [lia | reflexivity].
  - destruct (ilog2_spec x Hx) as [_ Shi].
    pose proof (pow2_pos (fexp x)) as P.
    set (f := fexp x) in *. set (m := rne (x / pow2 f)).
    assert (Hf : (emin <= f)%Z) by (unfold f, fexp; lia).
    assert (B : Qabs (x / pow2 f) <= inject_Z (2 ^ 53)).
    { unfold Qdiv. rewrite Qabs_Qmult, Qabs_Qinv, (Qabs_pos (pow2 f)) by lra.
      apply Qle_shift_div_r; [exact P|].
      rewrite <- pow2_nonneg_Z, <- pow2_add by lia.
      apply Qlt_le_weak, Qlt_le_trans with (1 := Shi).
      apply pow2_le. unfold f, fexp. lia. }
    pose proof (rne_bound _ _ B) as Hm. fold m in Hm.
    destruct (Z.eq_dec (Z.abs m) (2 ^ 53)) as [Em|Nm].
    + exists (m / 2)%Z, (f + 1)%Z.
      assert (M2 : (m = 2 * (m / 2))%Z).
      { destruct (Z.abs_eq_or_opp m) as [A|A]; rewrite A in Em.
        - rewrite Em. reflexivity.
        - assert (m = - 2 ^ 53)%Z as -> by lia. reflexivity. }
      split; [|split; [lia|]].
      * assert (Z.abs (m / 2) = 2 ^ 52)%Z; [|lia].
        destruct (Z.abs_eq_or_opp m) as [A|A]; rewrite A in Em.
        -- rewrite Em. reflexivity.
        -- assert (m = - 2 ^ 53)%Z as -> by lia. reflexivity.
      * rewrite fl_eq. fold f m. rewrite pow2_S.
        rewrite M2 at 1. rewrite inject_Z_mult. change (inject_Z 2) with 2. ring.
    + exists m, f. split; [lia|]. split; [exact Hf|].
      rewrite fl_eq. reflexivity.
Qed.

Lemma fl_fold (x : Q) (y : Q) : fl x == y -> fl x = Qred y.
Proof.
  intros E. unfold fl in *. apply Qred_complete.
  rewrite Qred_correct in E. exact E.
Qed.

Lemma fl_idempotent (x : Q) : fl (fl x) = fl x.
Proof.
  assert (E : fl (fl x) == fl x) by apply fl_id, fl_format.
  rewrite (fl_fold _ _ E). unfold fl.
  apply Qred_complete, Qred_correct.
Qed.

Lemma format_Z (n : Z) : (Z.abs n < 2 ^ 53)%Z -> format (inject_Z n).
Proof.
  intros H. exists n, 0%Z. split; [exact H|]. split; [unfold emin; lia|].
  change (pow2 0) with 1. ring.
Qed.

Lemma format_double (x : Q) : format x -> format (2 * x).
Proof.
  intros (m & e & Hm & He & E). exists m, (e + 1)%Z.
  split; [exact Hm|]. split; [lia|]. rewrite pow2_S, E. ring.
Qed.

(** Halving is exact from [2^-1021] on. *)
Lemma format_half (x : Q) : format x -> pow2 (-1021) <= Qabs x -> format (x / 2).
Proof.
  intros (m & e & Hm & He & E) Hx.
  assert (L : (emin < e)%Z).
  { apply Z.lt_nge. intros Hle. assert (e = emin) as -> by lia.
    assert (A : Qabs x < pow2 (53 + emin)).
    { rewrite E, Qabs_Qmult, (Qabs_pos (pow2 emin)) by discriminate.
      rewrite pow2_add, Qabs_inject_Z.
      apply Qmult_lt_r; [reflexivity|].
      rewrite pow2_nonneg_Z by lia. rewrite <- Zlt_Qlt. exact Hm. }
    change (53 + emin)%Z with (-1021)%Z in A. lra. }
  exists m, (e - 1)%Z. split; [exact Hm|]. split; [lia|].
  assert (P : pow2 e == 2 * pow2 (e - 1)).
  { rewrite <- pow2_S. replace (e - 1 + 1)%Z with e by ring. reflexivity. }
  rewrite E, P. field.
Qed.

(** ** Rounding keeps the order *)

Lemma ilog2_mono (x y : Q) : 0 < x -> x <= y -> (ilog2 x <= ilog2 y)%Z.
Proof.
  intros Hx H.
  destruct (ilog2_spec x) as [Xlo _]; [lra|].
  destruct (ilog2_spec y) as [_ Yhi]; [lra|].
  rewrite Qabs_pos in Xlo, Yhi by lra.
  assert (L : (ilog2 x < ilog2 y + 1)%Z) by (apply pow2_lt_inv; lra).
  lia.
Qed.

Lemma rne_pow2 (a : Z) : (0 <= a)%Z -> rne (pow2 a) = (2 ^ a)%Z.
Proof. intros H. apply rne_integer, pow2_nonneg_Z, H. Qed.

Lemma fl_scaled_le (x : Q) (z : Z) :
  x <= inject_Z z * pow2 (fexp x) -> fl x <= inject_Z z * pow2 (fexp x).
Proof.
  intros H. rewrite fl_eq. pose proof (pow2_pos (fexp x)) as P.
  set (p := pow2 (fexp x)) in *.
  apply Qmult_le_compat_r; [|lra].
  rewrite <- Zle_Qle. rewrite <- (rne_Z z). apply rne_monotone.
  apply Qle_shift_div_r; [exact P | exact H].
Qed.

Lemma fl_scaled_ge (x : Q) (z : Z) :
  inject_Z z * pow2 (fexp x) <= x -> inject_Z z * pow2 (fexp x) <= fl x.
Proof.
  intros H. rewrite fl_eq. pose proof (pow2_pos (fexp x)) as P.
  set (p := pow2 (fexp x)) in *.
  apply Qmult_le_compat_r; [|lra].
  rewrite <- Zle_Qle. rewrite <- (rne_Z z) at 1. apply rne_monotone.
  apply Qle_shift_div_l; [exact P | exact H].
Qed.

Lemma pow2_split (a f : Z) :
  (f <= a)%Z -> pow2 a == inject_Z (2 ^ (a - f)) * pow2 f.
Proof.
  intros H. rewrite <- pow2_nonneg_Z by lia. rewrite <- pow2_add.
  replace (a - f + f)%Z with a by ring. reflexivity.
Qed.

Lemma fl_mono_pos (x y : Q) : 0 < x -> x <= y -> fl x <= fl y.
Proof.
  intros Hx H.
  pose proof (ilog2_mono x y Hx H) as HL.
  destruct (ilog2_spec x) as [Xlo Xhi]; [lra|].
  destruct (ilog2_spec y) as [Ylo Yhi]; [lra|].
  rewrite Qabs_pos in Xlo, Xhi, Ylo, Yhi by lra.
  destruct (Z.eq_dec (fexp x) (fexp y)) as [E|N].
  - rewrite (fl_eq x), (fl_eq y), E.
    pose proof (pow2_pos (fexp y)) as P. set (p := pow2 (fexp y)) in *.
    apply Qmult_le_compat_r; [|lra].
    rewrite <- Zle_Qle. apply rne_monotone.
    apply Qle_shift_div_l; [exact P|].
    assert (Ex : x / p * p == x) by (field; lra). rewrite Ex. exact H.
  - assert (Fy : fexp y = (ilog2 y - 52)%Z) by (unfold fexp in *; lia).
    assert (Lxy : (ilog2 x + 1 <= ilog2 y)%Z) by (unfold fexp in *; lia).
    assert (Fx : (fexp x < fexp y)%Z) by (unfold fexp in *; lia).
    apply Qle_trans with (pow2 (ilog2 y)).
    + rewrite (pow2_split (ilog2 y) (fexp x)) by lia.
      apply fl_scaled_le.
      rewrite <- pow2_split by lia.
      apply Qle_trans with (pow2 (ilog2 x + 1)); [lra | apply pow2_le; lia].
    + rewrite (pow2_split (ilog2 y) (fexp y)) by lia.
      apply fl_scaled_ge.
      rewrite <- pow2_split by lia. exact Ylo.
Qed.

Lemma fl_nonpos (x : Q) : x <= 0 -> fl x <= 0.
Proof.
  intros H. assert (H' : 0 <= - x) by lra.
  pose proof (fl_nonneg _ H') as F. rewrite fl_opp in F. lra.
Qed.

Theorem fl_monotone (x y : Q) : x <= y -> fl x <= fl y.
Proof.
  intros H.
  destruct (Qlt_le_dec 0 x) as [Px|Nx].
  - apply fl_mono_pos; assumption.
  - destruct (Qlt_le_dec y 0) as [Ny|Py].
    + assert (M : fl (- y) <= fl (- x)) by (apply fl_mono_pos; lra).
      rewrite !fl_opp in M. lra.
    + pose proof (fl_nonpos x Nx). pose proof (fl_nonneg y Py). lra.
Qed.

(** ** The gap below a number of the format *)

Lemma format_canonical (x : Q) :
  format x -> ~ x == 0 -> exists N : Z, x == inject_Z N * pow2 (fexp x).
Proof.
  intros (m & e & Hm & He & E) Hx.
  pose proof (format_fexp x m e Hm He E Hx) as Hf.
  exists (m * 2 ^ (e - fexp x))%Z.
  rewrite inject_Z_mult, <- Qmult_assoc, <- pow2_split by lia. exact E.
Qed.

(** A positive number of the format is at most [(1 - 2^-53)] times the
    top of its binade. *)
Lemma format_below_top (x : Q) :
  format x -> 0 < x -> x <= (1 - u) * pow2 (ilog2 x + 1).
Proof.
  intros Hf Hx.
  destruct (format_canonical x Hf) as (N & E); [lra|].
  destruct (ilog2_spec x) as [Xlo Xhi]; [lra|].
  rewrite Qabs_pos in Xlo, Xhi by lra.
  assert (F52 : (ilog2 x - 52 <= fexp x)%Z) by (unfold fexp; lia).
  set (f := fexp x) in *. set (a := ilog2 x) in *.
  pose proof (pow2_pos f) as P.
  assert (HN : (0 < N)%Z).
  { apply Z.lt_nge. intros Hle.
    assert (inject_Z N <= 0) by (change 0 with (inject_Z 0); rewrite <- Zle_Qle; exact Hle).
    assert (inject_Z N * pow2 f <= 0 * pow2 f)
      by (apply Qmult_le_compat_r; lra).
    lra. }
  assert (Hfx : (f <= a)%Z).
  { assert (L : (f < a + 1)%Z); [|lia].
    apply pow2_lt_inv. apply Qle_lt_trans with x; [|exact Xhi].
    rewrite E.
    assert (1 <= inject_Z N) by (change 1 with (inject_Z 1); rewrite <- Zle_Qle; lia).
    assert (1 * pow2 f <= inject_Z N * pow2 f)
      by (apply Qmult_le_compat_r; lra).
    lra. }
  set (k := (a + 1 - f)%Z).
  assert (T : pow2 (a + 1) == inject_Z (2 ^ k) * pow2 f).
  { apply pow2_split. lia. }
  assert (HNk : (N + 1 <= 2 ^ k)%Z).
  { assert (L : (N < 2 ^ k)%Z); [|lia].
    rewrite Zlt_Qlt. apply Qmult_lt_r with (z := pow2 f); [exact P|].
    rewrite <- T, <- E. exact Xhi. }
  assert (G : x + pow2 f <= pow2 (a + 1)).
  { rewrite T, E.
    assert (H : inject_Z (N + 1) * pow2 f <= inject_Z (2 ^ k) * pow2 f).
    { apply Qmult_le_compat_r; [|lra]. rewrite <- Zle_Qle. exact HNk. }
    rewrite inject_Z_plus in H. change (inject_Z 1) with 1 in H. lra. }
  assert (U : u * pow2 (a + 1) <= pow2 f).
  { unfold u. rewrite <- pow2_add. apply pow2_le. lia. }
  lra.
Qed.

(** Two numbers of the format differ by at least [2^-53] of the larger. *)
Theorem format_gap (x d : Q) :
  format x -> format d -> 0 <= x -> x < d -> x <= (1 - u) * d.
Proof.
  intros Fx Fd X0 Hxd.
  assert (U1 : 0 <= 1 - u) by discriminate.
  destruct (Qeq_dec x 0) as [Zx|Nx].
  { rewrite Zx. apply Qmult_le_0_compat; lra. }
  assert (Px : 0 < x).
  { destruct (Qlt_le_dec 0 x) as [H|H]; [exact H|]. exfalso. apply Nx. lra. }
  pose proof (ilog2_mono x d Px ltac:(lra)) as HL.
  destruct (ilog2_spec d) as [Dlo Dhi]; [lra|].
  rewrite Qabs_pos in Dlo, Dhi by lra.
  destruct (Z.eq_dec (ilog2 x) (ilog2 d)) as [E|N].
  - (* same binade: both are multiples of the same unit *)
    assert (Ef : fexp x = fexp d) by (unfold fexp; rewrite E; reflexivity).
    destruct (format_canonical x Fx Nx) as (Nx' & Ex).
    destruct (format_canonical d Fd) as (Nd & Ed); [lra|].
    rewrite Ef in Ex. pose proof (pow2_pos (fexp d)) as P.
    assert (F52 : (ilog2 d - 52 <= fexp d)%Z) by (unfold fexp; lia).
    set (p := pow2 (fexp d)) in *.
    assert (HN : (Nx' + 1 <= Nd)%Z).
    { assert (L : (Nx' < Nd)%Z); [|lia].
      rewrite Zlt_Qlt. apply Qmult_lt_r with (z := p); [exact P|].
      rewrite <- Ex, <- Ed. exact Hxd. }
    assert (G : x + p <= d).
    { rewrite Ex, Ed.
      assert (H : inject_Z (Nx' + 1) * p <= inject_Z Nd * p).
      { apply Qmult_le_compat_r; [|lra]. rewrite <- Zle_Qle. exact HN. }
      rewrite inject_Z_plus in H. change (inject_Z 1) with 1 in H. lra. }
    assert (U : u * d <= p).
    { apply Qle_trans with (u * pow2 (ilog2 d + 1)).
      - apply Qmult_le_l; [reflexivity | lra].
      - unfold u, p. rewrite <- pow2_add. apply pow2_le. lia. }
    lra.
  - pose proof (format_below_top x Fx Px) as B.
    assert (T : pow2 (ilog2 x + 1) <= d).
    { apply Qle_trans with (pow2 (ilog2 d)); [apply pow2_le; lia | exact Dlo]. }
    apply Qle_trans with (1 := B).
    apply Qmult_le_l; [reflexivity | exact T].
Qed.

Ltac u_num := change u with (1 # 9007199254740992) in *.

(** ** The grid *)

Lemma quotient_range (b : Q) :
  pow2 (-1000) <= b -> b <= pow2 1000 ->
  0 < b /\ pow2 (-1000) <= 60 / b /\ 60 / b <= pow2 1006.
Proof.
  intros Hlo Hhi.
  assert (P : 0 < pow2 (-1000)) by apply pow2_pos.
  assert (Hb : 0 < b) by lra.
  split; [exact Hb|]. split.
  - apply Qle_shift_div_l; [exact Hb|].
    assert (H : pow2 (-1000) * b <= pow2 (-1000) * pow2 1000)
      by (apply Qmult_le_l; assumption).
    assert (E : pow2 (-1000) * pow2 1000 == 1) by reflexivity.
    lra.
  - apply Qle_shift_div_r; [exact Hb|].
    assert (H : pow2 1006 * pow2 (-1000) <= pow2 1006 * b).
    { apply Qmult_le_l; [apply pow2_pos | exact Hlo]. }
    assert (E : pow2 1006 * pow2 (-1000) == 64) by reflexivity.
    lra.
Qed.

Lemma fl_error_pos (x : Q) : pow2 (-1022) <= x -> Qabs (fl x - x) <= u * x.
Proof.
  intros H. assert (P : 0 < pow2 (-1022)) by apply pow2_pos.
  pose proof (fl_error_rel x) as E. rewrite (Qabs_pos x) in E by lra.
  exact (E H).
Qed.

Lemma fl_lower (x : Q) : pow2 (-1022) <= x -> (1 - u) * x <= fl x.
Proof.
  intros H. assert (P : 0 < pow2 (-1022)) by apply pow2_pos.
  pose proof (fl_error_rel x) as E. rewrite (Qabs_pos x) in E by lra.
  specialize (E H). apply Qabs_Qle_condition in E. lra.
Qed.

(** C1. For a tempo [b] between 2^-1000 and 2^1000, [calcGrid] holds the
    quarter note of [60 / b] seconds rounded to binary64: a number of the
    format within [2^-53] of [60 / b], relatively, and [60 / b] itself when
    that is a number of the format.  The eighth note is exactly half the
    quarter, the half note twice and the downbeat four times the quarter. *)
Theorem calcGrid_rounded (b : Q)
    (Hlo : pow2 (-1000) <= b) (Hhi : b <= pow2 1000) :
  let g := Engine.calcGrid b in
  quarter_note g = fl (60 / b) /\
  format (quarter_note g) /\
  Qabs (quarter_note g - 60 / b) <= u * (60 / b) /\
  (format (60 / b) -> quarter_note g == 60 / b) /\
  eighth_note g == quarter_note g / 2 /\
  half_note g == 2 * quarter_note g /\
  downbeat_whole g == 4 * quarter_note g.
Proof.
  destruct (quotient_range b Hlo Hhi) as (Hb & Ylo & Yhi).
  cbn zeta. unfold Engine.calcGrid.
  cbn [quarter_note eighth_note half_note downbeat_whole].
  unfold Binary64.div, Binary64.mul.
  set (y := 60 / b) in *.
  assert (P1 : pow2 (-1022) <= pow2 (-1000)) by (apply pow2_le; lia).
  assert (P2 : 0 < pow2 (-1022)) by apply pow2_pos.
  assert (Ny : pow2 (-1022) <= y) by lra.
  pose proof (fl_format y) as Fq.
  pose proof (fl_lower y Ny) as Lq.
  set (q := fl y) in *.
  assert (Hq : pow2 (-1021) <= q).
  { assert (E : pow2 (-1021) == 2 * pow2 (-1022)) by reflexivity.
    assert (E2 : pow2 (-1000) == 4194304 * pow2 (-1022)) by reflexivity.
    u_num. lra. }
  split; [reflexivity|]. split; [exact Fq|]. split.
  { apply fl_error_pos, Ny. }
  split; [intros Fy; apply fl_id, Fy|].
  split; [|split].
  - apply fl_id, format_half; [exact Fq|].
    rewrite Qabs_pos; [exact Hq|].
    assert (0 < pow2 (-1021)) by apply pow2_pos. lra.
  - assert (E : q * 2 == 2 * q) by ring.
    rewrite (fl_Qeq _ _ E). apply fl_id, format_double, Fq.
  - assert (E : q * 4 == 2 * (2 * q)) by ring.
    rewrite (fl_Qeq _ _ E).
    rewrite (fl_id _ (format_double _ (format_double _ Fq))). ring.
Qed.

Lemma calcGrid_rounded_witness :
  quarter_note (Engine.calcGrid 120) == 1 # 2 /\
  eighth_note (Engine.calcGrid 120) == 1 # 4 /\
  half_note (Engine.calcGrid 120) == 1 /\
  downbeat_whole (Engine.calcGrid 120) == 2.
Proof.
  destruct (calcGrid_rounded 120) as (_ & _ & _ & Hq & He & Hh & Hd).
  - vm_compute. discriminate.
  - vm_compute. discriminate.
  - assert (F : format (60 / 120)).
    { exists 1%Z, (-1)%Z. split; [reflexivity|].
      split; [unfold emin; lia | reflexivity]. }
    specialize (Hq F). rewrite He, Hh, Hd, Hq.
    repeat split; reflexivity.
Defined.

(** At tempo 58 the quarter note is 4658896166245341 / 2^52, a little more
    than [60 / 58]: 58 of them are more than a minute. *)
Lemma calcGrid_58_inexact :
  quarter_note (Engine.calcGrid 58) = 4658896166245341 # 4503599627370496 /\
  Qeq_bool (quarter_note (Engine.calcGrid 58)) (60 / 58) = false /\
  Qeq_bool (quarter_note (Engine.calcGrid 58) * 58) 60 = false /\
  60 < quarter_note (Engine.calcGrid 58) * 58.
Proof. vm_compute. repeat split; reflexivity. Qed.

(** ** Snapping *)



Lemma Qabs_scale (a t e : Q) : 0 < e -> Qabs (a * e - t) == Qabs (a - t / e) * e.
Proof.
  intros He.
  assert (E : a * e - t == (a - t / e) * e) by (field; lra).
  rewrite E, Qabs_Qmult, (Qabs_pos e) by lra. reflexivity.
Qed.

Lemma Qabs_split (a b c : Q) : Qabs (a - c) <= Qabs (a - b) + Qabs (b - c).
Proof.
  assert (E : a - c == (a - b) + (b - c)) by ring.
  rewrite E. apply Qabs_triangle.
Qed.

Lemma Math_round_nearest (x : Q) (j : Z) :
  Qabs (JS.Math_round x - x) <= Qabs (inject_Z j - x).
Proof.
  unfold JS.Math_round.
  destruct (floor_range (x + (1 # 2))) as [Flo Fhi].
  set (k := Qfloor (x + (1 # 2))) in *.
  assert (Hj : inject_Z j <= inject_Z k - 1 \/ inject_Z j == inject_Z k
               \/ inject_Z k + 1 <= inject_Z j).
  { destruct (Z_lt_le_dec j k) as [H|H].
    - left. assert (H1 : (j <= k - 1)%Z) by lia.
      rewrite Zle_Qle in H1. unfold Z.sub in H1.
      rewrite inject_Z_plus, inject_Z_opp in H1. exact H1.
    - destruct (Z.eq_dec j k) as [E|N].
      + right; left. rewrite E. reflexivity.
      + right; right. change 1 with (inject_Z 1).
        rewrite <- inject_Z_plus, <- Zle_Qle. lia. }
  apply Qabs_Qle_condition.
  destruct Hj as [Hj|[Hj|Hj]].
  - rewrite (Qabs_neg (inject_Z j - x)) by lra. split; lra.
  - rewrite Hj. apply Qabs_Qle_condition. apply Qle_refl.
  - rewrite (Qabs_pos (inject_Z j - x)) by lra. split; lra.
Qed.

Lemma Math_round_half (x : Q) : Qabs (JS.Math_round x - x) <= 1 # 2.
Proof.
  unfold JS.Math_round.
  destruct (floor_range (x + (1 # 2))) as [Flo Fhi].
  apply Qabs_Qle_condition. split; lra.
Qed.

Ltac eta_num :=
  let v := eval vm_compute in eta in change eta with v in *.

(** C2. For a time [t >= 0] and an eighth interval [e] of at least 2^-1022
    seconds, [snapToGrid t e] is [k * e] rounded to binary64, where the
    index [k >= 0] is the binary64 quotient [t / e] rounded to an integer.
    It is a nearest multiple of [e] up to rounding: no multiple of [e] is
    nearer to [t] by more than [2^-51 * (t + e)], and the snapped time is
    within [e / 2 + 2^-51 * (t + e)] of [t].  At tempo 120 the eighth note
    is 0.25, the raw time 2.05 snaps to 2 and 2 is a downbeat. *)
Theorem snapToGrid_rounded (t e : Q) (Ht : 0 <= t) (He : pow2 (-1022) <= e) :
  (exists k : Z,
      (0 <= k)%Z /\ inject_Z k = JS.Math_round (Binary64.div t e) /\
      Engine.snapToGrid t e = fl (inject_Z k * e)) /\
  (forall j : Z,
      Qabs (Engine.snapToGrid t e - t)
      <= Qabs (inject_Z j * e - t) + pow2 (-51) * (t + e)) /\
  Qabs (Engine.snapToGrid t e - t) <= e / 2 + pow2 (-51) * (t + e) /\
  eighth_note (Engine.calcGrid 120) = 1 # 4 /\
  Engine.snapToGrid (fl (205 # 100)) (eighth_note (Engine.calcGrid 120)) = 2 /\
  Engine.classifyBeat
    (Engine.snapToGrid (fl (205 # 100)) (eighth_note (Engine.calcGrid 120)))
    (Engine.calcGrid 120) = downbeat.
Proof.
  assert (P : 0 < pow2 (-1022)) by apply pow2_pos.
  assert (E0 : 0 < e) by lra.
  unfold Engine.snapToGrid, Binary64.div, Binary64.mul.
  set (q' := t / e).
  assert (Hq' : 0 <= q') by (apply Qle_shift_div_l; lra).
  assert (Eq' : q' * e == t) by (unfold q'; field; lra).
  pose proof (fl_error q') as Dq. rewrite (Qabs_pos q') in Dq by exact Hq'.
  pose proof (fl_nonneg q' Hq') as Q0.
  set (q := fl q') in *.
  pose proof (Math_round_half q) as Rh.
  pose proof (fun j => Math_round_nearest q j) as Rn.
  assert (Ek : JS.Math_round q = inject_Z (Qfloor (q + (1 # 2)))) by reflexivity.
  rewrite Ek in *.
  pose proof (round_nonneg q Q0) as K0.
  set (k := Qfloor (q + (1 # 2))) in *.
  pose proof (fl_error (inject_Z k * e)) as Ds.
  assert (KE0 : 0 <= inject_Z k * e).
  { apply Qmult_le_0_compat; [|lra].
    change 0 with (inject_Z 0). rewrite <- Zle_Qle. exact K0. }
  rewrite (Qabs_pos (inject_Z k * e)) in Ds by exact KE0.
  set (s := fl (inject_Z k * e)) in *.
  (* distances in index space, scaled by [e] *)
  set (dq := Qabs (q - q')) in *.
  assert (Ze : dq * e <= u * t + eta * e).
  { assert (H : dq * e <= (u * q' + eta) * e)
      by (apply Qmult_le_compat_r; lra).
    assert (E : (u * q' + eta) * e == u * (q' * e) + eta * e) by ring.
    rewrite E, Eq' in H. exact H. }
  assert (Tri : forall a : Q, Qabs (a - q') <= Qabs (a - q) + dq).
  { intros a. unfold dq. apply Qabs_split. }
  assert (Tri' : forall a : Q, Qabs (a - q) <= Qabs (a - q') + dq).
  { intros a. unfold dq. rewrite (Qabs_Qminus q q'). apply Qabs_split. }
  assert (A1 : Qabs (inject_Z k * e - t) <= e / 2 + dq * e).
  { rewrite (Qabs_scale _ _ _ E0). fold q'.
    assert (H : Qabs (inject_Z k - q') * e <= ((1 # 2) + dq) * e).
    { apply Qmult_le_compat_r; [|lra]. pose proof (Tri (inject_Z k)). lra. }
    assert (E : ((1 # 2) + dq) * e == e / 2 + dq * e) by field.
    rewrite E in H. exact H. }
  assert (A2 : forall j : Z,
             Qabs (inject_Z k * e - t) <= Qabs (inject_Z j * e - t) + 2 * (dq * e)).
  { intros j. rewrite !(Qabs_scale _ _ _ E0). fold q'.
    assert (H : Qabs (inject_Z k - q') * e
                <= (Qabs (inject_Z j - q') + 2 * dq) * e).
    { apply Qmult_le_compat_r; [|lra].
      pose proof (Tri (inject_Z k)). pose proof (Tri' (inject_Z j)).
      pose proof (Rn j). lra. }
    assert (E : (Qabs (inject_Z j - q') + 2 * dq) * e
                == Qabs (inject_Z j - q') * e + 2 * (dq * e)) by ring.
    rewrite E in H. exact H. }
  assert (K1 : inject_Z k * e <= t + Qabs (inject_Z k * e - t)).
  { pose proof (Qle_Qabs (inject_Z k * e - t)). lra. }
  assert (S1 : Qabs (s - t) <= Qabs (s - inject_Z k * e) + Qabs (inject_Z k * e - t)).
  { apply Qabs_split. }
  assert (Eta : eta <= u * e).
  { assert (E : eta == u * pow2 (-1022)) by reflexivity.
    rewrite E. apply Qmult_le_l; [reflexivity | exact He]. }
  assert (EtaE : eta * e <= (1 # 4) * (u * e)).
  { assert (E : (1 # 4) * (u * e) == ((1 # 4) * u) * e) by ring.
    rewrite E. apply Qmult_le_compat_r; [|lra]. vm_compute. discriminate. }
  assert (D0 : 0 <= dq * e).
  { apply Qmult_le_0_compat; [apply Qabs_nonneg | lra]. }
  assert (E2 : e / 2 == (1 # 2) * e) by field.
  rewrite E2 in A1 |- *.
  split.
  { exists k. split; [exact K0|]. split; reflexivity. }
  change (pow2 (-51)) with (1 # 2251799813685248).
  set (A := Qabs (inject_Z k * e - t)) in *.
  set (Z0 := dq * e) in *. set (K := inject_Z k * e) in *.
  set (S0 := Qabs (s - K)) in *. set (S := Qabs (s - t)) in *.
  set (W := eta * e) in *.
  assert (Eta0 : 0 <= eta) by discriminate.
  split; [intros j; specialize (A2 j)|]; [|split].
  - set (B := Qabs (inject_Z j * e - t)) in *.
    clearbody A B Z0 K S0 S W. clear - Ze A1 A2 K1 S1 Eta EtaE Eta0 D0 Ds Ht E0 KE0.
    generalize dependent eta. intros eta0 **.
    u_num. lra.
  - clearbody A Z0 K S0 S W. clear - Ze A1 K1 S1 Eta EtaE Eta0 D0 Ds Ht E0 KE0.
    generalize dependent eta. intros eta0 **.
    u_num. lra.
  - vm_compute. repeat split; reflexivity.
Qed.

Lemma snapToGrid_rounded_witness :
  Qabs (Engine.snapToGrid (75 # 10) (eighth_note (Engine.calcGrid 58)) - (75 # 10))
  <= eighth_note (Engine.calcGrid 58) / 2
     + pow2 (-51) * ((75 # 10) + eighth_note (Engine.calcGrid 58)).
Proof.
  refine (proj1 (proj2 (proj2
    (snapToGrid_rounded (75 # 10) (eighth_note (Engine.calcGrid 58)) _ _))));
    vm_compute; discriminate.
Defined.

(** At tempo 42 the raw time 2.5 is snapped to four eighth notes, which is
    farther from it than half an eighth note, and farther than three. *)
Lemma snapToGrid_42_not_nearest :
  eighth_note (Engine.calcGrid 42) = 6433713753386423 # 9007199254740992 /\
  Engine.snapToGrid (5 # 2) (eighth_note (Engine.calcGrid 42))
  = 6433713753386423 # 2251799813685248 /\
  eighth_note (Engine.calcGrid 42) / 2
  < Qabs (Engine.snapToGrid (5 # 2) (eighth_note (Engine.calcGrid 42)) - (5 # 2)) /\
  Qabs (3 * eighth_note (Engine.calcGrid 42) - (5 # 2))
  < Qabs (Engine.snapToGrid (5 # 2) (eighth_note (Engine.calcGrid 42)) - (5 # 2)).
Proof. vm_compute. repeat split; reflexivity. Qed.

(** ** Stored times *)

(** Numerals of four decimals below 10^11 come back from [parseFloat] as
    numbers that print to the same numeral. *)
Lemma toFixed_parse4 (n : Z) :
  (Z.abs n <= 10 ^ 15 + 1)%Z ->
  JS.toFixed 4 (fl (n # 10000)) = JS.Fixed 4 n.
Proof.
  intros Hn.
  pose proof (fl_error (n # 10000)) as D.
  pose proof (Qmake_mul n 10000) as En.
  change (inject_Z (Zpos 10000)) with 10000 in En.
  set (r := fl (n # 10000)) in *.
  assert (An : Qabs (n # 10000) * 10000 == inject_Z (Z.abs n)).
  { assert (E : Qabs (n # 10000) * 10000 == Qabs ((n # 10000) * 10000)).
    { rewrite Qabs_Qmult. reflexivity. }
    rewrite E, En. reflexivity. }
  assert (Bn : inject_Z (Z.abs n) <= 1000000000000001).
  { change 1000000000000001 with (inject_Z (10 ^ 15 + 1)).
    rewrite <- Zle_Qle. exact Hn. }
  assert (Close : Qabs (r * 10000 - inject_Z n) <= 1 # 4).
  { assert (E : r * 10000 - inject_Z n == (r - (n # 10000)) * 10000).
    { rewrite <- En. ring. }
    rewrite E, Qabs_Qmult. change (Qabs 10000) with 10000.
    set (a := Qabs (n # 10000)) in *. set (c := Qabs (r - (n # 10000))) in *.
    set (h := eta) in *.
    assert (Hh : h <= 1 # 1000000000) by (vm_compute; discriminate).
    clearbody a c h. u_num. lra. }
  apply Qabs_Qle_condition in Close. destruct Close as [Clo Chi].
  assert (Big : Qle_bool (inject_Z (10 ^ 21)) (Qabs r) = false).
  { destruct (Qle_bool (inject_Z (10 ^ 21)) (Qabs r)) eqn:B; [|reflexivity].
    apply Qle_bool_iff in B. exfalso.
    change (inject_Z (10 ^ 21)) with 1000000000000000000000 in B.
    assert (A : Qabs r * 10000 <= inject_Z (Z.abs n) + (1 # 4)).
    { assert (E : Qabs r * 10000 == Qabs (r * 10000)).
      { rewrite Qabs_Qmult. reflexivity. }
      rewrite E.
      assert (T : Qabs (r * 10000) <= Qabs (r * 10000 - inject_Z n) + Qabs (inject_Z n)).
      { assert (E1 : r * 10000 == (r * 10000 - inject_Z n) + inject_Z n) by ring.
        rewrite E1 at 1. apply Qabs_triangle. }
      assert (C : Qabs (r * 10000 - inject_Z n) <= 1 # 4)
        by (apply Qabs_Qle_condition; split; lra).
      change (Qabs (inject_Z n)) with (inject_Z (Z.abs n)) in T. lra. }
    lra. }
  unfold JS.toFixed. rewrite Big.
  change (inject_Z (Zpos (JS.pow10 4))) with 10000.
  destruct (JS.ltb r 0) eqn:S.
  - f_equal.
    assert (F : Qfloor (- r * 10000 + (1 # 2)) = (- n)%Z).
    { apply floor_unique; rewrite inject_Z_opp; lra. }
    rewrite F. lia.
  - f_equal. apply floor_unique; lra.
Qed.

Lemma round4_decimal (x : Q) :
  Qabs x <= 100000000000 ->
  exists n : Z,
    Engine.round4 x = fl (n # 10000) /\
    Qabs ((n # 10000) - x) <= 1 # 20000 /\
    Engine.round4 (Engine.round4 x) = Engine.round4 x.
Proof.
  intros Hx.
  assert (Small : Qabs x < inject_Z (10 ^ 21)).
  { apply Qle_lt_trans with (1 := Hx). reflexivity. }
  destruct (toFixed_small 4 x Small) as (n & En & Hlo & Hhi).
  change (inject_Z (Zpos (JS.pow10 4))) with 10000 in Hlo, Hhi.
  pose proof (Qmake_mul n 10000) as Em.
  change (inject_Z (Zpos 10000)) with 10000 in Em.
  apply Qabs_Qle_condition in Hx. destruct Hx as [Xlo Xhi].
  assert (Hn : (Z.abs n <= 10 ^ 15 + 1)%Z).
  { assert (H1 : (n < 10 ^ 15 + 1)%Z).
    { rewrite Zlt_Qlt. change (inject_Z (10 ^ 15 + 1)) with 1000000000000001. lra. }
    assert (H2 : (- (10 ^ 15 + 1) < n)%Z).
    { rewrite Zlt_Qlt. change (inject_Z (- (10 ^ 15 + 1))) with (-1000000000000001). lra. }
    lia. }
  exists n. unfold Engine.round4, Engine.parseFloat. rewrite En.
  cbn [JS.parseFloat]. change (JS.pow10 4) with 10000%positive.
  split; [reflexivity|]. split.
  - apply Qabs_Qle_condition. split; lra.
  - rewrite (toFixed_parse4 n Hn). reflexivity.
Qed.

Lemma toEntry_fields (g : Grid) (w : Engine.Word) :
  Engine.toEntry g w
  = Engine.mkEntry
      (Engine.w_word w) (Engine.round4 (Engine.rawOf w))
      (Engine.round4 (Engine.snapToGrid (Engine.rawOf w) (eighth_note g)))
      (Engine.classifyBeat (Engine.snapToGrid (Engine.rawOf w) (eighth_note g)) g).
Proof. unfold Engine.toEntry, Engine.round4. cbv zeta. reflexivity. Qed.

Lemma processWords_run64 (s : Engine.State) (g : Grid) (words : list Engine.Word) :
  Engine.grid s = Some g ->
  Engine.processWords words s
  = inr (Engine.set_lyricsGrid (map (Engine.toEntry g) words) s).
Proof.
  intros Hg. unfold Engine.processWords. rewrite Hg. destruct words; reflexivity.
Qed.


(** C10. With a grid set, [processWords] stores one entry per word, in
    order: the word, the raw time and the snapped time each passed through
    [parseFloat(x.toFixed(4))], and the class of the unrounded snapped
    time.  A time of at most 10^11 seconds is stored as the binary64
    number nearest to a numeral of four decimals, within 0.00005 of the
    time rounded, and rounding the stored value again gives it back.
    [buildJSON] hands the stored entries on as they are. *)
Theorem processWords_stores_rounded
    (basename : string -> string) (s : Engine.State) (g : Grid)
    (words : list Engine.Word)
    (Hg : Engine.grid s = Some g) :
  exists s',
    Engine.processWords words s = inr s' /\
    List.length (Engine.lyricsGrid s') = List.length words /\
    (forall i w, nth_error words i = Some w ->
       let raw := Engine.rawOf w in
       let snapped := Engine.snapToGrid raw (eighth_note g) in
       exists e,
         nth_error (Engine.lyricsGrid s') i = Some e /\
         Engine.word e = Engine.w_word w /\
         Engine.raw_start e = Engine.round4 raw /\
         Engine.snapped_start e = Engine.round4 snapped /\
         Engine.type e = Engine.classifyBeat snapped g /\
         (Qabs raw <= 100000000000 ->
            (exists n : Z, Engine.raw_start e = fl (n # 10000) /\
                           Qabs ((n # 10000) - raw) <= 1 # 20000) /\
            Engine.round4 (Engine.raw_start e) = Engine.raw_start e) /\
         (Qabs snapped <= 100000000000 ->
            (exists n : Z, Engine.snapped_start e = fl (n # 10000) /\
                           Qabs ((n # 10000) - snapped) <= 1 # 20000) /\
            Engine.round4 (Engine.snapped_start e) = Engine.snapped_start e)) /\
    (forall fp, Engine.filePath s' = Some fp ->
       exists x, Engine.buildJSON basename s' = inr x /\
                 Engine.lyrics_grid x = Engine.lyricsGrid s') /\
    (forall r s2, Engine.handleTranscribe r s = inr s2 ->
       Engine.lyricsGrid s2 = Engine.lyricsGrid s \/
       exists ws, Engine.lyricsGrid s2 = map (Engine.toEntry g) ws) /\
    (forall t s2, Engine.distributeManualLyrics t s = inr s2 ->
       exists ws, Engine.lyricsGrid s2 = map (Engine.toEntry g) ws) /\
    (forall b s2, Engine.applyBPM b s = inr s2 ->
       Engine.lyricsGrid s2 = Engine.lyricsGrid s \/
       exists b' ws, b = Some b' /\
                     Engine.lyricsGrid s2
                     = map (Engine.toEntry (Engine.calcGrid b')) ws).
Proof.
  exists (Engine.set_lyricsGrid (map (Engine.toEntry g) words) s).
  split; [apply processWords_run64, Hg|].
  cbn [Engine.set_lyricsGrid Engine.lyricsGrid Engine.filePath Engine.grid].
  split; [apply length_map|]. split.
  - intros i w Hi. cbn zeta.
    exists (Engine.toEntry g w). split.
    { rewrite nth_error_map, Hi. reflexivity. }
    rewrite toEntry_fields.
    cbn [Engine.word Engine.raw_start Engine.snapped_start Engine.type].
    generalize (Engine.snapToGrid (Engine.rawOf w) (eighth_note g)).
    generalize (Engine.rawOf w). intros raw snapped.
    repeat (split; [reflexivity|]).
    split; intros H.
    + destruct (round4_decimal raw H) as (n & E1 & E2 & E3).
      split; [exists n; split; assumption | exact E3].
    + destruct (round4_decimal snapped H) as (n & E1 & E2 & E3).
      split; [exists n; split; assumption | exact E3].
  - split; [|split; [|split]].
  + intros fp Hfp. unfold Engine.buildJSON.
    cbn [Engine.filePath Engine.grid Engine.set_lyricsGrid].
    rewrite Hfp, Hg. eexists. split; reflexivity.
  + intros r s2. unfold Engine.handleTranscribe.
    destruct (Engine.filePath s) as [[|c1 p1]|];
      try (intros [= <-]; left; reflexivity).
    destruct (Engine.pythonCmd s) as [[|c2 p2]|];
      try (intros [= <-]; left; reflexivity).
    destruct r as [err|ws].
    * intros [= <-]. left. destruct err; reflexivity.
    * rewrite (processWords_run64 _ g) by exact Hg.
      intros [= <-]. right. exists ws. reflexivity.
  + intros t s2. unfold Engine.distributeManualLyrics. rewrite Hg.
    rewrite (processWords_run64 _ g) by exact Hg.
    intros [= <-]. eexists. reflexivity.
  + intros [b|] s2; [|intros [= <-]; left; reflexivity].
    unfold Engine.applyBPM.
    destruct (negb (JS.truthy (Some b)) || JS.leb b 0);
      [intros [= <-]; left; reflexivity|].
    cbn zeta. unfold Engine.set_tempo at 1. cbn [Engine.lyricsGrid].
    destruct (Engine.lyricsGrid s) as [|e l] eqn:El.
    * cbn [List.length Nat.ltb Nat.leb]. intros [= <-]. left.
      cbn [Engine.set_tempo Engine.lyricsGrid].
      first [reflexivity | exact El | symmetry; exact El].
    * cbn [List.length Nat.ltb Nat.leb].
      rewrite (processWords_run64 _ (Engine.calcGrid b)) by reflexivity.
      intros [= <-]. right. exists b. eexists. split; reflexivity.
Qed.

Lemma processWords_stores_rounded_witness :
  exists s',
    Engine.processWords
      [Engine.mkWord (Engine.utf16 "la") (Some (15 # 2)) None;
       Engine.mkWord (Engine.utf16 "di") None (Some (3 # 10))]
      (Engine.session_at 58 60 [])
    = inr s' /\
    List.length (Engine.lyricsGrid s') = 2%nat.
Proof.
  destruct (processWords_stores_rounded demo_basename
              (Engine.session_at 58 60 [])
              (Engine.calcGrid 58)
              [Engine.mkWord (Engine.utf16 "la") (Some (15 # 2)) None;
               Engine.mkWord (Engine.utf16 "di") None (Some (3 # 10))]
              eq_refl)
    as (s' & H & L & _).
  exists s'. split; [exact H | exact L].
Defined.

(** ** Tempo changes *)







(** ** Manual lyrics *)

Lemma stepOf_integer64 (d q : Q) (n : nat) :
  Engine.stepOf d q n
  = inject_Z (Z.max 1 (Qfloor (Binary64.div (inject_Z (Qfloor (Binary64.div d q)))
                                            (of_nat n)))).
Proof.
  unfold Engine.stepOf, Engine.totalBeats, JS.Math_floor.
  apply Math_max_1_inject.
Qed.

Lemma mul_integers (a c : Z) :
  (Z.abs (a * c) < 2 ^ 53)%Z ->
  Binary64.mul (inject_Z a) (inject_Z c) == inject_Z (a * c).
Proof.
  intros H. unfold Binary64.mul.
  assert (E : inject_Z a * inject_Z c == inject_Z (a * c))
    by (rewrite inject_Z_mult; reflexivity).
  rewrite (fl_Qeq _ _ E). apply fl_id, format_Z, H.
Qed.


(** C6. With a grid of positive quarter interval [q] and a song of [d]
    seconds, the uniform path stores one entry per token of the text, in
    order.  The word at index [i] gets the raw time [i * step * q] as
    binary64 computes it, stored to four decimals, where [totalBeats] is
    the floor of the binary64 quotient [d / q] and [step] is
    [max 1 (floor (totalBeats / n))]; while [i * step] stays below 2^53
    that time is [(i * step) * q] rounded once.  Nothing bounds the times
    by the duration: five words in a 1 s song at tempo 120 put the last one
    at 2 s.  At tempo 100 and 30 s, ten words give [totalBeats = 50],
    [step = 5] and the raw time 9 for index 3. *)
Theorem distributeManualLyrics_rounded
    (s : Engine.State) (g : Grid) (d : Q) (t : Engine.text)
    (Hg : Engine.grid s = Some g) (Hd : Engine.duration s = Some d)
    (Hq : 0 < quarter_note g) (Hn : Engine.tokens t <> []) :
  let words := Engine.tokens t in
  let n := List.length words in
  let q := quarter_note g in
  let totalBeats := Qfloor (Binary64.div d q) in
  let step := Z.max 1 (Qfloor (Binary64.div (inject_Z totalBeats) (of_nat n))) in
  (exists s',
     Engine.distributeManualLyrics t s = inr s' /\
     List.length (Engine.lyricsGrid s') = n /\
     forall i w, nth_error words i = Some w ->
       exists e,
         nth_error (Engine.lyricsGrid s') i = Some e /\
         Engine.word e = w /\
         Engine.raw_start e
         = Engine.round4
             (Binary64.mul (Binary64.mul (of_nat i) (inject_Z step)) q) /\
         ((Z.of_nat i * step < 2 ^ 53)%Z ->
          Binary64.mul (Binary64.mul (of_nat i) (inject_Z step)) q
          = fl (inject_Z (Z.of_nat i * step) * q))) /\
  (let ten := Engine.utf16 "one two three four five six seven eight nine ten" in
   let s100 := Engine.session_at 100 30 [] in
   List.length (Engine.tokens ten) = 10%nat /\
   quarter_note (Engine.calcGrid 100) = fl (6 # 10) /\
   Engine.totalBeats 30 (quarter_note (Engine.calcGrid 100)) = 50 /\
   Engine.stepOf 30 (quarter_note (Engine.calcGrid 100)) 10 = 5 /\
   exists s', Engine.distributeManualLyrics ten s100 = inr s' /\
              nth_error (Engine.lyricsGrid s') 3
              = Some (Engine.mkEntry (Engine.utf16 "four") 9 9 quarter)) /\
  (let s120 := Engine.session_at 120 1 [] in
   exists s', Engine.distributeManualLyrics (Engine.utf16 "a b c d e") s120 = inr s' /\
              nth_error (Engine.lyricsGrid s') 4
              = Some (Engine.mkEntry (Engine.utf16 "e") 2 2 downbeat)).
Proof.
  intros words n q totalBeats step.
  split; [|split].
  - eexists. split.
    { unfold Engine.distributeManualLyrics. rewrite Hg, Hd. cbn [num].
      apply (processWords_run64 s g _ Hg). }
    cbn [Engine.set_lyricsGrid Engine.lyricsGrid].
    fold words. fold q.
    split.
    { rewrite length_map. unfold Engine.manualWords, mapi.
      apply length_mapi_from. }
    intros i w Hi.
    eexists. split.
    { rewrite nth_error_map. unfold Engine.manualWords, mapi.
      rewrite nth_error_mapi_from, Hi. cbn [option_map plus]. reflexivity. }
    rewrite toEntry_fields.
    cbn [Engine.word Engine.raw_start Engine.w_word].
    unfold Engine.rawOf. cbn [Engine.w_start Engine.w_raw_start JS.nullish].
    fold n. rewrite stepOf_integer64. fold totalBeats. fold step.
    split; [reflexivity|]. split; [reflexivity|].
    intros Hsmall.
    unfold Binary64.mul at 1. apply fl_Qeq.
    assert (E : Binary64.mul (of_nat i) (inject_Z step)
                == inject_Z (Z.of_nat i * step)).
    { apply mul_integers. unfold step in *. lia. }
    rewrite E. reflexivity.
  - vm_compute. repeat split; try reflexivity.
    eexists. split; reflexivity.
  - vm_compute. eexists. split; reflexivity.
Qed.

Lemma distributeManualLyrics_rounded_witness :
  exists s',
    Engine.distributeManualLyrics (Engine.utf16 "la di da")
      (Engine.session_at 58 60 [])
    = inr s' /\
    List.length (Engine.lyricsGrid s') = 3%nat.
Proof.
  destruct (distributeManualLyrics_rounded
              (Engine.session_at 58 60 [])
              (Engine.calcGrid 58) 60 (Engine.utf16 "la di da")
              eq_refl eq_refl)
    as ((s' & H & L & _) & _).
  - vm_compute. reflexivity.
  - vm_compute. discriminate.
  - exists s'. split; [exact H | exact L].
Defined.

(** At tempo 42 a song of 60 s has 42 beats for the engine, while the
    quarter interval it divides by goes 41 times into 60 and not 42. *)
Lemma totalBeats_42_rounds_up :
  Engine.totalBeats 60 (quarter_note (Engine.calcGrid 42)) = 42 /\
  JS.Math_floor (60 / quarter_note (Engine.calcGrid 42)) = 41 /\
  60 / quarter_note (Engine.calcGrid 42) < 42.
Proof. vm_compute. repeat split; reflexivity. Qed.

(** ** Footage tracker *)


Lemma fold_add_format (cs : list Clip.t) (a : Q) :
  format a ->
  format (fold_left (fun acc c => Binary64.add acc (Clip.duration c)) cs a).
Proof.
  revert a. induction cs as [|c cs IH]; intros a Ha; cbn [fold_left].
  - exact Ha.
  - apply IH. unfold Binary64.add. apply fl_format.
Qed.

Lemma sum64_format (cs : list Clip.t) : format (sum64 cs).
Proof.
  apply fold_add_format. exists 0%Z, 0%Z.
  split; [reflexivity|]. split; [unfold emin; lia | reflexivity].
Qed.

(** The share in percent against 100, read off the total and the song. *)
Lemma percent_flags (T d : Q) :
  0 < d -> format d -> format T ->
  let p := Binary64.mul (Binary64.div T d) 100 in
  (100 <= p <-> d <= T) /\ (100 < p <-> d < T).
Proof.
  intros Hd Fd FT p. unfold p, Binary64.mul, Binary64.div.
  set (r := fl (T / d)).
  assert (F1 : fl 1 == 1) by reflexivity.
  assert (F100 : fl 100 == 100) by reflexivity.
  assert (ET : T / d * d == T) by (field; lra).
  (* the four implications *)
  assert (A : d <= T -> 100 <= fl (r * 100)).
  { intros H.
    assert (H1 : 1 <= T / d) by (apply Qle_shift_div_l; lra).
    pose proof (fl_monotone _ _ H1) as M. fold r in M.
    assert (H2 : 100 <= r * 100) by lra.
    pose proof (fl_monotone _ _ H2) as M2. lra. }
  assert (D : T <= d -> fl (r * 100) <= 100).
  { intros H.
    assert (H1 : T / d <= 1) by (apply Qle_shift_div_r; lra).
    pose proof (fl_monotone _ _ H1) as M. fold r in M.
    assert (H2 : r * 100 <= 100) by lra.
    pose proof (fl_monotone _ _ H2) as M2. lra. }
  assert (B : T < d -> fl (r * 100) < 100).
  { intros H.
    destruct (Qlt_le_dec T 0) as [Neg|Pos].
    - assert (H1 : T / d <= 0).
      { apply Qle_shift_div_r; lra. }
      pose proof (fl_nonpos _ H1) as M. fold r in M.
      assert (H2 : r * 100 <= 0) by lra.
      pose proof (fl_nonpos _ H2). lra.
    - pose proof (format_gap T d FT Fd Pos H) as G.
      assert (H1 : T / d <= 1 - u).
      { apply Qle_shift_div_r; [exact Hd | exact G]. }
      pose proof (fl_monotone _ _ H1) as M. fold r in M.
      assert (C1 : fl (1 - u) == 1 - u) by reflexivity.
      assert (H2 : r * 100 <= (1 - u) * 100) by lra.
      pose proof (fl_monotone _ _ H2) as M2.
      assert (C2 : fl ((1 - u) * 100) < 100) by reflexivity.
      lra. }
  assert (C : d < T -> 100 < fl (r * 100)).
  { intros H.
    pose proof (format_gap d T Fd FT ltac:(lra) H) as G.
    assert (H1 : 9007199254740992 # 9007199254740991 <= T / d).
    { apply Qle_shift_div_l; [exact Hd|]. u_num. lra. }
    pose proof (fl_monotone _ _ H1) as M. fold r in M.
    assert (C1 : fl (9007199254740992 # 9007199254740991) == 1 + 2 * u)
      by reflexivity.
    assert (H2 : (1 + 2 * u) * 100 <= r * 100) by lra.
    pose proof (fl_monotone _ _ H2) as M2.
    assert (C2 : 100 < fl ((1 + 2 * u) * 100)) by reflexivity.
    lra. }
  split; split; intros H.
  - destruct (Qlt_le_dec T d) as [L|L]; [|exact L]. specialize (B L). lra.
  - apply A, H.
  - destruct (Qlt_le_dec d T) as [L|L]; [exact L|]. specialize (D L). lra.
  - apply C, H.
Qed.

(** C9. The footage tracker adds the clip durations from the left,
    rounding each sum, takes that total's share of the song in percent
    with the quotient and the product rounded (0 while no song is loaded),
    the time still to fill (never below 0) and the flags done (share >=
    100) and over (share > 100); the fill bar gets the share clamped to 100
    and the label the share rounded to an integer, unclamped.  For a song
    duration of the format the rounding never shows in the flags: done
    holds exactly when the total reaches the duration and over exactly when
    it exceeds it.  120 s and 80 s of clips against a 180 s song give a
    share labelled 111, over, with the fill bar at 100. *)
Theorem updateFootageTracker_rounded (s : Engine.State) :
  let f := Engine.footage s in
  let view := Engine.updateFootageTracker s in
  totalClip f = sum64 (Engine.clips s) /\
  format (totalClip f) /\
  (forall d, Engine.duration s = Some d -> 0 < d ->
     songDur f = d /\
     rawPct f = Binary64.mul (Binary64.div (totalClip f) d) 100 /\
     (format d ->
      (done f = true <-> d <= totalClip f) /\
      (over f = true <-> d < totalClip f))) /\
  (Engine.duration s = None -> songDur f = 0 /\ rawPct f = 0) /\
  remaining f == Qmax (Binary64.sub (songDur f) (totalClip f)) 0 /\
  (done f = true <-> 100 <= rawPct f) /\
  (over f = true <-> 100 < rawPct f) /\
  footageFill_width view == Qmin (rawPct f) 100 /\
  footagePct_text view = JS.Math_round (rawPct f) /\
  (let s' := Engine.session_with (Some 180) [clip_of 120; clip_of 80] in
   totalClip (Engine.footage s') = 200 /\
   rawPct (Engine.footage s') = fl (fl (200 / 180) * 100) /\
   Qabs (rawPct (Engine.footage s') - (1000 # 9)) <= 1 # 1000000000000 /\
   footagePct_text (Engine.updateFootageTracker s') = 111 /\
   over (Engine.footage s') = true /\
   footageFill_width (Engine.updateFootageTracker s') = 100).
Proof.
  intros f view.
  split; [reflexivity|].
  split; [apply sum64_format|].
  split.
  { intros d Hd Hpos. unfold f, Engine.footage; cbn [songDur rawPct totalClip done over].
    rewrite Hd.
    assert (Hz : Qeq_bool d 0 = false).
    { apply not_true_iff_false. intros H. apply Qeq_bool_iff in H. lra. }
    cbn [JS.or_default]. rewrite Hz.
    split; [reflexivity|].
    pose proof (proj2 (ltb_lt 0 d) Hpos) as L. rewrite L.
    split; [reflexivity|].
    intros Fd. fold (sum64 (Engine.clips s)).
    destruct (percent_flags (sum64 (Engine.clips s)) d Hpos Fd
                            (sum64_format _)) as [P1 P2].
    cbn zeta in P1, P2.
    split.
    - rewrite leb_le. exact P1.
    - rewrite ltb_lt. exact P2. }
  split.
  { intros Hd. unfold f, Engine.footage; cbn [songDur rawPct]. rewrite Hd.
    split; reflexivity. }
  split.
  { unfold f, Engine.footage; cbn [remaining songDur totalClip].
    apply Math_max_Qmax. }
  split; [apply leb_le|].
  split; [apply ltb_lt|].
  split; [apply Math_min_Qmin|].
  split; [reflexivity|].
  vm_compute. repeat split; try reflexivity; discriminate.
Qed.

(** The durations 0.1 and 20.9 as binary64 numbers add up to less than 21,
    yet their rounded sum is 21: against a 21 s song the tracker is done
    although the exact share is below 100. *)
Lemma footage_sum_rounds :
  totalClip (Engine.footage
               (Engine.session_with (Some 21)
                  [clip_of (fl (1 # 10)); clip_of (fl (209 # 10))])) = 21 /\
  clip_sum [clip_of (fl (1 # 10)); clip_of (fl (209 # 10))] < 21 /\
  rawPct (Engine.footage
            (Engine.session_with (Some 21)
               [clip_of (fl (1 # 10)); clip_of (fl (209 # 10))])) = 100 /\
  clip_sum [clip_of (fl (1 # 10)); clip_of (fl (209 # 10))] / 21 * 100 < 100 /\
  done (Engine.footage
          (Engine.session_with (Some 21)
             [clip_of (fl (1 # 10)); clip_of (fl (209 # 10))])) = true.
Proof. vm_compute. repeat split; reflexivity. Qed.

(** ** Stored times and the grid *)


(** ** Agreement with the primitive binary64 numbers *)



Example hardware_quarter_58 :
  Hardware.to_Q (PrimFloat.div (Hardware.of_Z 60) (Hardware.of_Z 58))
  = Some (Binary64.div 60 58).
Proof. vm_compute. reflexivity. Qed.

Example hardware_sum_21 :
  Hardware.to_Q
    (PrimFloat.add (PrimFloat.div (Hardware.of_Z 1) (Hardware.of_Z 10))
                   (PrimFloat.div (Hardware.of_Z 209) (Hardware.of_Z 10)))
  = Some (Binary64.add (Binary64.div 1 10) (Binary64.div 209 10)).
Proof. vm_compute. reflexivity. Qed.

Example hardware_index_58 :
  Hardware.to_Q
    (PrimFloat.div
       (PrimFloat.div (Hardware.of_Z 15) (Hardware.of_Z 2))
       (PrimFloat.div (PrimFloat.div (Hardware.of_Z 60) (Hardware.of_Z 58))
                      (Hardware.of_Z 2)))
  = Some (Binary64.div (15 # 2) (eighth_note (Engine.calcGrid 58))).
Proof. vm_compute. reflexivity. Qed.

Example hardware_beats_42 :
  Hardware.to_Q
    (PrimFloat.div (Hardware.of_Z 60)
                   (PrimFloat.div (Hardware.of_Z 60) (Hardware.of_Z 42)))
  = Some (Binary64.div 60 (quarter_note (Engine.calcGrid 42))).
Proof. vm_compute. reflexivity. Qed.

Example hardware_product :
  Hardware.to_Q
    (PrimFloat.mul (Hardware.of_Z 28)
                   (PrimFloat.div (Hardware.of_Z 60) (Hardware.of_Z 58)))
  = Some (Binary64.mul 28 (quarter_note (Engine.calcGrid 58))).
Proof. vm_compute. reflexivity. Qed.

Example hardware_difference :
  Hardware.to_Q
    (PrimFloat.sub (Hardware.of_Z 21)
                   (PrimFloat.div (Hardware.of_Z 209) (Hardware.of_Z 10)))
  = Some (Binary64.sub 21 (Binary64.div 209 10)).
Proof. vm_compute. reflexivity. Qed.

(** ** Tokens *)

Lemma nonempty_rev (s : Engine.text) :
  Engine.nonempty (rev s) = Engine.nonempty s.
Proof.
  destruct s as [|c s]; [reflexivity|]. cbn [rev Engine.nonempty].
  destruct (rev s); reflexivity.
Qed.

Lemma split_go_runs (in_ws : bool) (cur s : Engine.text) :
  (in_ws = true -> cur = []) ->
  filter Engine.nonempty (Engine.split_go in_ws cur s) = runs cur s.
Proof.
  revert in_ws cur. induction s as [|c s IH]; intros in_ws cur H;
    cbn [Engine.split_go runs filter].
  - rewrite nonempty_rev. reflexivity.
  - destruct (Engine.is_space c).
    + destruct in_ws.
      * rewrite (H eq_refl). cbn [Engine.nonempty]. apply IH. reflexivity.
      * cbn [filter]. rewrite nonempty_rev, (IH true []) by reflexivity.
        reflexivity.
    + apply IH. discriminate.
Qed.

Lemma runs_spaces (cur sp : Engine.text) :
  Forall (fun c => Engine.is_space c = true) sp -> runs cur sp = runs cur [].
Proof.
  intros H. revert cur. induction H as [|c sp Hc _ IH]; intros cur;
    [reflexivity|].
  cbn [runs]. rewrite Hc, (IH []). reflexivity.
Qed.

Lemma runs_app_spaces (cur a sp : Engine.text) :
  Forall (fun c => Engine.is_space c = true) sp ->
  runs cur (a ++ sp) = runs cur a.
Proof.
  intros H. revert cur. induction a as [|c a IH]; intros cur.
  - apply runs_spaces, H.
  - cbn [app runs]. destruct (Engine.is_space c); rewrite ?IH; reflexivity.
Qed.

Lemma trimStart_spec (s : Engine.text) :
  exists sp, Forall (fun c => Engine.is_space c = true) sp /\
             s = sp ++ Engine.trimStart s.
Proof.
  induction s as [|c s (sp & Hsp & E)]; cbn [Engine.trimStart].
  - exists []. split; [constructor | reflexivity].
  - destruct (Engine.is_space c) eqn:Ec.
    + exists (c :: sp). split; [constructor; assumption|].
      cbn [app]. rewrite <- E. reflexivity.
    + exists []. split; [constructor | reflexivity].
Qed.

Lemma trimEnd_spec (s : Engine.text) :
  exists sp, Forall (fun c => Engine.is_space c = true) sp /\
             s = Engine.trimEnd s ++ sp.
Proof.
  destruct (trimStart_spec (rev s)) as (sp & Hsp & E).
  exists (rev sp). split.
  - apply Forall_rev, Hsp.
  - unfold Engine.trimEnd. rewrite <- rev_app_distr, <- E, rev_involutive.
    reflexivity.
Qed.

Lemma runs_trimStart (s : Engine.text) : runs [] (Engine.trimStart s) = runs [] s.
Proof.
  induction s as [|c s IH]; cbn [Engine.trimStart]; [reflexivity|].
  destruct (Engine.is_space c) eqn:Ec; [|reflexivity].
  cbn [runs]. rewrite Ec. exact IH.
Qed.

Lemma tokens_runs (t : Engine.text) : Engine.tokens t = runs [] t.
Proof.
  unfold Engine.tokens, Engine.split_ws, Engine.trim.
  rewrite split_go_runs by discriminate.
  destruct (trimEnd_spec (Engine.trimStart t)) as (sp & Hsp & E).
  rewrite <- (runs_app_spaces [] _ sp Hsp), <- E. apply runs_trimStart.
Qed.

Lemma runs_concat (cur s : Engine.text) :
  List.concat (runs cur s) = rev cur ++ strip s.
Proof.
  revert cur. induction s as [|c s IH]; intros cur; cbn [runs strip filter].
  - destruct cur as [|a cur]; cbn [Engine.nonempty List.concat rev app].
    + reflexivity.
    + rewrite !app_nil_r. reflexivity.
  - destruct (Engine.is_space c); cbn [negb].
    + destruct cur as [|a cur]; cbn [Engine.nonempty List.concat].
      * rewrite IH. reflexivity.
      * rewrite IH. reflexivity.
    + rewrite IH. cbn [rev]. rewrite <- app_assoc. reflexivity.
Qed.

Lemma runs_clean (cur s : Engine.text) :
  Forall (fun c => Engine.is_space c = false) cur ->
  Forall (fun w => w <> [] /\ Forall (fun c => Engine.is_space c = false) w)
         (runs cur s).
Proof.
  revert cur. induction s as [|c s IH]; intros cur H; cbn [runs].
  - destruct cur as [|a cur]; cbn [Engine.nonempty]; constructor; [|constructor].
    split; [|apply Forall_rev, H].
    intros E. apply (f_equal (@List.length _)) in E.
    rewrite length_rev in E. discriminate.
  - destruct (Engine.is_space c) eqn:Ec.
    + destruct cur as [|a cur]; cbn [Engine.nonempty].
      * apply IH. constructor.
      * constructor; [|apply IH; constructor].
        split; [|apply Forall_rev, H].
        intros E. apply (f_equal (@List.length _)) in E.
        rewrite length_rev in E. discriminate.
    + apply IH. constructor; assumption.
Qed.

Lemma runs_split (cur a rest : Engine.text) (c : Z) :
  Engine.is_space c = true ->
  runs cur (a ++ c :: rest) = runs cur a ++ runs [] rest.
Proof.
  intros Hc. revert cur. induction a as [|x a IH]; intros cur; cbn [app runs].
  - rewrite Hc. destruct (Engine.nonempty cur); reflexivity.
  - destruct (Engine.is_space x).
    + destruct (Engine.nonempty cur); cbn [app]; rewrite IH; reflexivity.
    + apply IH.
Qed.

Lemma runs_single (cur s : Engine.text) :
  Forall (fun c => Engine.is_space c = false) s ->
  Engine.nonempty (rev cur ++ s) = true ->
  runs cur s = [rev cur ++ s].
Proof.
  intros H. revert cur. induction H as [|c s Hc _ IH]; intros cur Hne;
    cbn [runs].
  - rewrite app_nil_r in *. rewrite nonempty_rev in Hne. rewrite Hne.
    reflexivity.
  - rewrite Hc. rewrite IH.
    + cbn [rev]. rewrite <- app_assoc. reflexivity.
    + cbn [rev]. rewrite <- app_assoc. cbn [app]. exact Hne.
Qed.

Lemma strip_fixed (t : Engine.text) :
  strip t = t -> Forall (fun c => Engine.is_space c = false) t.
Proof.
  intros E. rewrite <- E. unfold strip. apply Forall_forall.
  intros c Hc. apply filter_In in Hc. destruct Hc as [_ Hc].
  apply negb_true_iff in Hc. exact Hc.
Qed.

(** X5. Tokenizing a pasted text loses nothing but white space: the tokens
    written one after the other are the text with its white space removed,
    in the same order; no token is empty or holds white space; there is no
    token at all exactly when the text is blank; a text without white space
    is its own single token; and a white-space code unit splits: the
    tokens of [t c rest] are those of [t] followed by those of [rest].
    White space is that of [\s] over UTF-16 code units. *)
Theorem tokens_partition (t : Engine.text) :
  List.concat (Engine.tokens t) = strip t /\
  Forall (fun w => w <> [] /\ Forall (fun c => Engine.is_space c = false) w)
         (Engine.tokens t) /\
  (Engine.tokens t = [] <-> strip t = []) /\
  (t <> [] -> strip t = t -> Engine.tokens t = [t]) /\
  (forall (c : Z) (rest : Engine.text),
     Engine.is_space c = true ->
     Engine.tokens (t ++ c :: rest) = Engine.tokens t ++ Engine.tokens rest).
Proof.
  assert (Hc : List.concat (Engine.tokens t) = strip t).
  { rewrite tokens_runs, runs_concat. reflexivity. }
  assert (Hf : Forall (fun w => w <> [] /\
                                Forall (fun c => Engine.is_space c = false) w)
                      (Engine.tokens t)).
  { rewrite tokens_runs. apply runs_clean. constructor. }
  split; [exact Hc|]. split; [exact Hf|]. split; [|split].
  - split; intros E.
    + rewrite <- Hc, E. reflexivity.
    + destruct (Engine.tokens t) as [|w l]; [reflexivity|].
      inversion Hf as [|? ? [Hw _] _]; subst.
      rewrite <- Hc in E. cbn [List.concat] in E.
      destruct w; [contradiction | discriminate].
  - intros Hne Hs. rewrite tokens_runs.
    rewrite (runs_single [] t (strip_fixed t Hs)); [reflexivity|].
    cbn [rev app]. destruct t; [contradiction | reflexivity].
  - intros c rest Hsp. rewrite !tokens_runs. apply runs_split, Hsp.
Qed.

(** An ideographic space (U+3000), an em space (U+2003) and a byte-order
    mark (U+FEFF) separate words like a blank does. *)
Example tokens_unicode_spaces :
  Engine.tokens [32; 104; 105; 12288; 111; 8195; 160; 120; 65279]%Z
  = [[104; 105]; [111]; [120]]%Z.
Proof. reflexivity. Qed.

(** ** What the footage tracker shows *)

(** Every number of the format is a whole multiple of the smallest positive
    one. *)
Lemma format_grid (x : Q) :
  format x -> exists k : Z, x == inject_Z k * pow2 emin.
Proof.
  intros (m & e & _ & He & E).
  exists (m * 2 ^ (e - emin))%Z.
  rewrite E, (pow2_split e emin He), inject_Z_mult. ring.
Qed.

(** Two different numbers of the format differ by at least the smallest
    positive one, and so does their rounded difference. *)
Lemma sub_positive (x y : Q) :
  format x -> format y -> y < x -> pow2 emin <= Binary64.sub x y.
Proof.
  intros Fx Fy L.
  destruct (format_grid x Fx) as (a & Ea).
  destruct (format_grid y Fy) as (b & Eb).
  pose proof (pow2_pos emin) as P.
  assert (Hab : (b < a)%Z).
  { destruct (Z_lt_le_dec b a) as [H|H]; [exact H|].
    exfalso. rewrite Zle_Qle in H.
    assert (inject_Z a * pow2 emin <= inject_Z b * pow2 emin)
      by (apply Qmult_le_compat_r; lra).
    lra. }
  assert (H1 : pow2 emin <= x - y).
  { assert (H : (1 + b <= a)%Z) by lia.
    rewrite Zle_Qle, inject_Z_plus in H.
    change (inject_Z 1) with 1 in H.
    assert (1 * pow2 emin <= (inject_Z a - inject_Z b) * pow2 emin)
      by (apply Qmult_le_compat_r; lra).
    rewrite Ea, Eb. lra. }
  unfold Binary64.sub.
  pose proof (fl_monotone _ _ H1) as M.
  assert (F : fl (pow2 emin) == pow2 emin) by reflexivity.
  lra.
Qed.

(** X16. With a song of [d] seconds loaded, what the tracker shows follows
    the rounded total [T] of the clip durations and nothing else: the
    remaining time reads FULL exactly when [T] reaches [d]; short of that
    it is the rounded difference [d - T], which is then positive; the fill
    bar is classed over when [T] exceeds [d], done when it equals [d] and
    plain below.  Without a song the remaining time is a dash whatever the
    clips.  Clips of 0.1 s and 20.9 s fill a 21 s song. *)
Theorem footage_labels (s : Engine.State) (d : Q)
  (Hd : Engine.duration s = Some d) (Hpos : 0 < d) (Fd : format d) :
  let T := sum64 (Engine.clips s) in
  let view := Engine.updateFootageTracker s in
  (footageRemaining_text view = Full <-> d <= T) /\
  (footageRemaining_class view = "footage-remaining done"%string <-> d <= T) /\
  (T < d ->
   footageRemaining_text view = Left (Engine.fmtSec (Binary64.sub d T)) /\
   remaining (Engine.footage s) = Binary64.sub d T /\
   0 < Binary64.sub d T) /\
  (footageFill_class view = "footage-fill over"%string <-> d < T) /\
  (footageFill_class view = "footage-fill done"%string <-> d == T) /\
  (footageFill_class view = "footage-fill"%string <-> T < d) /\
  (forall cs,
     footageRemaining_text
       (Engine.updateFootageTracker (Engine.session_with None cs)) = Dash) /\
  footageRemaining_text
    (Engine.updateFootageTracker
       (Engine.session_with (Some 21)
          [clip_of (fl (1 # 10)); clip_of (fl (209 # 10))])) = Full.
Proof.
  intros T view.
  destruct (percent_flags T d Hpos Fd (sum64_format _)) as [P1 P2].
  cbn zeta in P1, P2.
  assert (Hz : Qeq_bool d 0 = false).
  { apply not_true_iff_false. intros H. apply Qeq_bool_iff in H. lra. }
  pose proof (proj2 (ltb_lt 0 d) Hpos) as L0.
  assert (Edone : done (Engine.footage s) = true <-> d <= T).
  { unfold Engine.footage; cbn [done]. rewrite Hd. cbn [JS.or_default].
    rewrite Hz, L0. fold (sum64 (Engine.clips s)). fold T.
    rewrite leb_le. exact P1. }
  assert (Eover : over (Engine.footage s) = true <-> d < T).
  { unfold Engine.footage; cbn [over]. rewrite Hd. cbn [JS.or_default].
    rewrite Hz, L0. fold (sum64 (Engine.clips s)). fold T.
    rewrite ltb_lt. exact P2. }
  assert (Esong : songDur (Engine.footage s) = d).
  { unfold Engine.footage; cbn [songDur]. rewrite Hd. cbn [JS.or_default].
    rewrite Hz. reflexivity. }
  assert (Erem : T < d -> remaining (Engine.footage s) = Binary64.sub d T /\
                          0 < Binary64.sub d T).
  { intros Lt.
    pose proof (sub_positive d T Fd (sum64_format _) Lt) as Sp.
    pose proof (pow2_pos emin) as Pp.
    split; [|lra].
    unfold Engine.footage; cbn [remaining]. rewrite Hd. cbn [JS.or_default].
    rewrite Hz. fold (sum64 (Engine.clips s)). fold T.
    unfold JS.Math_max.
    destruct (Qle_bool (Binary64.sub d T) 0) eqn:Eb; [|reflexivity].
    apply Qle_bool_iff in Eb. lra. }
  unfold view, Engine.updateFootageTracker.
  cbn [footageRemaining_text footageRemaining_class footageFill_class].
  rewrite Esong, L0.
  destruct (done (Engine.footage s)) eqn:Dn;
    destruct (over (Engine.footage s)) eqn:Ov.
  - pose proof (proj1 Edone eq_refl) as H1.
    pose proof (proj1 Eover eq_refl) as H2.
    repeat split; try (intros; assumption); try reflexivity;
      try discriminate; try (intros; exfalso; lra).
  - pose proof (proj1 Edone eq_refl) as H1.
    assert (H2 : ~ d < T) by (intros H; apply Eover in H; discriminate).
    repeat split; try (intros; assumption); try reflexivity;
      try discriminate; try (intros; exfalso; lra); try (intros; lra).
  - assert (H1 : ~ d <= T) by (intros H; apply Edone in H; discriminate).
    pose proof (proj1 Eover eq_refl) as H2.
    exfalso. lra.
  - assert (H1 : ~ d <= T) by (intros H; apply Edone in H; discriminate).
    assert (H2 : ~ d < T) by (intros H; apply Eover in H; discriminate).
    repeat split; try discriminate; try reflexivity;
      try (intros; exfalso; lra); try (intros; lra).
    all: destruct (Erem ltac:(assumption)) as [E E'];
      first [rewrite E; reflexivity | exact E | exact E'].
Qed.

(** A 21 s song with clips of 0.1 s and 20.9 s. *)
Lemma footage_labels_witness :
  footageRemaining_text
    (Engine.updateFootageTracker
       (Engine.session_with (Some 21)
          [clip_of (fl (1 # 10)); clip_of (fl (209 # 10))])) = Full
  <-> 21 <= sum64 [clip_of (fl (1 # 10)); clip_of (fl (209 # 10))].
Proof.
  refine (proj1 (footage_labels
            (Engine.session_with (Some 21)
               [clip_of (fl (1 # 10)); clip_of (fl (209 # 10))])
            21 eq_refl _ _)).
  - reflexivity.
  - apply format_Z. reflexivity.
Defined.

(** ** Canvas geometry *)

(** An integer rounds to an integer. *)
Lemma fl_integer (N : Z) : exists n : Z, fl (inject_Z N) == inject_Z n.
Proof.
  destruct (Z_lt_le_dec (Z.abs N) (2 ^ 53)) as [H|H].
  - exists N. apply fl_id, format_Z, H.
  - set (x := inject_Z N).
    assert (Hx : pow2 53 <= Qabs x).
    { unfold x. rewrite Qabs_inject_Z. rewrite Zle_Qle in H.
      rewrite (pow2_nonneg_Z 53) by lia. exact H. }
    assert (Hnz : ~ x == 0).
    { intros E. rewrite E in Hx. pose proof (pow2_pos 53).
      change (Qabs 0) with 0 in Hx. lra. }
    destruct (ilog2_spec x Hnz) as [_ Hi].
    assert (L : pow2 53 < pow2 (ilog2 x + 1)) by lra.
    apply pow2_lt_inv in L.
    assert (Hf : (0 <= fexp x)%Z) by (unfold fexp; lia).
    exists (rne (x / pow2 (fexp x)) * 2 ^ fexp x)%Z.
    rewrite inject_Z_mult, <- (pow2_nonneg_Z _ Hf). apply fl_eq.
Qed.

Lemma Qdiv_nonneg (a b : Q) : 0 <= a -> 0 <= b -> 0 <= a / b.
Proof.
  intros Ha Hb. unfold Qdiv. apply Qmult_le_0_compat; [exact Ha|].
  apply Qinv_le_0_compat, Hb.
Qed.

(** X20. With a tempo [b > 0] and a duration [d > 0] set, the canvas is a
    whole number of pixels wide, 60 or more: the quotient of the duration
    by the quarter note, times 30, each rounded, then rounded up to an
    integer, plus 60 (exactly so below 2^53).  A time maps to the canvas
    in proportion: 0 to the left edge, the duration to the right edge,
    later times never further left, and every time of the song into the
    canvas.  30 s at tempo 120 take 1860 pixels, 60 s at tempo 58 take
    1800, and 5 s at tempo 50 take 186, one more than the 185 of the
    unrounded product; without a song the canvas is 800 pixels wide. *)
Theorem canvas_pixels (s : Engine.State) (b d : Q)
  (Hb : Engine.bpm s = Some b) (Hd : Engine.duration s = Some d)
  (Hbpos : 0 < b) (Hdpos : 0 < d) :
  let w := Engine.canvasWidth s in
  let beats := Binary64.mul (Binary64.div d (Binary64.div 60 b)) 30 in
  w = Binary64.add (Math_ceil beats) 60 /\
  (exists n : Z, w == inject_Z n /\ (60 <= n)%Z) /\
  ((Qceiling beats + 60 < 2 ^ 53)%Z -> w == inject_Z (Qceiling beats + 60)) /\
  Engine.timeToX s 0 == 0 /\
  Engine.timeToX s d == w /\
  (forall t1 t2, t1 <= t2 -> Engine.timeToX s t1 <= Engine.timeToX s t2) /\
  (forall t, 0 <= t -> t <= d ->
     0 <= Engine.timeToX s t /\ Engine.timeToX s t <= w) /\
  Engine.canvasWidth (Engine.session_at 120 30 []) = 1860 /\
  Engine.canvasWidth (Engine.session_at 58 60 []) = 1800 /\
  Engine.canvasWidth (Engine.session_at 50 5 []) = 186 /\
  Math_ceil (5 / (60 / 50) * 30) + 60 == 185 /\
  (forall cs, Engine.canvasWidth (Engine.session_with None cs) = 800).
Proof.
  intros w beats.
  assert (Zb : Qeq_bool b 0 = false).
  { apply not_true_iff_false. intros H. apply Qeq_bool_iff in H. lra. }
  assert (Zd : Qeq_bool d 0 = false).
  { apply not_true_iff_false. intros H. apply Qeq_bool_iff in H. lra. }
  assert (Ew : w = Binary64.add (Math_ceil beats) 60).
  { unfold w, Engine.canvasWidth. rewrite Hb, Hd. cbn [JS.truthy num].
    rewrite Zb, Zd. reflexivity. }
  assert (Hbeats : 0 <= beats).
  { unfold beats, Binary64.mul, Binary64.div.
    apply fl_nonneg. apply Qmult_le_0_compat; [|lra].
    apply fl_nonneg, Qdiv_nonneg; [lra|].
    apply fl_nonneg, Qdiv_nonneg; lra. }
  assert (Hc : (0 <= Qceiling beats)%Z).
  { pose proof (Qle_ceiling beats) as H.
    rewrite Zle_Qle. change (inject_Z 0) with 0. lra. }
  assert (Esum : Math_ceil beats + 60 == inject_Z (Qceiling beats + 60)).
  { unfold Math_ceil. rewrite inject_Z_plus. reflexivity. }
  assert (Fw : format w) by (rewrite Ew; apply fl_format).
  assert (Hw60 : 60 <= w).
  { rewrite Ew. unfold Binary64.add.
    assert (H : 60 <= Math_ceil beats + 60).
    { unfold Math_ceil. rewrite Zle_Qle in Hc.
      change (inject_Z 0) with 0 in Hc. lra. }
    pose proof (fl_monotone _ _ H) as M.
    assert (F : fl 60 == 60) by reflexivity. lra. }
  assert (Ed : num (Engine.duration s) = d) by (rewrite Hd; reflexivity).
  assert (Mono : forall t1 t2, t1 <= t2 ->
                               Engine.timeToX s t1 <= Engine.timeToX s t2).
  { intros t1 t2 Ht. unfold Engine.timeToX, Binary64.mul, Binary64.div.
    rewrite Ed. fold w.
    apply fl_monotone. apply Qmult_le_compat_r; [|lra].
    apply fl_monotone. unfold Qdiv. apply Qmult_le_compat_r; [exact Ht|].
    apply Qinv_le_0_compat. lra. }
  assert (E0 : Engine.timeToX s 0 == 0).
  { unfold Engine.timeToX, Binary64.mul, Binary64.div. rewrite Ed.
    rewrite (fl_zero (0 / d)) by (field; lra).
    rewrite (fl_zero (0 * _)) by ring. reflexivity. }
  assert (E1 : Engine.timeToX s d == w).
  { unfold Engine.timeToX, Binary64.mul, Binary64.div. rewrite Ed. fold w.
    rewrite (fl_Qeq (d / d) 1) by (field; lra).
    change (fl 1) with 1.
    rewrite (fl_Qeq (1 * w) w) by ring. apply fl_id, Fw. }
  split; [exact Ew|].
  split.
  { destruct (fl_integer (Qceiling beats + 60)) as (n & En).
    exists n.
    assert (E : w == inject_Z n).
    { rewrite Ew. unfold Binary64.add. rewrite (fl_Qeq _ _ Esum). exact En. }
    split; [exact E|].
    rewrite Zle_Qle. change (inject_Z 60) with 60. rewrite <- E. exact Hw60. }
  split.
  { intros Hlt. rewrite Ew. unfold Binary64.add. rewrite (fl_Qeq _ _ Esum).
    apply fl_id, format_Z. lia. }
  split; [exact E0|].
  split; [exact E1|].
  split; [exact Mono|].
  split.
  { intros t H0 H1. split.
    - rewrite <- E0. apply Mono, H0.
    - rewrite <- E1. apply Mono, H1. }
  do 4 (split; [vm_compute; reflexivity|]).
  intros cs. reflexivity.
Qed.

(** A three-minute song at tempo 128. *)
Lemma canvas_pixels_witness :
  Engine.canvasWidth (Engine.session_at 128 180 [])
  = Binary64.add
      (Math_ceil (Binary64.mul (Binary64.div 180 (Binary64.div 60 128)) 30))
      60.
Proof.
  refine (proj1 (canvas_pixels (Engine.session_at 128 180 []) 128 180
                               eq_refl eq_refl _ _)); reflexivity.
Defined.

(** ** Grid statistics *)

Lemma format_Z_le (n : Z) : (Z.abs n <= 2 ^ 53)%Z -> format (inject_Z n).
Proof.
  intros H. destruct (Z_lt_le_dec (Z.abs n) (2 ^ 53)) as [L|L].
  - apply format_Z, L.
  - assert (E : Z.abs n = (2 ^ 53)%Z) by lia.
    exists (Z.sgn n), 53%Z. split; [|split].
    + apply Z.le_lt_trans with 1%Z; [|reflexivity]. lia.
    + unfold emin. lia.
    + rewrite (pow2_nonneg_Z 53) by lia. rewrite <- inject_Z_mult.
      rewrite <- E, Z.mul_comm, Z.abs_sgn. reflexivity.
Qed.

(** Doubling commutes with rounding, away from the subnormal numbers. *)
Lemma fl_double (x : Q) : pow2 (-1022) <= x -> fl (2 * x) == 2 * fl x.
Proof.
  intros Hx.
  pose proof (pow2_pos (-1022)) as P.
  assert (Hnz : ~ x == 0) by (intros E; rewrite E in Hx; lra).
  destruct (ilog2_spec x Hnz) as [Slo Shi].
  rewrite Qabs_pos in Slo, Shi by lra.
  assert (I2 : ilog2 (2 * x) = (ilog2 x + 1)%Z).
  { apply ilog2_unique; rewrite Qabs_pos by lra.
    - rewrite pow2_S. lra.
    - rewrite pow2_S. lra. }
  assert (F1 : fexp x = (ilog2 x - 52)%Z).
  { apply fexp_normal. rewrite Qabs_pos by lra. exact Hx. }
  assert (F2 : fexp (2 * x) = (fexp x + 1)%Z).
  { rewrite F1, fexp_normal, I2; [lia|]. rewrite Qabs_pos by lra. lra. }
  rewrite (fl_eq (2 * x)), (fl_eq x), F2.
  set (f := fexp x).
  pose proof (pow2_pos f) as Pf.
  assert (R : rne (2 * x / pow2 (f + 1)) = rne (x / pow2 f)).
  { apply rne_Qeq. rewrite pow2_S. field. lra. }
  rewrite R, pow2_S. ring.
Qed.

Lemma floor_double (y : Q) :
  Qfloor (2 * y) = (2 * Qfloor y)%Z \/ Qfloor (2 * y) = (2 * Qfloor y + 1)%Z.
Proof.
  destruct (floor_bounds y) as [Flo Fhi].
  set (k := Qfloor y) in *.
  destruct (Qlt_le_dec y (inject_Z k + (1 # 2))) as [H|H].
  - left. apply floor_unique; rewrite inject_Z_mult;
      change (inject_Z 2) with 2; lra.
  - right. apply floor_unique; rewrite inject_Z_plus, inject_Z_mult;
      change (inject_Z 2) with 2; change (inject_Z 1) with 1; lra.
Qed.

(** The count beside an interval: the number of whole intervals in the
    song, or one more when the quotient rounds up to an integer. *)
Lemma cuts_count (d iv : Q) :
  0 < d -> 0 < iv -> d / iv < pow2 53 ->
  exists k : Z,
    Engine.cuts d iv = inject_Z k /\ (0 <= k)%Z /\
    (k = Qfloor (d / iv) \/ k = (Qfloor (d / iv) + 1)%Z) /\
    d < (inject_Z k + 1) * iv /\
    inject_Z k * iv <= (1 + u) * d.
Proof.
  intros Hd Hiv Hfit.
  unfold Engine.cuts, JS.Math_floor, Binary64.div.
  set (x := d / iv) in *.
  assert (Hx : 0 < x) by (apply Qlt_shift_div_l; lra).
  assert (Ed : d == x * iv) by (unfold x; field; lra).
  destruct (floor_bounds x) as [Nlo Nhi].
  set (n := Qfloor x) in *.
  assert (Hn0 : (0 <= n)%Z).
  { assert (H : inject_Z (-1) < inject_Z n)
      by (change (inject_Z (-1)) with (-1); lra).
    rewrite <- Zlt_Qlt in H. lia. }
  assert (Hn1 : (n + 1 <= 2 ^ 53)%Z).
  { assert (H : inject_Z n < inject_Z (2 ^ 53)).
    { rewrite <- (pow2_nonneg_Z 53) by lia. lra. }
    rewrite <- Zlt_Qlt in H. lia. }
  assert (Lo : inject_Z n <= fl x).
  { rewrite <- (fl_id (inject_Z n)) by (apply format_Z_le; lia).
    apply fl_monotone, Nlo. }
  assert (Hi : fl x <= inject_Z n + 1).
  { rewrite <- inject_Z_succ.
    rewrite <- (fl_id (inject_Z (n + 1))) by (apply format_Z_le; lia).
    apply fl_monotone. rewrite inject_Z_succ. lra. }
  destruct (floor_bounds (fl x)) as [Klo Khi].
  set (k := Qfloor (fl x)) in *.
  assert (Hk : k = n \/ k = (n + 1)%Z).
  { assert (H1 : inject_Z n < inject_Z (k + 1))
      by (rewrite inject_Z_succ; lra).
    assert (H2 : inject_Z k < inject_Z (n + 2)).
    { rewrite inject_Z_plus. change (inject_Z 2) with 2. lra. }
    rewrite <- Zlt_Qlt in H1, H2. lia. }
  exists k. split; [reflexivity|].
  split; [lia|]. split; [exact Hk|].
  assert (Kn : inject_Z n <= inject_Z k) by (rewrite <- Zle_Qle; lia).
  split.
  - rewrite Ed. apply Qmult_lt_compat_r; [exact Hiv | lra].
  - assert (B : inject_Z k <= (1 + u) * x).
    { destruct (Qlt_le_dec x (pow2 (-1022))) as [S|S].
      - assert (E : fl (pow2 (-1022)) == pow2 (-1022)) by reflexivity.
        assert (L1 : pow2 (-1022) < 1) by reflexivity.
        assert (M : fl x <= fl (pow2 (-1022))) by (apply fl_monotone; lra).
        assert (H : inject_Z k < inject_Z 1)
          by (change (inject_Z 1) with 1; lra).
        rewrite <- Zlt_Qlt in H.
        assert (k = 0%Z) by lia. subst k.
        replace (Qfloor (fl x)) with 0%Z by lia.
        change (inject_Z 0) with 0. u_num. nra.
      - pose proof (fl_error_pos x S) as Er.
        apply Qabs_Qle_condition in Er. lra. }
    rewrite Ed.
    assert (E : (1 + u) * (x * iv) == (1 + u) * x * iv) by ring.
    rewrite E. apply Qmult_le_compat_r; lra.
Qed.

(** Halving the interval doubles the count, or gives one more. *)
Lemma cuts_half (d iv fine : Q) :
  0 < d -> 0 < iv -> fine == iv / 2 ->
  Engine.cuts d fine == 2 * Engine.cuts d iv \/
  Engine.cuts d fine == 2 * Engine.cuts d iv + 1.
Proof.
  intros Hd Hiv Hf.
  unfold Engine.cuts, JS.Math_floor, Binary64.div.
  assert (E : d / fine == 2 * (d / iv)) by (rewrite Hf; field; lra).
  rewrite (fl_Qeq _ _ E).
  set (x := d / iv).
  assert (Hx : 0 < x) by (apply Qlt_shift_div_l; lra).
  destruct (Qlt_le_dec x (pow2 (-1022))) as [S|S].
  - left.
    assert (E1 : fl (pow2 (-1022)) == pow2 (-1022)) by reflexivity.
    assert (E2 : fl (2 * pow2 (-1022)) == 2 * pow2 (-1022)) by reflexivity.
    assert (L1 : 2 * pow2 (-1022) < 1) by reflexivity.
    assert (M1 : fl x <= fl (pow2 (-1022))) by (apply fl_monotone; lra).
    assert (M2 : fl (2 * x) <= fl (2 * pow2 (-1022)))
      by (apply fl_monotone; lra).
    assert (P1 : 0 <= fl x) by (apply fl_nonneg; lra).
    assert (P2 : 0 <= fl (2 * x)) by (apply fl_nonneg; lra).
    rewrite (floor_unique (fl x) 0), (floor_unique (fl (2 * x)) 0);
      change (inject_Z 0) with 0; lra.
  - assert (Q2 : Qfloor (fl (2 * x)) = Qfloor (2 * fl x)).
    { apply Qfloor_comp, fl_double, S. }
    rewrite Q2.
    destruct (floor_double (fl x)) as [H|H]; [left|right]; rewrite H.
    + rewrite inject_Z_mult. reflexivity.
    + rewrite inject_Z_plus, inject_Z_mult. reflexivity.
Qed.

(** The intervals of the grid for an ordinary tempo: positive, each twice
    the next finer one. *)
Lemma grid_ratios (b : Q) :
  pow2 (-1000) <= b -> b <= pow2 1000 ->
  let g := Engine.calcGrid b in
  0 < quarter_note g /\
  eighth_note g == quarter_note g / 2 /\
  half_note g == 2 * quarter_note g /\
  downbeat_whole g == 4 * quarter_note g.
Proof.
  intros Hlo Hhi.
  destruct (quotient_range b Hlo Hhi) as (Hb & Ylo & Yhi).
  cbn zeta. unfold Engine.calcGrid.
  cbn [quarter_note eighth_note half_note downbeat_whole].
  unfold Binary64.div, Binary64.mul.
  set (y := 60 / b) in *.
  assert (P1 : pow2 (-1022) <= pow2 (-1000)) by (apply pow2_le; lia).
  assert (P2 : 0 < pow2 (-1022)) by apply pow2_pos.
  assert (Ny : pow2 (-1022) <= y) by lra.
  pose proof (fl_format y) as Fq.
  pose proof (fl_lower y Ny) as Lq.
  set (q := fl y) in *.
  assert (Hq : pow2 (-1021) <= q).
  { assert (E : pow2 (-1021) == 2 * pow2 (-1022)) by reflexivity.
    assert (E2 : pow2 (-1000) == 4194304 * pow2 (-1022)) by reflexivity.
    u_num. lra. }
  assert (Pq : 0 < pow2 (-1021)) by apply pow2_pos.
  split; [lra|]. split; [|split].
  - apply fl_id, format_half; [exact Fq|].
    rewrite Qabs_pos; [exact Hq|]. lra.
  - assert (E : q * 2 == 2 * q) by ring.
    rewrite (fl_Qeq _ _ E). apply fl_id, format_double, Fq.
  - assert (E : q * 4 == 2 * (2 * q)) by ring.
    rewrite (fl_Qeq _ _ E).
    rewrite (fl_id _ (format_double _ (format_double _ Fq))). ring.
Qed.

Lemma cuts_examples :
  option_map Engine.statQuarterCount
             (Engine.updateGridStats (Engine.session_at 42 60 []))
  = Some 42 /\
  60 < 42 * quarter_note (Engine.calcGrid 42) /\
  option_map (fun st => [Engine.statDownbeatCount st; Engine.statHalfCount st;
                         Engine.statQuarterCount st;
                         Engine.statOffbeatCount st])
             (Engine.updateGridStats (Engine.session_at 58 30 []))
  = Some [7; 14; 28; 57] /\
  Qfloor (30 / ((60 / 58) / 2)) = 58%Z.
Proof. repeat split; vm_compute; reflexivity. Qed.

(** The four counts on a grid whose intervals double from one to the
    next. *)
Lemma counts_on_grid (d : Q) (g : Grid) :
  0 < d -> 0 < quarter_note g ->
  eighth_note g == quarter_note g / 2 ->
  half_note g == 2 * quarter_note g ->
  downbeat_whole g == 4 * quarter_note g ->
  d / eighth_note g < pow2 53 ->
  (forall count iv,
     In (count, iv) [(Engine.cuts d (downbeat_whole g), downbeat_whole g);
                     (Engine.cuts d (half_note g), half_note g);
                     (Engine.cuts d (quarter_note g), quarter_note g);
                     (Engine.cuts d (eighth_note g), eighth_note g)] ->
     exists k : Z,
       count = inject_Z k /\ (0 <= k)%Z /\
       count = JS.Math_floor (Binary64.div d iv) /\
       (k = Qfloor (d / iv) \/ k = (Qfloor (d / iv) + 1)%Z) /\
       d < (inject_Z k + 1) * iv /\
       inject_Z k * iv <= (1 + u) * d) /\
  (forall coarse fine,
     In (coarse, fine)
        [(Engine.cuts d (downbeat_whole g), Engine.cuts d (half_note g));
         (Engine.cuts d (half_note g), Engine.cuts d (quarter_note g));
         (Engine.cuts d (quarter_note g), Engine.cuts d (eighth_note g))] ->
     fine == 2 * coarse \/ fine == 2 * coarse + 1).
Proof.
  destruct g as [e q h db].
  cbn [eighth_note quarter_note half_note downbeat_whole].
  intros Hd Hq He0 Hh Hdb Hfit.
  assert (He : e == (1 # 2) * q) by (rewrite He0; field).
  assert (Pe : 0 < e) by lra.
  assert (Fit : forall iv, e <= iv -> d / iv < pow2 53).
  { intros iv Hiv. apply Qle_lt_trans with (d / e); [|exact Hfit].
    apply Qle_shift_div_l; [lra|].
    assert (E : d / iv * e == d * (e / iv)) by (field; lra).
    assert (H1 : e / iv <= 1) by (apply Qle_shift_div_r; lra).
    assert (H2 : d * (e / iv) <= d * 1) by (apply Qmult_le_l; lra).
    lra. }
  split.
  - intros count iv Hin. cbn [In] in Hin.
    assert (G : forall iv0, 0 < iv0 -> e <= iv0 ->
              exists k : Z,
                Engine.cuts d iv0 = inject_Z k /\ (0 <= k)%Z /\
                Engine.cuts d iv0 = JS.Math_floor (Binary64.div d iv0) /\
                (k = Qfloor (d / iv0) \/ k = (Qfloor (d / iv0) + 1)%Z) /\
                d < (inject_Z k + 1) * iv0 /\
                inject_Z k * iv0 <= (1 + u) * d).
    { intros iv0 P L.
      destruct (cuts_count d iv0 Hd P (Fit iv0 L)) as (k & E & K0 & Kn & U & V).
      exists k. repeat split; assumption || reflexivity. }
    destruct Hin as [[= <- <-]|[[= <- <-]|[[= <- <-]|[[= <- <-]|[]]]]];
      apply G; lra.
  - intros coarse fine Hin. cbn [In] in Hin.
    destruct Hin as [[= <- <-]|[[= <- <-]|[[= <- <-]|[]]]];
      apply cuts_half; try assumption; try lra.
    + rewrite Hh, Hdb. field.
    + rewrite Hh. field.
Qed.

(** X19. With a tempo and a song, the statistics panel shows each interval
    to four decimals and beside it a whole number [k >= 0] of cuts: the
    rounded quotient of the duration by the interval, rounded down.  That
    is the number of whole intervals in the song, or one more when the
    quotient rounds up to an integer; in both cases [k + 1] intervals are
    longer than the song and [k] intervals exceed it by no more than the
    rounding unit.  Going one step finer (downbeat, half, quarter, eighth)
    the count doubles or doubles plus one.  A 60 s song at tempo 42 shows
    42 quarter-note cuts although 42 quarter notes take more than 60 s; a
    30 s song at tempo 58 shows 7, 14, 28 and 57 cuts, the eighth note being
    a little longer than the 30/58 s of which 58 would fit. *)
Theorem updateGridStats_counts (s : Engine.State) (b d : Q)
    (Hlo : pow2 (-1000) <= b) (Hhi : b <= pow2 1000) (Hd : 0 < d)
    (Hfit : d / eighth_note (Engine.calcGrid b) < pow2 53)
    (Ebpm : Engine.bpm s = Some b) (Edur : Engine.duration s = Some d)
    (Egrid : Engine.grid s = Some (Engine.calcGrid b)) :
  exists st,
    Engine.updateGridStats s = Some st /\
    Engine.statDownbeat st = JS.toFixed 4 (downbeat_whole (Engine.calcGrid b)) /\
    Engine.statHalf st = JS.toFixed 4 (half_note (Engine.calcGrid b)) /\
    Engine.statQuarter st = JS.toFixed 4 (quarter_note (Engine.calcGrid b)) /\
    Engine.statOffbeat st = JS.toFixed 4 (eighth_note (Engine.calcGrid b)) /\
    (forall count iv,
       In (count, iv)
          [(Engine.statDownbeatCount st, downbeat_whole (Engine.calcGrid b));
           (Engine.statHalfCount st, half_note (Engine.calcGrid b));
           (Engine.statQuarterCount st, quarter_note (Engine.calcGrid b));
           (Engine.statOffbeatCount st, eighth_note (Engine.calcGrid b))] ->
       exists k : Z,
         count = inject_Z k /\ (0 <= k)%Z /\
         count = JS.Math_floor (Binary64.div d iv) /\
         (k = Qfloor (d / iv) \/ k = (Qfloor (d / iv) + 1)%Z) /\
         d < (inject_Z k + 1) * iv /\
         inject_Z k * iv <= (1 + u) * d) /\
    (forall coarse fine,
       In (coarse, fine)
          [(Engine.statDownbeatCount st, Engine.statHalfCount st);
           (Engine.statHalfCount st, Engine.statQuarterCount st);
           (Engine.statQuarterCount st, Engine.statOffbeatCount st)] ->
       fine == 2 * coarse \/ fine == 2 * coarse + 1) /\
    option_map Engine.statQuarterCount
               (Engine.updateGridStats (Engine.session_at 42 60 []))
    = Some 42 /\
    60 < 42 * quarter_note (Engine.calcGrid 42) /\
    option_map (fun st => [Engine.statDownbeatCount st; Engine.statHalfCount st;
                           Engine.statQuarterCount st;
                           Engine.statOffbeatCount st])
               (Engine.updateGridStats (Engine.session_at 58 30 []))
    = Some [7; 14; 28; 57] /\
    Qfloor (30 / ((60 / 58) / 2)) = 58%Z.
Proof.
  destruct (grid_ratios b Hlo Hhi) as (Hq & He & Hh & Hdb).
  destruct (quotient_range b Hlo Hhi) as (Hb & _ & _).
  assert (Zb : Qeq_bool b 0 = false).
  { apply not_true_iff_false. intros H. apply Qeq_bool_iff in H. lra. }
  assert (Zd : Qeq_bool d 0 = false).
  { apply not_true_iff_false. intros H. apply Qeq_bool_iff in H. lra. }
  destruct (counts_on_grid d (Engine.calcGrid b) Hd Hq He Hh Hdb Hfit)
    as [C1 C2].
  set (g := Engine.calcGrid b) in *.
  exists (Engine.mkGridStats
            (JS.toFixed 4 (downbeat_whole g)) (Engine.cuts d (downbeat_whole g))
            (JS.toFixed 4 (half_note g)) (Engine.cuts d (half_note g))
            (JS.toFixed 4 (quarter_note g)) (Engine.cuts d (quarter_note g))
            (JS.toFixed 4 (eighth_note g)) (Engine.cuts d (eighth_note g))).
  split.
  { unfold Engine.updateGridStats. rewrite Ebpm, Edur, Egrid.
    cbn [JS.truthy num]. rewrite Zb, Zd. reflexivity. }
  cbn [Engine.statDownbeat Engine.statHalf Engine.statQuarter
       Engine.statOffbeat Engine.statDownbeatCount Engine.statHalfCount
       Engine.statQuarterCount Engine.statOffbeatCount].
  do 4 (split; [reflexivity|]).
  split; [exact C1|]. split; [exact C2|]. exact cuts_examples.
Qed.

(** A 30 s song at tempo 100. *)
Lemma updateGridStats_counts_witness :
  exists st,
    Engine.updateGridStats (Engine.session_at 100 30 []) = Some st /\
    Engine.statQuarter st = JS.toFixed 4 (quarter_note (Engine.calcGrid 100)).
Proof.
  destruct (updateGridStats_counts (Engine.session_at 100 30 []) 100 30)
    as (st & E & _ & _ & Q & _).
  - vm_compute. discriminate.
  - vm_compute. discriminate.
  - reflexivity.
  - vm_compute. reflexivity.
  - reflexivity.
  - reflexivity.
  - reflexivity.
  - exists st. split; [exact E | exact Q].
Defined.
